(** * GitNexus: embedding subsystem and ingestion core

    A shallow embedding of
    - the embedder module (singleton model state, [embedBatch]),
    - the embedding pipeline module ([queryEmbeddableNodes],
      [updateNodeEmbedding], [runEmbeddingPipeline], [semanticSearch]),
    - the node schema of the storage sink,
    - the comment stripping of the install-time patch of the Swift
      grammar's build file,
    and, for the parts of the ingestion core whose code is described by the
    specification only, a model that follows the specification's words.

    Part I holds the models, Part II the properties. *)

From stdpp Require Import gmap strings list pretty.
From Stdlib Require Import ZArith Lia Ascii.

(* ===================================================================== *)
(** * Part I: models                                                      *)
(* ===================================================================== *)

(** ** JavaScript values that cross the module boundaries *)

Module Js.

(** Errors keep their origin: [Thrown] is an [Error] object built by a
    [throw new Error(msg)] of the modelled modules, [Rejected] is whatever an
    external collaborator (model runtime, storage sink) rejected with;
    [isError] records [error instanceof Error]. *)
Inductive Error :=
| Thrown (msg : string)
| Rejected (isError : bool) (msg : string).

Inductive Result (A : Type) :=
| Ok (a : A)
| Err (e : Error).
Arguments Ok {A} a.
Arguments Err {A} e.

(** How a promise of an external collaborator settles. *)
Inductive Settle (A : Type) :=
| Fulfil (a : A)
| Reject (isError : bool) (msg : string).
Arguments Fulfil {A} a.
Arguments Reject {A} isError msg.

(** [await] on such a promise. *)
Definition await {A} (x : Settle A) : Result A :=
  match x with
  | Fulfil a => Ok a
  | Reject b msg => Err (Rejected b msg)
  end.

(** A value of type [any] found in a row. Numbers are kept abstract: the
    code only passes them on or renders them. *)
Inductive Val (Num : Type) :=
| Undefined
| Null
| Bool (b : bool)
| Number (n : Num)
| Str (s : string).
Arguments Undefined {Num}.
Arguments Null {Num}.
Arguments Bool {Num} b.
Arguments Number {Num} n.
Arguments Str {Num} s.

(** [a ?? b] *)
Definition nullish {Num} (a b : Val Num) : Val Num :=
  match a with
  | Undefined | Null => b
  | _ => a
  end.

(** [String(v)], as a template literal applies it. *)
Definition toString {Num} (numToString : Num -> string) (v : Val Num) : string :=
  match v with
  | Undefined => "undefined"
  | Null => "null"
  | Bool true => "true"
  | Bool false => "false"
  | Number n => numToString n
  | Str s => s
  end.

(** A row is an object: a finite map from property keys to values. An
    array is an object whose keys are the decimal indices, so [row[0]] is
    the property ["0"]. Reading a missing property gives [undefined]. *)
Definition get {Num} (row : gmap string (Val Num)) (key : string) : Val Num :=
  default Undefined (row !! key).

(** [Array.prototype.slice.call(data, start, end)] for [0 <= start <= end]. *)
Definition slice {A} (data : list A) (start end_ : nat) : list A :=
  take (end_ - start) (drop start data).

(** [xs.join(sep)] on already rendered elements. *)
Fixpoint join (sep : string) (xs : list string) : string :=
  match xs with
  | [] => ""
  | [x] => x
  | x :: rest => x +:+ sep +:+ join sep rest
  end.

End Js.

(** ** The embedder module: singleton factory for the embedding model *)

Module Embedder.

(** A loaded [FeatureExtractionPipeline], identified by a handle. *)
Definition Pipeline := nat.

Inductive Device := webgpu | wasm.

(** The body of the async function stored in [initPromise], suspended at
    [await pipeline(...)]: the promise it will settle, the device it is
    waiting for and the devices of [devicesToTry] still ahead. *)
Record Task := {
  tpromise : nat;
  tdevice : Device;
  tremaining : list Device;
}.

Inductive Settled :=
| Fulfilled (p : Pipeline)
| Failed (e : string).

(** The three module-level variables, followed by the state of the
    JavaScript run time that the module's behaviour depends on. *)
Record State := {
  embedderInstance : option Pipeline;
  isInitializing : bool;
  initPromise : option nat;
  tasks : list Task;          (* suspended initialisations *)
  disposing : nat;            (* disposeEmbedder calls awaiting dispose() *)
  settled : gmap nat Settled; (* promises that have settled *)
  nextPromise : nat;
  loads : list Device;        (* every pipeline() invocation, oldest first *)
}.

Definition initial : State :=
  {| embedderInstance := None; isInitializing := false; initPromise := None;
     tasks := []; disposing := 0; settled := ∅; nextPromise := 0;
     loads := [] |}.

(** What an [initEmbedder] call hands to its caller: the instance, or a
    promise to wait for. (The [async] wrapper returns a promise in both
    cases; it is resolved with the instance, respectively follows the
    stored promise.) *)
Inductive Ret :=
| RetInstance (p : Pipeline)
| RetPromise (pr : nat).

Definition devicesToTry (device : Device) : list Device :=
  match device with
  | webgpu => [webgpu; wasm]
  | wasm => [wasm]
  end.

(** [initEmbedder(onProgress, config)], up to the point where it returns;
    [device] is [finalConfig.device]. *)
Definition initEmbedder (device : Device) (s : State) : State * Ret :=
  match embedderInstance s with
  | Some p => (s, RetInstance p)
  | None =>
    match isInitializing s, initPromise s with
    | true, Some pr => (s, RetPromise pr)
    | _, _ =>
      let pr := nextPromise s in
      let first := hd wasm (devicesToTry device) in
      let rest := tail (devicesToTry device) in
      ({| embedderInstance := embedderInstance s;
          isInitializing := true;
          initPromise := Some pr;
          tasks := tasks s ++ [{| tpromise := pr; tdevice := first;
                                  tremaining := rest |}];
          disposing := disposing s;
          settled := settled s;
          nextPromise := S pr;
          loads := loads s ++ [first] |}, RetPromise pr)
    end
  end.

Definition findTask (pr : nat) (s : State) : option Task :=
  List.find (fun t => Nat.eqb (tpromise t) pr) (tasks s).

Definition dropTask (pr : nat) (ts : list Task) : list Task :=
  List.filter (fun t => negb (Nat.eqb (tpromise t) pr)) ts.

Definition replaceTask (t' : Task) (ts : list Task) : list Task :=
  List.map (fun t => if Nat.eqb (tpromise t) (tpromise t') then t' else t) ts.

(** The awaited [pipeline(...)] of task [pr] fulfils with [p]:
    [embedderInstance = p; break; ... return embedderInstance], then the
    [finally] block. *)
Definition pipelineResolves (pr : nat) (p : Pipeline) (s : State) : State :=
  match findTask pr s with
  | None => s
  | Some _ =>
    {| embedderInstance := Some p;
       isInitializing := false;
       initPromise := initPromise s;
       tasks := dropTask pr (tasks s);
       disposing := disposing s;
       settled := <[pr := Fulfilled p]> (settled s);
       nextPromise := nextPromise s;
       loads := loads s |}
  end.

(** The awaited [pipeline(...)] of task [pr] rejects with [e]: the inner
    [catch] records it and the loop goes on to the next device; after the
    last device, [if (!embedderInstance) throw lastError], caught by the
    outer [catch], which resets the three variables. *)
Definition pipelineRejects (pr : nat) (e : string) (s : State) : State :=
  match findTask pr s with
  | None => s
  | Some t =>
    match tremaining t with
    | d :: ds =>
      {| embedderInstance := embedderInstance s;
         isInitializing := isInitializing s;
         initPromise := initPromise s;
         tasks := replaceTask {| tpromise := pr; tdevice := d;
                                 tremaining := ds |} (tasks s);
         disposing := disposing s;
         settled := settled s;
         nextPromise := nextPromise s;
         loads := loads s ++ [d] |}
    | [] =>
      match embedderInstance s with
      | Some p =>
        {| embedderInstance := Some p;
           isInitializing := false;
           initPromise := initPromise s;
           tasks := dropTask pr (tasks s);
           disposing := disposing s;
           settled := <[pr := Fulfilled p]> (settled s);
           nextPromise := nextPromise s;
           loads := loads s |}
      | None =>
        {| embedderInstance := None;
           isInitializing := false;
           initPromise := None;
           tasks := dropTask pr (tasks s);
           disposing := disposing s;
           settled := <[pr := Failed e]> (settled s);
           nextPromise := nextPromise s;
           loads := loads s |}
      end
    end
  end.

(** [isEmbedderReady()] *)
Definition isEmbedderReady (s : State) : bool :=
  match embedderInstance s with
  | Some _ => true
  | None => false
  end.

(** [getEmbedder()] *)
Definition getEmbedder (s : State) : Js.Result Pipeline :=
  match embedderInstance s with
  | Some p => Js.Ok p
  | None => Js.Err (Js.Thrown "Embedder not initialized. Call initEmbedder() first.")
  end.

(** [disposeEmbedder()] up to its [await]: with a [dispose] method on the
    instance the call suspends, without one it clears the variables at
    once. *)
Definition disposeEmbedder (hasDispose : bool) (s : State) : State :=
  match embedderInstance s with
  | None => s
  | Some _ =>
    if hasDispose then
      {| embedderInstance := embedderInstance s;
         isInitializing := isInitializing s;
         initPromise := initPromise s;
         tasks := tasks s;
         disposing := S (disposing s);
         settled := settled s;
         nextPromise := nextPromise s;
         loads := loads s |}
    else
      {| embedderInstance := None;
         isInitializing := isInitializing s;
         initPromise := None;
         tasks := tasks s;
         disposing := disposing s;
         settled := settled s;
         nextPromise := nextPromise s;
         loads := loads s |}
  end.

(** A suspended [disposeEmbedder] resumes after [await dispose()]:
    [embedderInstance = null; initPromise = null]. *)
Definition disposeResumes (s : State) : State :=
  match disposing s with
  | O => s
  | S n =>
    {| embedderInstance := None;
       isInitializing := isInitializing s;
       initPromise := None;
       tasks := tasks s;
       disposing := n;
       settled := settled s;
       nextPromise := nextPromise s;
       loads := loads s |}
  end.

(** What can happen to the module, one event per turn of the event loop. *)
Inductive Event :=
| InitEmbedder (device : Device)
| PipelineResolves (pr : nat) (p : Pipeline)
| PipelineRejects (pr : nat) (e : string)
| DisposeEmbedder (hasDispose : bool)
| DisposeResumes.

Definition step (s : State) (ev : Event) : State * option Ret :=
  match ev with
  | InitEmbedder device =>
    let '(s', r) := initEmbedder device s in (s', Some r)
  | PipelineResolves pr p => (pipelineResolves pr p s, None)
  | PipelineRejects pr e => (pipelineRejects pr e s, None)
  | DisposeEmbedder hasDispose => (disposeEmbedder hasDispose s, None)
  | DisposeResumes => (disposeResumes s, None)
  end.

(** Runs a trace; the second component lists what the [initEmbedder]
    calls of the trace returned, in order. *)
Fixpoint run (s : State) (tr : list Event) : State * list Ret :=
  match tr with
  | [] => (s, [])
  | ev :: tr' =>
    let '(s1, r) := step s ev in
    let '(s2, rs) := run s1 tr' in
    (s2, match r with Some x => x :: rs | None => rs end)
  end.

Definition isDispose (ev : Event) : bool :=
  match ev with
  | DisposeEmbedder _ | DisposeResumes => true
  | _ => false
  end.

(** A trace in which [disposeEmbedder] plays no part. *)
Definition quiet (tr : list Event) : Prop :=
  Forall (fun ev => isDispose ev = false) tr.

(** The shape of the states such traces reach: fulfilled promises carry the
    current instance, and either nothing is in flight, or exactly one
    initialisation is, announced by [isInitializing] and [initPromise]. *)
Definition calm (s : State) : Prop :=
  (forall pr i, settled s !! pr = Some (Fulfilled i) -> embedderInstance s = Some i) /\
  ((tasks s = [] /\ isInitializing s = false) \/
   (exists t, tasks s = [t] /\ embedderInstance s = None /\
              isInitializing s = true /\ initPromise s = Some (tpromise t))).

(** [DEFAULT_EMBEDDING_CONFIG.dimensions]. The constant is declared in the
    types module, which is not among the sources; its value is the one this
    module documents (header: 384 dims; [embedText]: 384 dimensions) and the
    node schema uses for the [embedding] column ([FLOAT[384]]). *)
Definition dimensions : nat := 384.

Section EmbedBatch.

(** Entries of the output tensor ([dtype: 'fp32']); on these the
    [Float32Array] constructor is the identity. *)
Context {F : Type}.

(** The model run time: what [await embedder(texts, {pooling, normalize})]
    settles to, as the flat [result.data] or a rejection. *)
Variable model : Pipeline -> list string -> Js.Settle (list F).

(** The [for] loop of [embedBatch]: [todo] is [texts.length - i]. *)
Fixpoint embedLoop (data : list F) (todo i : nat) (embeddings : list (list F))
  : list (list F) :=
  match todo with
  | O => embeddings
  | S todo' =>
    let start := i * dimensions in
    let end_ := start + dimensions in
    embedLoop data todo' (S i) (embeddings ++ [Js.slice data start end_])
  end.

Definition splitRows (data : list F) (n : nat) : list (list F) :=
  embedLoop data n 0 [].

(** [embedBatch(texts)]. The second component lists the batches handed to
    the model by this call. *)
Definition embedBatch (texts : list string) (s : State)
  : Js.Result (list (list F)) * list (list string) :=
  match texts with
  | [] => (Js.Ok [], [])
  | _ =>
    match getEmbedder s with
    | Js.Err e => (Js.Err e, [])
    | Js.Ok embedder =>
      match Js.await (model embedder texts) with
      | Js.Err e => (Js.Err e, [texts])
      | Js.Ok data => (Js.Ok (splitRows data (List.length texts)), [texts])
      end
    end
  end.

(** [embedText(text)]; the model is handed the one text. *)
Definition embedText (text : string) (s : State)
  : Js.Result (list F) * list (list string) :=
  match getEmbedder s with
  | Js.Err e => (Js.Err e, [])
  | Js.Ok embedder =>
    match Js.await (model embedder [text]) with
    | Js.Err e => (Js.Err e, [[text]])
    | Js.Ok data => (Js.Ok data, [[text]])
    end
  end.

(** [embeddingToArray]: [Array.from] keeps every entry. *)
Definition embeddingToArray (embedding : list F) : list F := embedding.

End EmbedBatch.

End Embedder.

(** ** The embedding pipeline module *)

Module EmbeddingPipeline.

Definition nl : string := String (ascii_of_nat 10) "".

(** Progress of a model download, as far as the pipeline reads it
    ([modelProgress.progress]). *)
Record ModelProgress (Num : Type) := {
  mp_status : string;
  mp_progress : option Num;
}.
Arguments mp_status {Num} _.
Arguments mp_progress {Num} _.

Inductive Phase := LoadingModel | Embedding | Indexing | Ready | Failure.

(** [EmbeddingProgress]; an absent property is [None]. *)
Record EmbeddingProgress (Num : Type) := {
  phase : Phase;
  percent : Num;
  modelDownloadPercent : option Num;
  nodesProcessed : option nat;
  totalNodes : option nat;
  currentBatch : option nat;
  totalBatches : option nat;
  error : option string;
}.
Arguments phase {Num} _.
Arguments percent {Num} _.
Arguments modelDownloadPercent {Num} _.
Arguments nodesProcessed {Num} _.
Arguments totalNodes {Num} _.
Arguments currentBatch {Num} _.
Arguments totalBatches {Num} _.
Arguments error {Num} _.

(** [EmbeddableNode], built from a row of unknown shape. *)
Record EmbeddableNode (Num : Type) := {
  en_id : Js.Val Num;
  en_name : Js.Val Num;
  en_label : Js.Val Num;
  en_filePath : Js.Val Num;
  en_content : Js.Val Num;
  en_startLine : Js.Val Num;
  en_endLine : Js.Val Num;
}.
Arguments en_id {Num} _.
Arguments en_name {Num} _.
Arguments en_label {Num} _.
Arguments en_filePath {Num} _.
Arguments en_content {Num} _.
Arguments en_startLine {Num} _.
Arguments en_endLine {Num} _.

(** [SemanticSearchResult] *)
Record SemanticSearchResult (Num : Type) := {
  sr_nodeId : Js.Val Num;
  sr_name : Js.Val Num;
  sr_label : Js.Val Num;
  sr_filePath : Js.Val Num;
  sr_distance : Js.Val Num;
  sr_startLine : Js.Val Num;
  sr_endLine : Js.Val Num;
}.
Arguments sr_nodeId {Num} _.
Arguments sr_name {Num} _.
Arguments sr_label {Num} _.
Arguments sr_filePath {Num} _.
Arguments sr_distance {Num} _.
Arguments sr_startLine {Num} _.
Arguments sr_endLine {Num} _.

(** Everything the module can touch: the embedder singleton, the database
    behind [executeQuery], and what has been observed from outside (query
    texts issued, progress reported, batches run through the model). *)
Record World (Num D : Type) := {
  embedder : Embedder.State;
  database : D;
  issued : list string;
  reported : list (EmbeddingProgress Num);
  modelRuns : list (list string);
}.
Arguments embedder {Num D} _.
Arguments database {Num D} _.
Arguments issued {Num D} _.
Arguments reported {Num D} _.
Arguments modelRuns {Num D} _.

Section WithCollaborators.

Context {Num D : Type}.

Abbreviation Row := (gmap string (Js.Val Num)).
Abbreviation W := (World Num D).

(** Effectful code: reads and updates the world, and may throw. *)
Definition M (A : Type) : Type := W -> Js.Result A * W.

Definition ret {A} (a : A) : M A := fun w => (Js.Ok a, w).
Definition throw {A} (e : Js.Error) : M A := fun w => (Js.Err e, w).
Definition bind {A B} (m : M A) (k : A -> M B) : M B :=
  fun w =>
    match m w with
    | (Js.Ok a, w') => k a w'
    | (Js.Err e, w') => (Js.Err e, w')
    end.

Notation "x <- m ;; k" := (bind m (fun x => k))
  (at level 100, m at next level, right associativity).
Notation "m ;;; k" := (bind m (fun _ => k))
  (at level 100, right associativity).

(** [String(n)] for a number, as template literals and [join] apply it. *)
Variable numToString : Num -> string.
(** Integer literals of the source as numbers. *)
Variable ofZ : Z -> Num.
(** [Math.round(downloadPercent * 0.2)] *)
Variable scaleDownload : Num -> Num.
(** [Math.round(20 + (processed / total) * 70)] *)
Variable embeddingPercent : nat -> nat -> Num.

(** The storage sink: what a query text does to the database and what it
    returns. *)
Variable executeQuery : string -> D -> Js.Settle (list Row) * D.
(** The model run time behind a pipeline handle. *)
Variable model : Embedder.Pipeline -> list string -> Js.Settle (list Num).
(** What [pipeline('feature-extraction', modelId, {device, ...})] does:
    the progress callbacks it makes and how it settles. *)
Variable loadModel : Embedder.Device -> list (ModelProgress Num) * (Embedder.Pipeline + string).
(** [EMBEDDABLE_LABELS] and [generateBatchEmbeddingTexts] of the sibling
    modules. *)
Variable EMBEDDABLE_LABELS : list string.
Variable generateBatchEmbeddingTexts : list (EmbeddableNode Num) -> list string.

(** [await executeQuery(cypher)] *)
Definition query (cypher : string) : M (list Row) :=
  fun w =>
    let '(r, d) := executeQuery cypher (database w) in
    (Js.await r,
     {| embedder := embedder w; database := d;
        issued := issued w ++ [cypher];
        reported := reported w; modelRuns := modelRuns w |}).

(** [onProgress(p)] *)
Definition onProgress (p : EmbeddingProgress Num) : M unit :=
  fun w =>
    (Js.Ok tt,
     {| embedder := embedder w; database := database w;
        issued := issued w;
        reported := reported w ++ [p]; modelRuns := modelRuns w |}).

Definition withEmbedder {A} (f : Embedder.State -> Js.Result A * list (list string)) : M A :=
  fun w =>
    let '(r, runs) := f (embedder w) in
    (r,
     {| embedder := embedder w; database := database w;
        issued := issued w;
        reported := reported w; modelRuns := modelRuns w ++ runs |}).

(** Row to record, as in [queryEmbeddableNodes]. *)
Definition toEmbeddableNode (row : Row) : EmbeddableNode Num :=
  {| en_id := Js.nullish (Js.get row "id") (Js.get row "0");
     en_name := Js.nullish (Js.get row "name") (Js.get row "1");
     en_label := Js.nullish (Js.get row "label") (Js.get row "2");
     en_filePath := Js.nullish (Js.get row "filePath") (Js.get row "3");
     en_content := Js.nullish (Js.nullish (Js.get row "content") (Js.get row "4"))
                              (Js.Str "");
     en_startLine := Js.nullish (Js.get row "startLine") (Js.get row "5");
     en_endLine := Js.nullish (Js.get row "endLine") (Js.get row "6") |}.

(** Row to record, as in [semanticSearch]. *)
Definition toSearchResult (row : Row) : SemanticSearchResult Num :=
  {| sr_nodeId := Js.nullish (Js.get row "nodeId") (Js.get row "0");
     sr_name := Js.nullish (Js.get row "name") (Js.get row "1");
     sr_label := Js.nullish (Js.get row "label") (Js.get row "2");
     sr_filePath := Js.nullish (Js.get row "filePath") (Js.get row "3");
     sr_distance := Js.nullish (Js.get row "distance") (Js.get row "4");
     sr_startLine := Js.nullish (Js.get row "startLine") (Js.get row "5");
     sr_endLine := Js.nullish (Js.get row "endLine") (Js.get row "6") |}.

Definition labelConditions : string :=
  Js.join " OR " (List.map (fun label => "n.label = '" +:+ label +:+ "'")
                           EMBEDDABLE_LABELS).

Definition embeddableNodesQuery : string :=
  nl +:+ "    MATCH (n:CodeNode)" +:+ nl
  +:+ "    WHERE " +:+ labelConditions +:+ nl
  +:+ "    RETURN n.id AS id, n.name AS name, n.label AS label, " +:+ nl
  +:+ "           n.filePath AS filePath, n.content AS content," +:+ nl
  +:+ "           n.startLine AS startLine, n.endLine AS endLine" +:+ nl
  +:+ "  ".

(** [queryEmbeddableNodes(executeQuery)] *)
Definition queryEmbeddableNodes : M (list (EmbeddableNode Num)) :=
  rows <- query embeddableNodesQuery ;;
  ret (List.map toEmbeddableNode rows).

(** The text [updateNodeEmbedding] hands to [executeQuery]. *)
Definition updateNodeEmbeddingQuery (nodeId : string) (embedding : list Num) : string :=
  let embeddingStr := "[" +:+ Js.join "," (List.map numToString embedding) +:+ "]" in
  nl +:+ "    MATCH (n:CodeNode {id: '" +:+ nodeId +:+ "'})" +:+ nl
  +:+ "    SET n.embedding = CAST(" +:+ embeddingStr +:+ " AS FLOAT[384])" +:+ nl
  +:+ "  ".

(** [updateNodeEmbedding(executeQuery, nodeId, embedding)] *)
Definition updateNodeEmbedding (nodeId : string) (embedding : list Num) : M unit :=
  query (updateNodeEmbeddingQuery nodeId embedding) ;;; ret tt.

(** [batchUpdateEmbeddings(executeQuery, updates)] *)
Fixpoint batchUpdateEmbeddings (updates : list (string * list Num)) : M unit :=
  match updates with
  | [] => ret tt
  | update :: rest =>
    updateNodeEmbedding (fst update) (snd update) ;;;
    batchUpdateEmbeddings rest
  end.

Definition createVectorIndexQuery : string :=
  nl +:+ "    CALL CREATE_VECTOR_INDEX('CodeNode', 'code_embedding_idx', 'embedding', metric := 'cosine')"
  +:+ nl +:+ "  ".

(** [createVectorIndex(executeQuery)]: a rejection is swallowed. *)
Definition createVectorIndex : M unit :=
  fun w =>
    match query createVectorIndexQuery w with
    | (_, w') => (Js.Ok tt, w')
    end.

(** Code that, besides, may never return ([None]). *)
Definition P (A : Type) : Type := W -> option (Js.Result A * W).

Definition liftP {A} (m : M A) : P A := fun w => Some (m w).
Definition bindP {A B} (m : P A) (k : A -> P B) : P B :=
  fun w =>
    match m w with
    | None => None
    | Some (Js.Ok a, w') => k a w'
    | Some (Js.Err e, w') => Some (Js.Err e, w')
    end.

(** The callback [initEmbedder] is given by [runEmbeddingPipeline]. *)
Definition modelProgressReport (mp : ModelProgress Num) : EmbeddingProgress Num :=
  let downloadPercent := default (ofZ 0) (mp_progress mp) in
  {| phase := LoadingModel;
     percent := scaleDownload downloadPercent;
     modelDownloadPercent := Some downloadPercent;
     nodesProcessed := None; totalNodes := None;
     currentBatch := None; totalBatches := None; error := None |}.

(** Lets the initialisation behind promise [pr] run until the promise
    settles: each [pipeline(...)] it waits for makes its callbacks and
    settles as [loadModel] says. [None]: the promise never settles. *)
Fixpoint settleInit (fuel : nat) (pr : nat) (es : Embedder.State)
  : option (Js.Result Embedder.Pipeline * Embedder.State * list (ModelProgress Num)) :=
  match Embedder.findTask pr es with
  | None =>
    match Embedder.settled es !! pr with
    | Some (Embedder.Fulfilled p) => Some (Js.Ok p, es, [])
    | Some (Embedder.Failed e) => Some (Js.Err (Js.Rejected true e), es, [])
    | None => None
    end
  | Some t =>
    match fuel with
    | O => None
    | S fuel' =>
      let '(events, outcome) := loadModel (Embedder.tdevice t) in
      let es' := match outcome with
                 | inl p => Embedder.pipelineResolves pr p es
                 | inr e => Embedder.pipelineRejects pr e es
                 end in
      match settleInit fuel' pr es' with
      | Some (r, es'', events') => Some (r, es'', events ++ events')
      | None => None
      end
    end
  end.

(** [await initEmbedder(callback, finalConfig)] with the callback of
    [runEmbeddingPipeline]. The callback is only installed when this call
    starts the load. *)
Definition awaitInitEmbedder (device : Embedder.Device) : P Embedder.Pipeline :=
  fun w =>
    let '(es, r) := Embedder.initEmbedder device (embedder w) in
    match r with
    | Embedder.RetInstance p =>
      Some (Js.Ok p,
            {| embedder := es; database := database w; issued := issued w;
               reported := reported w; modelRuns := modelRuns w |})
    | Embedder.RetPromise pr =>
      let started := negb (Nat.eqb (Embedder.nextPromise es)
                                   (Embedder.nextPromise (embedder w))) in
      match settleInit 3 pr es with
      | None => None
      | Some (res, es', events) =>
        Some (res,
              {| embedder := es'; database := database w; issued := issued w;
                 reported := reported w ++
                   (if started then List.map modelProgressReport events else []);
                 modelRuns := modelRuns w |})
      end
    end.

(** [batch.map((node, i) => ({id: node.id, embedding:
    embeddingToArray(embeddings[i])}))]; [Array.from(undefined)] throws. *)
Fixpoint makeUpdates (batch : list (EmbeddableNode Num)) (embeddings : list (list Num))
  : Js.Result (list (string * list Num)) :=
  match batch with
  | [] => Js.Ok []
  | node :: batch' =>
    match embeddings with
    | [] => Js.Err (Js.Rejected true "undefined is not iterable")
    | e :: embeddings' =>
      match makeUpdates batch' embeddings' with
      | Js.Ok us =>
        Js.Ok ((Js.toString numToString (en_id node), Embedder.embeddingToArray e) :: us)
      | Js.Err err => Js.Err err
      end
    end
  end.

Definition embeddingReport (processedNodes total batchIndex totalB : nat)
  : EmbeddingProgress Num :=
  {| phase := Embedding;
     percent := embeddingPercent processedNodes total;
     modelDownloadPercent := None;
     nodesProcessed := Some processedNodes; totalNodes := Some total;
     currentBatch := Some batchIndex; totalBatches := Some totalB; error := None |}.

(** The [for] loop over the batches; [todo] is [totalBatches - batchIndex]. *)
Fixpoint embedBatches (nodes : list (EmbeddableNode Num))
    (batchSize total totalB : nat)
    (todo batchIndex processedNodes : nat) : M unit :=
  match todo with
  | O => ret tt
  | S todo' =>
    let start := batchIndex * batchSize in
    let end_ := Nat.min (start + batchSize) total in
    let batch := Js.slice nodes start end_ in
    let texts := generateBatchEmbeddingTexts batch in
    embeddings <- withEmbedder (Embedder.embedBatch model texts) ;;
    updates <- (fun w => (makeUpdates batch embeddings, w)) ;;
    batchUpdateEmbeddings updates ;;;
    let processedNodes' := processedNodes + List.length batch in
    onProgress (embeddingReport processedNodes' total (batchIndex + 1) totalB) ;;;
    embedBatches nodes batchSize total totalB todo' (S batchIndex) processedNodes'
  end.

Definition loadingReport (pct dl : Z) : EmbeddingProgress Num :=
  {| phase := LoadingModel; percent := ofZ pct;
     modelDownloadPercent := Some (ofZ dl);
     nodesProcessed := None; totalNodes := None;
     currentBatch := None; totalBatches := None; error := None |}.

Definition countsReport (ph : Phase) (pct : Z) (processed total : nat)
  : EmbeddingProgress Num :=
  {| phase := ph; percent := ofZ pct;
     modelDownloadPercent := None;
     nodesProcessed := Some processed; totalNodes := Some total;
     currentBatch := None; totalBatches := None; error := None |}.

(** The [try] block of [runEmbeddingPipeline]; [device] and [batchSize]
    are those of [finalConfig]. With [batchSize = 0] the number of batches
    is [Infinity] and the loop does not end. *)
Definition runEmbeddingPipelineBody (device : Embedder.Device) (batchSize : nat)
  : P unit :=
  bindP (liftP (onProgress (loadingReport 0 0))) (fun _ =>
  bindP (awaitInitEmbedder device) (fun _ =>
  bindP (liftP (onProgress (loadingReport 20 100))) (fun _ =>
  bindP (liftP queryEmbeddableNodes) (fun nodes =>
  let total := List.length nodes in
  match total with
  | O => liftP (onProgress (countsReport Ready 100 0 0))
  | S _ =>
    match batchSize with
    | O => fun _ => None
    | S _ =>
      let totalB := (total + batchSize - 1) / batchSize in
      liftP (
        onProgress
          {| phase := Embedding; percent := ofZ 20;
             modelDownloadPercent := None;
             nodesProcessed := Some 0; totalNodes := Some total;
             currentBatch := Some 0; totalBatches := Some totalB;
             error := None |} ;;;
        embedBatches nodes batchSize total totalB totalB 0 0 ;;;
        onProgress (countsReport Indexing 90 total total) ;;;
        createVectorIndex ;;;
        onProgress (countsReport Ready 100 total total))
    end
  end)))).

(** [error instanceof Error ? error.message : 'Unknown error'] *)
Definition errorMessage (e : Js.Error) : string :=
  match e with
  | Js.Thrown msg => msg
  | Js.Rejected true msg => msg
  | Js.Rejected false _ => "Unknown error"
  end.

(** [runEmbeddingPipeline(executeQuery, onProgress, config)] *)
Definition runEmbeddingPipeline (device : Embedder.Device) (batchSize : nat)
  : P unit :=
  fun w =>
    match runEmbeddingPipelineBody device batchSize w with
    | None => None
    | Some (Js.Ok tt, w') => Some (Js.Ok tt, w')
    | Some (Js.Err e, w') =>
      Some ((onProgress
               {| phase := Failure; percent := ofZ 0;
                  modelDownloadPercent := None;
                  nodesProcessed := None; totalNodes := None;
                  currentBatch := None; totalBatches := None;
                  error := Some (errorMessage e) |} ;;;
             throw e) w')
    end.

Definition notInitialized : string :=
  "Embedding model not initialized. Run embedding pipeline first.".

Definition isEmbedderReady : M bool :=
  fun w => (Js.Ok (Embedder.isEmbedderReady (embedder w)), w).

Definition vectorLiteral (v : list Num) : string :=
  "[" +:+ Js.join "," (List.map numToString v) +:+ "]".

Definition semanticSearchQuery (queryVecStr : string) (k maxDistance : Num) : string :=
  nl +:+ "    CALL QUERY_VECTOR_INDEX('CodeNode', 'code_embedding_idx', " +:+ nl
  +:+ "      CAST(" +:+ queryVecStr +:+ " AS FLOAT[384]), " +:+ numToString k +:+ ")" +:+ nl
  +:+ "    YIELD node, distance" +:+ nl
  +:+ "    WHERE distance < " +:+ numToString maxDistance +:+ nl
  +:+ "    RETURN node.id AS nodeId, node.name AS name, node.label AS label," +:+ nl
  +:+ "           node.filePath AS filePath, distance," +:+ nl
  +:+ "           node.startLine AS startLine, node.endLine AS endLine" +:+ nl
  +:+ "    ORDER BY distance" +:+ nl
  +:+ "  ".

(** [semanticSearch(executeQuery, query, k, maxDistance)] *)
Definition semanticSearch (queryText : string) (k maxDistance : Num)
  : M (list (SemanticSearchResult Num)) :=
  ready <- isEmbedderReady ;;
  if negb ready then throw (Js.Thrown notInitialized)
  else
    queryEmbedding <- withEmbedder (Embedder.embedText model queryText) ;;
    let queryVec := Embedder.embeddingToArray queryEmbedding in
    rows <- query (semanticSearchQuery (vectorLiteral queryVec) k maxDistance) ;;
    ret (List.map toSearchResult rows).

Definition semanticSearchWithContextQuery (queryVecStr : string) (k hops : Num) : string :=
  nl +:+ "    CALL QUERY_VECTOR_INDEX('CodeNode', 'code_embedding_idx'," +:+ nl
  +:+ "      CAST(" +:+ queryVecStr +:+ " AS FLOAT[384]), " +:+ numToString k +:+ ")" +:+ nl
  +:+ "    YIELD node AS match, distance" +:+ nl
  +:+ "    WHERE distance < 0.5" +:+ nl
  +:+ "    MATCH (match)-[r:CodeRelation*1.." +:+ numToString hops +:+ "]-(connected:CodeNode)" +:+ nl
  +:+ "    RETURN match.id AS matchId, match.name AS matchName, match.label AS matchLabel," +:+ nl
  +:+ "           match.filePath AS matchPath, distance," +:+ nl
  +:+ "           collect(DISTINCT {" +:+ nl
  +:+ "             id: connected.id," +:+ nl
  +:+ "             name: connected.name," +:+ nl
  +:+ "             label: connected.label," +:+ nl
  +:+ "             relationType: [rel IN r | rel.type]" +:+ nl
  +:+ "           }) AS connections" +:+ nl
  +:+ "    ORDER BY distance" +:+ nl
  +:+ "  ".

(** [semanticSearchWithContext(executeQuery, query, k, hops)] *)
Definition semanticSearchWithContext (queryText : string) (k hops : Num)
  : M (list Row) :=
  ready <- isEmbedderReady ;;
  if negb ready then throw (Js.Thrown notInitialized)
  else
    queryEmbedding <- withEmbedder (Embedder.embedText model queryText) ;;
    let queryVec := Embedder.embeddingToArray queryEmbedding in
    query (semanticSearchWithContextQuery (vectorLiteral queryVec) k hops).

End WithCollaborators.

End EmbeddingPipeline.


(** ** Vocabulary of the row-mapping property *)

Module RowAccess.

(** A value that is neither [null] nor [undefined]. *)
Definition present {Num} (v : Js.Val Num) : bool :=
  match v with
  | Js.Undefined | Js.Null => false
  | _ => true
  end.

(** Field access falling back to positional access: the named property
    when it is present, otherwise the element at the given index. *)
Definition namedOrPositional {Num} (row : gmap string (Js.Val Num))
    (name index : string) : Js.Val Num :=
  if present (Js.get row name) then Js.get row name else Js.get row index.

End RowAccess.

(** ** The storage sink

    [executeQuery] belongs to the storage collaborator. What follows is a
    model of that collaborator for the table layout of the schema module
    and for the one statement form the indexer's write path produces,
    [MATCH (v:Table {id: '...'}) SET v.field = value ...]; comments and
    several [SET] clauses are read as the query language defines them, and
    every other text is refused. *)

Module Sink.

(** A row of the node table, column by column as in [NODE_SCHEMA]. *)
Record NodeRow := {
  id : string;
  label : string;
  name : string;
  filePath : string;
  startLine : Z;
  endLine : Z;
  content : string;
  embedding : option (list string);
}.

(** A row of the relation table, as in [EDGE_SCHEMA]. *)
Record EdgeRow := {
  from : string;
  to : string;
  type : string;
}.

Record DB := {
  nodes : list NodeRow;
  edges : list EdgeRow;
}.

Definition NODE_TABLE_NAME : string := "CodeNode".
Definition EDGE_TABLE_NAME : string := "CodeRelation".

Inductive ColumnType := STRING | INT64 | FLOAT_ARRAY (n : nat).

(** The columns of [NODE_SCHEMA]; [id] is the primary key. *)
Definition NODE_SCHEMA : list (string * ColumnType) :=
  [("id", STRING); ("label", STRING); ("name", STRING); ("filePath", STRING);
   ("startLine", INT64); ("endLine", INT64); ("content", STRING);
   ("embedding", FLOAT_ARRAY 384)].

(** The column of [EDGE_SCHEMA], besides the two endpoints in the node
    table. *)
Definition EDGE_SCHEMA : list (string * ColumnType) := [("type", STRING)].

(** *** Reading a statement *)

Inductive Token :=
| TWord (s : string)      (* keyword or identifier *)
| TString (s : string)    (* '...' *)
| TNumber (s : string)
| TList (s : string)      (* [...] with its raw content *)
| TSym (c : ascii).

Inductive Mode :=
| Between
| Word (acc : string)
| Numeral (acc : string)
| Quoted (acc : string)
| Escaped (acc : string)
| Bracket (acc : string)
| Slash
| Comment.

Definition snoc (acc : string) (c : ascii) : string := acc +:+ String c "".

Definition inRange (lo hi : nat) (c : ascii) : bool :=
  (lo <=? nat_of_ascii c) && (nat_of_ascii c <=? hi).

Definition isDigit (c : ascii) : bool := inRange 48 57 c.
Definition isLetter (c : ascii) : bool :=
  inRange 65 90 c || inRange 97 122 c || Ascii.eqb c "_".
Definition isSpace (c : ascii) : bool :=
  Ascii.eqb c " " || inRange 9 13 c.
Definition isNewline (c : ascii) : bool := Ascii.eqb c (ascii_of_nat 10).

(** The first character of a token. *)
Definition start (c : ascii) : list Token * Mode :=
  if isSpace c then ([], Between)
  else if isLetter c then ([], Word (String c ""))
  else if isDigit c || Ascii.eqb c "-" then ([], Numeral (String c ""))
  else if Ascii.eqb c "'" then ([], Quoted "")
  else if Ascii.eqb c "[" then ([], Bracket "")
  else if Ascii.eqb c "/" then ([], Slash)
  else ([TSym c], Between).

Definition scan (m : Mode) (c : ascii) : list Token * Mode :=
  match m with
  | Between => start c
  | Word acc =>
    if isLetter c || isDigit c then ([], Word (snoc acc c))
    else (TWord acc :: fst (start c), snd (start c))
  | Numeral acc =>
    if isDigit c || Ascii.eqb c "." || Ascii.eqb c "e" || Ascii.eqb c "E"
       || Ascii.eqb c "-" || Ascii.eqb c "+"
    then ([], Numeral (snoc acc c))
    else (TNumber acc :: fst (start c), snd (start c))
  | Quoted acc =>
    if Ascii.eqb c "'" then ([TString acc], Between)
    else if Ascii.eqb c "\" then ([], Escaped acc)
    else ([], Quoted (snoc acc c))
  | Escaped acc => ([], Quoted (snoc acc c))
  | Bracket acc =>
    if Ascii.eqb c "]" then ([TList acc], Between)
    else ([], Bracket (snoc acc c))
  | Slash =>
    if Ascii.eqb c "/" then ([], Comment)
    else (TSym "/" :: fst (start c), snd (start c))
  | Comment =>
    if isNewline c then ([], Between) else ([], Comment)
  end.

(** At the end of the text; an open string or list is an error. *)
Definition finish (m : Mode) : option (list Token) :=
  match m with
  | Between | Comment => Some []
  | Word acc => Some [TWord acc]
  | Numeral acc => Some [TNumber acc]
  | Slash => Some [TSym "/"]
  | Quoted _ | Escaped _ | Bracket _ => None
  end.

Fixpoint lexFrom (m : Mode) (text : string) : option (list Token) :=
  match text with
  | EmptyString => finish m
  | String c rest =>
    match lexFrom (snd (scan m c)) rest with
    | Some ts => Some (fst (scan m c) ++ ts)
    | None => None
    end
  end.

Definition lex (text : string) : option (list Token) := lexFrom Between text.

Inductive Value :=
| VString (s : string)
| VNumber (s : string)
| VCast (elements : string) (dimension : string).

(** [MATCH (var:table {id: key}) SET var.field = value ...] *)
Record Statement := {
  st_var : string;
  st_table : string;
  st_key : string;
  st_sets : list (string * string * Value);
}.

Fixpoint parseSets (ts : list Token) : option (list (string * string * Value)) :=
  match ts with
  | [] => Some []
  | TWord "SET" :: TWord v :: TSym "." :: TWord f :: TSym "=" :: TString s :: rest =>
    match parseSets rest with
    | Some sets => Some ((v, f, VString s) :: sets)
    | None => None
    end
  | TWord "SET" :: TWord v :: TSym "." :: TWord f :: TSym "=" :: TNumber n :: rest =>
    match parseSets rest with
    | Some sets => Some ((v, f, VNumber n) :: sets)
    | None => None
    end
  | TWord "SET" :: TWord v :: TSym "." :: TWord f :: TSym "="
      :: TWord "CAST" :: TSym "(" :: TList elements :: TWord "AS"
      :: TWord "FLOAT" :: TList dimension :: TSym ")" :: rest =>
    match parseSets rest with
    | Some sets => Some ((v, f, VCast elements dimension) :: sets)
    | None => None
    end
  | _ => None
  end.

Definition parse (ts : list Token) : option Statement :=
  match ts with
  | TWord "MATCH" :: TSym "(" :: TWord v :: TSym ":" :: TWord table
      :: TSym "{" :: TWord "id" :: TSym ":" :: TString key :: TSym "}"
      :: TSym ")" :: rest =>
    match parseSets rest with
    | Some (set1 :: sets) =>
      Some {| st_var := v; st_table := table; st_key := key;
              st_sets := set1 :: sets |}
    | _ => None
    end
  | _ => None
  end.

(** *** Carrying a statement out *)

(** Splits the content of a list literal at its commas. *)
Fixpoint splitCommas (acc : string) (s : string) : list string :=
  match s with
  | EmptyString => [acc]
  | String c rest =>
    if Ascii.eqb c "," then acc :: splitCommas "" rest
    else splitCommas (snoc acc c) rest
  end.

Definition elementsOf (s : string) : list string :=
  match s with
  | EmptyString => []
  | _ => splitCommas "" s
  end.

(** Decimal digits to a number. *)
Fixpoint digitsFrom (acc : nat) (s : string) : option nat :=
  match s with
  | EmptyString => Some acc
  | String c rest =>
    if isDigit c then digitsFrom (10 * acc + (nat_of_ascii c - 48)) rest
    else None
  end.

Definition natOfDigits (s : string) : option nat :=
  match s with
  | EmptyString => None
  | _ => digitsFrom 0 s
  end.

Definition intOfDigits (s : string) : option Z :=
  match s with
  | String "-" rest => option_map (fun n => (- Z.of_nat n)%Z) (natOfDigits rest)
  | _ => option_map Z.of_nat (natOfDigits s)
  end.

Definition columnType (field : string) : option ColumnType :=
  snd <$> List.find (fun col => String.eqb (fst col) field) NODE_SCHEMA.

Definition setString (field s : string) (r : NodeRow) : NodeRow :=
  {| id := id r;
     label := if String.eqb field "label" then s else label r;
     name := if String.eqb field "name" then s else name r;
     filePath := if String.eqb field "filePath" then s else filePath r;
     startLine := startLine r; endLine := endLine r;
     content := if String.eqb field "content" then s else content r;
     embedding := embedding r |}.

Definition setInt (field : string) (z : Z) (r : NodeRow) : NodeRow :=
  {| id := id r; label := label r; name := name r; filePath := filePath r;
     startLine := if String.eqb field "startLine" then z else startLine r;
     endLine := if String.eqb field "endLine" then z else endLine r;
     content := content r; embedding := embedding r |}.

Definition setEmbedding (v : list string) (r : NodeRow) : NodeRow :=
  {| id := id r; label := label r; name := name r; filePath := filePath r;
     startLine := startLine r; endLine := endLine r;
     content := content r; embedding := Some v |}.

(** Binds one assignment to its column; [None] when the column does not
    exist, is the primary key, or does not take the value. *)
Definition setter (field : string) (v : Value) : option (NodeRow -> NodeRow) :=
  if String.eqb field "id" then None
  else
    match columnType field, v with
    | Some STRING, VString s => Some (setString field s)
    | Some INT64, VNumber n =>
      option_map (setInt field) (intOfDigits n)
    | Some (FLOAT_ARRAY n), VCast elements dimension =>
      if bool_decide (natOfDigits dimension = Some n)
         && Nat.eqb (length (elementsOf elements)) n
      then Some (setEmbedding (elementsOf elements))
      else None
    | _, _ => None
    end.

Fixpoint bindSets (var : string) (sets : list (string * string * Value))
  : option (list (NodeRow -> NodeRow)) :=
  match sets with
  | [] => Some []
  | (v, field, value) :: sets' =>
    if String.eqb v var then
      match setter field value, bindSets var sets' with
      | Some f, Some fs => Some (f :: fs)
      | _, _ => None
      end
    else None
  end.

Definition applyAll (fs : list (NodeRow -> NodeRow)) (r : NodeRow) : NodeRow :=
  fold_left (fun r f => f r) fs r.

(** The rows whose [id] is the key are rewritten, the others kept. *)
Definition run (st : Statement) (db : DB) : option DB :=
  if String.eqb (st_table st) NODE_TABLE_NAME then
    match bindSets (st_var st) (st_sets st) with
    | Some fs =>
      Some {| nodes := List.map (fun r => if String.eqb (id r) (st_key st)
                                          then applyAll fs r else r) (nodes db);
              edges := edges db |}
    | None => None
    end
  else None.

(** [executeQuery(cypher)] of the sink. A write returns no rows. *)
Definition executeQuery {Num : Type} (cypher : string) (db : DB)
  : Js.Settle (list (gmap string (Js.Val Num))) * DB :=
  match lex cypher with
  | None => (Js.Reject true "Parser exception", db)
  | Some ts =>
    match parse ts with
    | None => (Js.Reject true "Parser exception", db)
    | Some st =>
      match run st db with
      | None => (Js.Reject true "Binder exception", db)
      | Some db' => (Js.Fulfil [], db')
      end
    end
  end.

(** *** Vocabulary of the frame property *)

(** A row without its [embedding] column. *)
Definition frame (r : NodeRow) : NodeRow :=
  {| id := id r; label := label r; name := name r; filePath := filePath r;
     startLine := startLine r; endLine := endLine r; content := content r;
     embedding := None |}.

(** [db'] differs from [db] at most in the [embedding] column of the rows
    whose id is [nodeId]. *)
Definition onlyEmbeddingOf (nodeId : string) (db db' : DB) : Prop :=
  edges db' = edges db /\
  List.map frame (nodes db') = List.map frame (nodes db) /\
  Forall2 (fun r r' => id r <> nodeId -> r' = r) (nodes db) (nodes db').

(** Texts in which a character does not occur. *)
Fixpoint without (c : ascii) (s : string) : bool :=
  match s with
  | EmptyString => true
  | String c' rest => negb (Ascii.eqb c' c) && without c rest
  end.

(** The comma-separated rendering of a vector, as [join] builds it. *)
Definition embeddingText {Num} (numToString : Num -> string)
    (embedding : list Num) : string :=
  Js.join "," (List.map numToString embedding).

(** An update whose id holds neither a quote nor a backslash and whose
    numbers render without a closing bracket. *)
Definition plain {Num} (numToString : Num -> string)
    (update : string * list Num) : Prop :=
  without "'" (fst update) = true /\ without "\" (fst update) = true /\
  Forall (fun x => without "]" (numToString x) = true) (snd update).

End Sink.

(** ** The ingestion core

    The sources at hand hold the embedding subsystem and the schema; the
    ingestion pipeline itself (AST cache, symbol table, import and call
    resolution, orchestration) is described by the specification. The
    modules below follow its sections 3 and 4. *)

(** *** AST cache (specification 4.3) *)

Module ASTCache.

Section WithTree.

(** The tree handle: an opaque resource owned from outside. *)
Context {Tree : Type}.

(** What the cache does to handles, in order. *)
Inductive Event :=
| Released (t : Tree)
| Stored (path : string) (t : Tree).

(** Modelled from the spec: the AST cache, whose code is not among the
    sources. An entry is [filePath -> {tree handle, recency marker}]; the
    marker is the number of the operation that accessed the entry last. *)
Record Cache := {
  capacity : nat;
  clock : nat;
  entries : gmap string (Tree * nat);
  events : list Event;
}.

Definition empty (C : nat) : Cache :=
  {| capacity := C; clock := 0; entries := ∅; events := [] |}.

Definition stamp (e : string * (Tree * nat)) : nat := snd (snd e).

(** Modelled from the spec: the least-recently-accessed entry of the AST
    cache, the one with the least recency marker. *)
Fixpoint oldest (l : list (string * (Tree * nat))) : option (string * (Tree * nat)) :=
  match l with
  | [] => None
  | e :: l' =>
    match oldest l' with
    | None => Some e
    | Some m => if stamp e <=? stamp m then Some e else Some m
    end
  end.

Definition lru (c : Cache) : option (string * (Tree * nat)) :=
  oldest (map_to_list (entries c)).

(** Modelled from the spec: [evictLRU()] removes the least-recently-accessed
    entry and invokes its release. *)
Definition evictLRU (c : Cache) : Cache :=
  match lru c with
  | None => c
  | Some (q, (t, _)) =>
    {| capacity := capacity c; clock := clock c;
       entries := delete q (entries c);
       events := events c ++ [Released t] |}
  end.

(** Modelled from the spec: the admission of a new entry into the AST
    cache, as the most recently used one. *)
Definition store (path : string) (t : Tree) (c : Cache) : Cache :=
  {| capacity := capacity c; clock := S (clock c);
     entries := <[path := (t, clock c)]> (entries c);
     events := events c ++ [Stored path t] |}.

(** Modelled from the spec: [set(path, tree)]. Beyond capacity the
    least-recently-accessed entry is evicted and released before the new
    entry is stored. (Setting a path that is cached replaces its handle;
    the cache, which owns the old handle, releases it.) *)
Definition set (path : string) (t : Tree) (c : Cache) : Cache :=
  match entries c !! path with
  | Some (old, _) =>
    {| capacity := capacity c; clock := S (clock c);
       entries := <[path := (t, clock c)]> (entries c);
       events := events c ++ [Released old; Stored path t] |}
  | None =>
    store path t (if capacity c <=? size (entries c) then evictLRU c else c)
  end.

(** Modelled from the spec: [get(path)] returns the tree or a miss and
    promotes the entry to most-recently-used. *)
Definition get (path : string) (c : Cache) : option Tree * Cache :=
  match entries c !! path with
  | Some (t, _) =>
    (Some t,
     {| capacity := capacity c; clock := S (clock c);
        entries := <[path := (t, clock c)]> (entries c);
        events := events c |})
  | None =>
    (None,
     {| capacity := capacity c; clock := S (clock c);
        entries := entries c; events := events c |})
  end.

(** Modelled from the spec: [releaseAll()] releases every entry. *)
Definition releaseAll (c : Cache) : Cache :=
  {| capacity := capacity c; clock := clock c;
     entries := ∅;
     events := events c ++
               List.map (fun e => Released (fst (snd e))) (map_to_list (entries c)) |}.

(** Sequences of operations, for the statement of the cache's contract. *)
Inductive Op :=
| OpGet (path : string)
| OpSet (path : string) (t : Tree).

Definition opPath (op : Op) : string :=
  match op with
  | OpGet p => p
  | OpSet p _ => p
  end.

Definition apply (c : Cache) (op : Op) : Cache :=
  match op with
  | OpGet p => snd (get p c)
  | OpSet p t => set p t c
  end.

Definition applyAll (C : nat) (ops : list Op) : Cache :=
  fold_left apply ops (empty C).

(** The position, in a sequence given newest first, of the latest
    operation on [path]. *)
Fixpoint lastSeen (newestFirst : list Op) (path : string) : option nat :=
  match newestFirst with
  | [] => None
  | op :: older =>
    if String.eqb (opPath op) path then Some (length older)
    else lastSeen older path
  end.

(** When [path] was accessed last in [ops]. *)
Definition lastAccess (ops : list Op) (path : string) : option nat :=
  lastSeen (rev ops) path.

(** The clock counts the operations, and the marker of an entry is the
    position of the last operation on its path. *)
Definition tracked (ops : list Op) (c : Cache) : Prop :=
  clock c = length ops /\
  forall p t k, entries c !! p = Some (t, k) -> lastAccess ops p = Some k.

End WithTree.

Arguments Cache : clear implicits.
Arguments Event : clear implicits.
Arguments Op : clear implicits.

End ASTCache.

(** *** Symbol table (specification 4.4) *)

Module SymbolTable.

Record SymbolDefinition := {
  name : string;
  nodeId : string;
  filePath : string;
  kind : string;
}.

(** Modelled from the spec: the symbol table, whose code is not among the
    sources. A file-scoped index [filePath -> (symbolName -> nodeId)] and a
    global index [symbolName -> ordered list of SymbolDefinition]. *)
Record T := {
  fileIndex : gmap string (gmap string string);
  globalIndex : gmap string (list SymbolDefinition);
}.

Definition empty : T := {| fileIndex := ∅; globalIndex := ∅ |}.

(** Modelled from the spec: [register(filePath, name, nodeId, kind)]; the
    file-scoped entry is last-write-wins, the global list is append-only. *)
Definition register (file symbol node knd : string) (st : T) : T :=
  {| fileIndex :=
       <[file := <[symbol := node]> (default ∅ (fileIndex st !! file))]> (fileIndex st);
     globalIndex :=
       <[symbol := default [] (globalIndex st !! symbol) ++
                   [{| name := symbol; nodeId := node; filePath := file;
                       kind := knd |}]]> (globalIndex st) |}.

(** Modelled from the spec: [lookupLocal(filePath, name)], exact match or
    miss. *)
Definition lookupLocal (st : T) (file symbol : string) : option string :=
  match fileIndex st !! file with
  | Some scope => scope !! symbol
  | None => None
  end.

(** Modelled from the spec: [lookupGlobal(name)], an ordered list,
    possibly empty. *)
Definition lookupGlobal (st : T) (symbol : string) : list SymbolDefinition :=
  default [] (globalIndex st !! symbol).

End SymbolTable.

(** *** Call resolution (specification 4.6) *)

Module CallResolver.

Inductive Tier := ImportMapTier | LocalScopeTier | GlobalFallbackTier.

(** The per-file import maps: [file -> (alias -> target file)]. *)
Abbreviation ImportMaps := (gmap string (gmap string string)).

(** Modelled from the spec: tier 1 of the call resolver. The callee is an
    alias of the enclosing file's import map and the target file declares
    it. *)
Definition viaImportMap (st : SymbolTable.T) (imports : ImportMaps)
    (calleeName enclosingFile : string) : option string :=
  match imports !! enclosingFile with
  | Some aliases =>
    match aliases !! calleeName with
    | Some targetFile => SymbolTable.lookupLocal st targetFile calleeName
    | None => None
    end
  | None => None
  end.

(** Modelled from the spec: tier 2 of the call resolver, the enclosing
    file's own scope. *)
Definition viaLocalScope (st : SymbolTable.T)
    (calleeName enclosingFile : string) : option string :=
  SymbolTable.lookupLocal st enclosingFile calleeName.

(** Modelled from the spec: tier 3 of the call resolver, the
    earliest-registered definition of that name. *)
Definition viaGlobal (st : SymbolTable.T) (calleeName : string) : option string :=
  match SymbolTable.lookupGlobal st calleeName with
  | d :: _ => Some (SymbolTable.nodeId d)
  | [] => None
  end.

(** Modelled from the spec: the call resolver, whose code is not among the
    sources. The tiers are tried in the fixed order import map, local
    scope, global fallback; the first match wins, no match drops the
    call. *)
Definition resolve (st : SymbolTable.T) (imports : ImportMaps)
    (calleeName enclosingFile : string) : option (Tier * string) :=
  match viaImportMap st imports calleeName enclosingFile with
  | Some node => Some (ImportMapTier, node)
  | None =>
    match viaLocalScope st calleeName enclosingFile with
    | Some node => Some (LocalScopeTier, node)
    | None =>
      match viaGlobal st calleeName with
      | Some node => Some (GlobalFallbackTier, node)
      | None => None
      end
    end
  end.

End CallResolver.

(** *** Data model and pipeline (specification 3, 4.1, 4.2, 4.5, 4.7) *)

Module Ingestion.

Inductive Label := Folder | File | Function | Class | Interface | Method.

Record CodeNode := {
  id : string;
  label : Label;
  name : string;
  filePath : string;
  startLine : nat;
  endLine : nat;
  content : string;
}.

Inductive RelationType := CONTAINS | DEFINES | IMPORTS | CALLS.

Record CodeRelation := {
  from : string;
  to : string;
  type : RelationType;
}.

(** The run's output in the order of creation. *)
Inductive Created :=
| NodeCreated (n : CodeNode)
| EdgeCreated (e : CodeRelation).

Fixpoint nodesOf (log : list Created) : list CodeNode :=
  match log with
  | [] => []
  | NodeCreated n :: rest => n :: nodesOf rest
  | EdgeCreated _ :: rest => nodesOf rest
  end.

Fixpoint edgesOf (log : list Created) : list CodeRelation :=
  match log with
  | [] => []
  | NodeCreated _ :: rest => edgesOf rest
  | EdgeCreated e :: rest => e :: edgesOf rest
  end.

Definition nodeIds (log : list Created) : list string :=
  List.map id (nodesOf log).

(** End-of-run summary (specification 7). *)
Record Summary := {
  filesProcessed : nat;
  filesSkipped : nat;
  importsUnresolved : nat;
  callsUnresolved : nat;
}.

(** The state the phases share, apart from the AST cache: what has been
    created, the StructureBuilder's memo from path prefix to node, the
    symbol table, the import maps and the counters. *)
Record Graph := {
  created : list Created;
  nodeOf : gmap string string;
  symbols : SymbolTable.T;
  importMaps : gmap string (gmap string string);
  summary : Summary;
}.

Definition emptyGraph : Graph :=
  {| created := []; nodeOf := ∅; symbols := SymbolTable.empty;
     importMaps := ∅;
     summary := {| filesProcessed := 0; filesSkipped := 0;
                   importsUnresolved := 0; callsUnresolved := 0 |} |}.

Definition addNode (n : CodeNode) (g : Graph) : Graph :=
  {| created := created g ++ [NodeCreated n]; nodeOf := nodeOf g;
     symbols := symbols g; importMaps := importMaps g; summary := summary g |}.

Definition addEdge (e : CodeRelation) (g : Graph) : Graph :=
  {| created := created g ++ [EdgeCreated e]; nodeOf := nodeOf g;
     symbols := symbols g; importMaps := importMaps g; summary := summary g |}.

Definition remember (prefix node : string) (g : Graph) : Graph :=
  {| created := created g; nodeOf := <[prefix := node]> (nodeOf g);
     symbols := symbols g; importMaps := importMaps g; summary := summary g |}.

Definition count (f : Summary -> Summary) (g : Graph) : Graph :=
  {| created := created g; nodeOf := nodeOf g;
     symbols := symbols g; importMaps := importMaps g; summary := f (summary g) |}.

Definition processed (s : Summary) : Summary :=
  {| filesProcessed := S (filesProcessed s); filesSkipped := filesSkipped s;
     importsUnresolved := importsUnresolved s; callsUnresolved := callsUnresolved s |}.
Definition skipped (s : Summary) : Summary :=
  {| filesProcessed := filesProcessed s; filesSkipped := S (filesSkipped s);
     importsUnresolved := importsUnresolved s; callsUnresolved := callsUnresolved s |}.
Definition importUnresolved (s : Summary) : Summary :=
  {| filesProcessed := filesProcessed s; filesSkipped := filesSkipped s;
     importsUnresolved := S (importsUnresolved s); callsUnresolved := callsUnresolved s |}.
Definition callUnresolved (s : Summary) : Summary :=
  {| filesProcessed := filesProcessed s; filesSkipped := filesSkipped s;
     importsUnresolved := importsUnresolved s; callsUnresolved := S (callsUnresolved s) |}.

(** The Extractor's output: the ordered paths and the mapping from path to
    content. *)
Record Snapshot := {
  paths : list string;
  contents : gmap string string;
}.

Definition textOf (snap : Snapshot) (path : string) : string :=
  default "" (contents snap !! path).

(** A declaration found in a tree by the language-specific extraction. *)
Record Declaration := {
  d_label : Label;
  d_name : string;
  d_startLine : nat;
  d_endLine : nat;
  d_content : string;
}.

Definition kindOf (l : Label) : string :=
  match l with
  | Folder => "Folder" | File => "File" | Function => "Function"
  | Class => "Class" | Interface => "Interface" | Method => "Method"
  end.

(** Splits a path into its segments. *)
Fixpoint segmentsFrom (acc : string) (path : string) : list string :=
  match path with
  | EmptyString => [acc]
  | String c rest =>
    if Ascii.eqb c "/" then acc :: segmentsFrom "" rest
    else segmentsFrom (acc +:+ String c "") rest
  end.

Definition segments (path : string) : list string := segmentsFrom "" path.

Section WithCapabilities.

(** The capabilities the core takes from outside: the archive reader, the
    derivation of ids, the parser and the language-specific extraction of
    declarations, imports and calls. *)
Context {Archive Tree : Type}.
Variable extract : Archive -> option Snapshot.
Variable deriveId : Label -> string -> string -> string.
Variable parse : string -> string -> option Tree.
Variable declarationsOf : Tree -> list Declaration.
Variable importsOf : Tree -> list (string * string).
Variable callsOf : Tree -> list string.
Variable extensions : list string.

(** Modelled from the spec: the StructureBuilder (4.2), whose code is not
    among the sources. Walks the chain of segments below [parent]; an
    unseen prefix gets a node (a File for the last segment, a Folder
    otherwise) and a CONTAINS edge from its parent, a seen one is
    reused. *)
Fixpoint walk (parent prefix : string) (segs : list string) (g : Graph) : Graph :=
  match segs with
  | [] => g
  | seg :: rest =>
    let here := match prefix with
                | EmptyString => seg
                | _ => prefix +:+ "/" +:+ seg
                end in
    match nodeOf g !! here with
    | Some node => walk node here rest g
    | None =>
      let lbl := match rest with [] => File | _ => Folder end in
      let node := deriveId lbl here seg in
      let g1 := addNode {| id := node; label := lbl; name := seg;
                           filePath := here; startLine := 0; endLine := 0;
                           content := "" |} g in
      let g2 := addEdge {| from := parent; to := node; type := CONTAINS |} g1 in
      walk node here rest (remember here node g2)
    end
  end.

(** Modelled from the spec: the root folder of the StructureBuilder's
    tree, whose prefix is the empty string. *)
Definition withRoot (g : Graph) : string * Graph :=
  match nodeOf g !! "" with
  | Some root => (root, g)
  | None =>
    let root := deriveId Folder "" "" in
    (root,
     remember "" root
       (addNode {| id := root; label := Folder; name := ""; filePath := "";
                   startLine := 0; endLine := 0; content := "" |} g))
  end.

Definition structurePath (g : Graph) (path : string) : Graph :=
  let '(root, g1) := withRoot g in
  walk root "" (segments path) g1.

Definition structurePhase (snap : Snapshot) (g : Graph) : Graph :=
  fold_left structurePath (paths snap) g.

(** Modelled from the spec: one declaration during Parse (3, 4.4): the
    node, its DEFINES edge, and right after it the symbol-table entry. *)
Definition declare (path fileNode : string) (g : Graph) (d : Declaration) : Graph :=
  let node := deriveId (d_label d) path (d_name d) in
  let g1 := addNode {| id := node; label := d_label d; name := d_name d;
                       filePath := path; startLine := d_startLine d;
                       endLine := d_endLine d; content := d_content d |} g in
  let g2 := addEdge {| from := fileNode; to := node; type := DEFINES |} g1 in
  {| created := created g2; nodeOf := nodeOf g2;
     symbols := SymbolTable.register path (d_name d) node (kindOf (d_label d))
                  (symbols g2);
     importMaps := importMaps g2; summary := summary g2 |}.

(** Modelled from the spec: Parse of one file. A file that does not parse
    is skipped and counted. *)
Definition parseFile (snap : Snapshot) (s : Graph * ASTCache.Cache Tree) (path : string)
  : Graph * ASTCache.Cache Tree :=
  let '(g, cache) := s in
  match parse path (textOf snap path) with
  | Some tree =>
    match nodeOf g !! path with
    | Some fileNode =>
      (count processed (fold_left (declare path fileNode) (declarationsOf tree) g),
       ASTCache.set path tree cache)
    | None => (count skipped g, ASTCache.set path tree cache)
    end
  | None => (count skipped g, cache)
  end.

(** Modelled from the spec: how the Imports and Calls phases get the tree
    of a file: the cached one, or a fresh parse that is then cached. *)
Definition treeOf (snap : Snapshot) (path : string) (cache : ASTCache.Cache Tree)
  : option Tree * ASTCache.Cache Tree :=
  match ASTCache.get path cache with
  | (Some tree, cache') => (Some tree, cache')
  | (None, cache') =>
    match parse path (textOf snap path) with
    | Some tree => (Some tree, ASTCache.set path tree cache')
    | None => (None, cache')
    end
  end.

(** Modelled from the spec: the fixed, ordered candidate list of the
    ImportResolver (4.5). *)
Definition candidates (specifier : string) : list string :=
  specifier
  :: List.map (fun ext => specifier +:+ ext) extensions
  ++ List.map (fun ext => specifier +:+ "/index" +:+ ext) extensions.

(** Modelled from the spec: the ImportResolver's choice, the first
    candidate that exists in the path set. *)
Definition resolveSpecifier (snap : Snapshot) (specifier : string) : option string :=
  List.find (fun c => bool_decide (c ∈ paths snap)) (candidates specifier).

Definition bindAlias (file alias target : string) (g : Graph) : Graph :=
  {| created := created g; nodeOf := nodeOf g; symbols := symbols g;
     importMaps := <[file := <[alias := target]> (default ∅ (importMaps g !! file))]>
                     (importMaps g);
     summary := summary g |}.

(** Modelled from the spec: one import specifier. Resolved, it yields one
    IMPORTS edge and one import-map entry; unresolved, a warning. *)
Definition importOne (snap : Snapshot) (file fileNode : string) (g : Graph)
    (imp : string * string) : Graph :=
  let '(specifier, alias) := imp in
  match resolveSpecifier snap specifier with
  | Some target =>
    match nodeOf g !! target with
    | Some targetNode =>
      bindAlias file alias target
        (addEdge {| from := fileNode; to := targetNode; type := IMPORTS |} g)
    | None => count importUnresolved g
    end
  | None => count importUnresolved g
  end.

(** Modelled from the spec: one call expression (4.6). A match yields one
    CALLS edge from the calling file, no match is counted and dropped. *)
Definition callOne (file fileNode : string) (g : Graph) (calleeName : string) : Graph :=
  match CallResolver.resolve (symbols g) (importMaps g) calleeName file with
  | Some (_, target) =>
    addEdge {| from := fileNode; to := target; type := CALLS |} g
  | None => count callUnresolved g
  end.

(** Modelled from the spec: Imports or Calls on one file. The tree is
    fetched, then what the extraction finds in it is worked through; a
    file without a tree is left out. *)
Definition perFile {A} (items : Tree -> list A)
    (work : string -> string -> Graph -> A -> Graph)
    (snap : Snapshot) (s : Graph * ASTCache.Cache Tree) (path : string)
  : Graph * ASTCache.Cache Tree :=
  let '(g, cache) := s in
  match treeOf snap path cache with
  | (Some tree, cache') =>
    match nodeOf g !! path with
    | Some fileNode => (fold_left (work path fileNode) (items tree) g, cache')
    | None => (g, cache')
    end
  | (None, cache') => (g, cache')
  end.

Definition parsePhase (snap : Snapshot) (s : Graph * ASTCache.Cache Tree) :=
  fold_left (parseFile snap) (paths snap) s.

Definition importsPhase (snap : Snapshot) (s : Graph * ASTCache.Cache Tree) :=
  fold_left (perFile importsOf (importOne snap) snap) (paths snap) s.

Definition callsPhase (snap : Snapshot) (s : Graph * ASTCache.Cache Tree) :=
  fold_left (perFile callsOf callOne snap) (paths snap) s.

(** Modelled from the spec: the orchestrator (4.7), whose code is not among
    the sources. The phases run in the order Structure, Parse, Imports,
    Calls on the extracted snapshot with a fresh context; at the end the
    cache is released. [None] is the fatal extraction error. *)
Definition phases (C : nat) (snap : Snapshot) : Graph * ASTCache.Cache Tree :=
  let g1 := structurePhase snap emptyGraph in
  let s2 := parsePhase snap (g1, ASTCache.empty C) in
  let s3 := importsPhase snap s2 in
  let s4 := callsPhase snap s3 in
  (fst s4, ASTCache.releaseAll (snd s4)).

Definition runPipeline (C : nat) (archive : Archive)
  : option (Graph * ASTCache.Cache Tree) :=
  match extract archive with
  | None => None
  | Some snap => Some (phases C snap)
  end.

End WithCapabilities.

(** Every edge of the log has both endpoints among the nodes created
    before it. *)
Definition endpointsCreatedBefore (log : list Created) : Prop :=
  forall before e after,
    log = before ++ EdgeCreated e :: after ->
    from e ∈ nodeIds before /\ to e ∈ nodeIds before.

(** What the memo and the symbol table refer to has been created. *)
Definition grounded (g : Graph) : Prop :=
  endpointsCreatedBefore (created g) /\
  (forall prefix node, nodeOf g !! prefix = Some node -> node ∈ nodeIds (created g)) /\
  (forall file symbol node,
      SymbolTable.lookupLocal (symbols g) file symbol = Some node ->
      node ∈ nodeIds (created g)) /\
  (forall symbol d,
      d ∈ SymbolTable.lookupGlobal (symbols g) symbol ->
      SymbolTable.nodeId d ∈ nodeIds (created g)).

End Ingestion.

(** *** A small instance of the capabilities

    A two-file input in the style of the specification's end-to-end
    example: [a.ts] declares [foo], [b.ts] imports it and calls it. *)

Module Sample.

Import Ingestion.

Definition Tree : Type := list Declaration * list (string * string) * list string.

Definition deriveId (l : Label) (path name : string) : string :=
  kindOf l +:+ ":" +:+ path +:+ "#" +:+ name.

Definition sourceA : string := "export function foo() {}".
Definition sourceB : string := "import { foo } from 'a'; foo(); bar();".

Definition parse (path text : string) : option Tree :=
  if String.eqb text sourceA then
    Some ([{| d_label := Function; d_name := "foo"; d_startLine := 1;
              d_endLine := 1; d_content := sourceA |}], [], [])
  else if String.eqb text sourceB then
    Some ([], [("a", "foo")], ["foo"; "bar"])
  else None.

Definition declarationsOf (t : Tree) : list Declaration := fst (fst t).
Definition importsOf (t : Tree) : list (string * string) := snd (fst t).
Definition callsOf (t : Tree) : list string := snd t.
Definition extensions : list string := [".ts"; ".js"].

Definition snapshot : Snapshot :=
  {| paths := ["a.ts"; "b.ts"; "README.md"];
     contents := {[ "a.ts" := sourceA; "b.ts" := sourceB; "README.md" := "# readme" ]} |}.

Definition extract (archive : Snapshot) : option Snapshot := Some archive.

Definition run (C : nat) : option (Graph * ASTCache.Cache Tree) :=
  runPipeline extract deriveId parse declarationsOf importsOf callsOf extensions
    C snapshot.

End Sample.

(** ** Further vocabulary: traces of the embedder *)

Module EmbedderTraces.

Import Embedder.

(** How many [initEmbedder] calls a trace holds. *)
Fixpoint initCalls (tr : list Event) : nat :=
  match tr with
  | [] => 0
  | InitEmbedder _ :: tr' => S (initCalls tr')
  | _ :: tr' => initCalls tr'
  end.

(** Every [initEmbedder] call of the trace asks for the wasm device. *)
Definition wasmOnly (tr : list Event) : Prop :=
  Forall (fun ev => match ev with
                    | InitEmbedder webgpu => False
                    | _ => True
                    end) tr.

(** The devices the suspended initialisations may still try. *)
Definition pendingDevices (ts : list Task) : nat :=
  list_sum (List.map (fun t => length (tremaining t)) ts).

(** Promise ids of suspended initialisations are distinct and below the
    next id to be handed out; together with the loads made they account
    for at most two devices per call. *)
Definition accounted (n : nat) (s : State) : Prop :=
  NoDup (List.map tpromise (tasks s)) /\
  Forall (fun t => tpromise t < nextPromise s) (tasks s) /\
  length (loads s) + pendingDevices (tasks s) <= 2 * n.

End EmbedderTraces.

(** ** Further vocabulary: runs of the embedding pipeline *)

Module EmbeddingRun.

Import EmbeddingPipeline.

(** Batch number [j] of a list cut into batches of [batchSize]: the
    elements from [j * batchSize] up to, but not including,
    [min (j * batchSize + batchSize) (length l)]. *)
Definition chunk {A} (l : list A) (batchSize j : nat) : list A :=
  Js.slice l (j * batchSize) (Nat.min (j * batchSize + batchSize) (length l)).

(** [Math.ceil(total / batchSize)] for a positive [batchSize]. *)
Definition batchCount (total batchSize : nat) : nat :=
  (total + batchSize - 1) / batchSize.

(** The batches of a run over [l], in order. *)
Definition batches {A} (l : list A) (batchSize : nat) : list (list A) :=
  List.map (chunk l batchSize) (seq 0 (batchCount (length l) batchSize)).

(** The vectors [embedBatch] returns for a batch when the model answers
    the texts of the batch with the flat tensor [tensor texts]. *)
Definition vectorsOf {Num} (tensor : list string -> list Num)
    (generateBatchEmbeddingTexts : list (EmbeddableNode Num) -> list string)
    (batch : list (EmbeddableNode Num)) : list (list Num) :=
  Embedder.splitRows (tensor (generateBatchEmbeddingTexts batch))
    (length (generateBatchEmbeddingTexts batch)).

(** The statement that stores vector [e] for [node]. *)
Definition nodeUpdateText {Num} (numToString : Num -> string)
    (node : EmbeddableNode Num) (e : list Num) : string :=
  updateNodeEmbeddingQuery numToString (Js.toString numToString (en_id node)) e.

(** The report of the [catch] block of [runEmbeddingPipeline]. *)
Definition failureReport {Num} (ofZ : Z -> Num) (msg : string)
  : EmbeddingProgress Num :=
  {| phase := Failure; percent := ofZ 0%Z;
     modelDownloadPercent := None;
     nodesProcessed := None; totalNodes := None;
     currentBatch := None; totalBatches := None;
     error := Some msg |}.

(** The report made before the first batch. *)
Definition embeddingStart {Num} (ofZ : Z -> Num) (total totalB : nat)
  : EmbeddingProgress Num :=
  {| phase := Embedding; percent := ofZ 20%Z;
     modelDownloadPercent := None;
     nodesProcessed := Some 0; totalNodes := Some total;
     currentBatch := Some 0; totalBatches := Some totalB;
     error := None |}.

(** From [w] to [w'] the reports made all satisfy [Qr] and the texts
    handed to [executeQuery] all satisfy [Qi]. *)
Definition extends {Num D} (Qr : EmbeddingProgress Num -> Prop)
    (Qi : string -> Prop) (w w' : World Num D) : Prop :=
  (exists rs, reported w' = reported w ++ rs /\ Forall Qr rs) /\
  (exists qs, issued w' = issued w ++ qs /\ Forall Qi qs).

(** The database after the sink has answered the given texts in turn. *)
Definition databaseAfter {Num D}
    (executeQuery : string -> D -> Js.Settle (list (gmap string (Js.Val Num))) * D)
    (texts : list string) (d : D) : D :=
  fold_left (fun d text => snd (executeQuery text d)) texts d.

(** The sink fulfils every one of the texts when they are handed to it in
    turn, each against the database the one before left. *)
Fixpoint acceptedInTurn {Num D}
    (executeQuery : string -> D -> Js.Settle (list (gmap string (Js.Val Num))) * D)
    (texts : list string) (d : D) : bool :=
  match texts with
  | [] => true
  | text :: rest =>
    match executeQuery text d with
    | (Js.Fulfil _, d') => acceptedInTurn executeQuery rest d'
    | (Js.Reject _ _, _) => false
    end
  end.

End EmbeddingRun.

(** ** The install-time patch of the Swift grammar's build file *)

Module PatchSwift.

(** [content.replace(/#[^\n]*/g, '')]: matches are found from left to
    right; each starts at a [#] and runs up to, but not including, the
    next line feed or the end of the text, and is replaced by nothing.
    [inMatch] tells whether the scan is inside a match. *)
Fixpoint stripFrom (inMatch : bool) (content : string) : string :=
  match content with
  | EmptyString => EmptyString
  | String c rest =>
    if inMatch then
      if Ascii.eqb c (ascii_of_nat 10) then String c (stripFrom false rest)
      else stripFrom true rest
    else if Ascii.eqb c "#" then stripFrom true rest
    else String c (stripFrom false rest)
  end.

Definition stripComments (content : string) : string := stripFrom false content.

(** The lines of a text, cut at the line feeds. *)
Fixpoint linesFrom (acc : string) (s : string) : list string :=
  match s with
  | EmptyString => [acc]
  | String c rest =>
    if Ascii.eqb c (ascii_of_nat 10) then acc :: linesFrom EmptyString rest
    else linesFrom (acc +:+ String c EmptyString) rest
  end.

Definition lines (s : string) : list string := linesFrom EmptyString s.

(** The part of a line before its first [#]. *)
Fixpoint beforeHash (line : string) : string :=
  match line with
  | EmptyString => EmptyString
  | String c rest =>
    if Ascii.eqb c "#" then EmptyString else String c (beforeHash rest)
  end.

(** [content.includes(c)] for a single character. *)
Fixpoint includes (c : ascii) (s : string) : bool :=
  match s with
  | EmptyString => false
  | String c' rest => Ascii.eqb c' c || includes c rest
  end.

End PatchSwift.
(* ===================================================================== *)
(** * Part II: properties                                                 *)
(* ===================================================================== *)

(** ** The embedder singleton *)

Section EmbedderSingleton.

Import Embedder.

Implicit Types (s : State) (tr : list Event) (ev : Event).

Lemma run_cons s ev tr :
  run s (ev :: tr) =
  (fst (run (fst (step s ev)) tr),
   match snd (step s ev) with
   | Some x => x :: snd (run (fst (step s ev)) tr)
   | None => snd (run (fst (step s ev)) tr)
   end).
Proof.
  simpl. destruct (step s ev) as [s1 r]. simpl.
  destruct (run s1 tr) as [s2 rs]. reflexivity.
Qed.

Lemma run_app s tr1 tr2 :
  run s (tr1 ++ tr2) =
  (fst (run (fst (run s tr1)) tr2),
   snd (run s tr1) ++ snd (run (fst (run s tr1)) tr2)).
Proof.
  revert s. induction tr1 as [|ev tr1 IH]; intros s.
  - simpl. destruct (run s tr2). reflexivity.
  - rewrite <- app_comm_cons, !run_cons, IH. simpl.
    destruct (snd (step s ev)); reflexivity.
Qed.

Lemma quiet_step_calm s ev :
  quiet [ev] -> calm s -> calm (fst (step s ev)).
Proof.
  intros Hq Hc. apply Forall_inv in Hq. pose proof Hc as Hkeep.
  destruct Hc as [Hs Hc].
  destruct ev as [d | pr p | pr e | b | ]; simpl in Hq; try discriminate; simpl.
  - (* initEmbedder *)
    unfold initEmbedder.
    destruct (embedderInstance s) as [p|] eqn:He; [exact Hkeep|].
    destruct Hc as [[Ht Hi] | (t & Ht & Hn & Hi & Hp)].
    + rewrite Hi. simpl. split.
      * intros pr i Hf. simpl in Hf. apply Hs in Hf. congruence.
      * right. eexists. rewrite Ht. simpl. repeat split; eauto.
    + rewrite Hi, Hp. exact Hkeep.
  - (* the load fulfils *)
    unfold pipelineResolves, findTask.
    destruct Hc as [[Ht Hi] | (t & Ht & Hn & Hi & Hp)]; rewrite Ht; simpl;
      [exact Hkeep|].
    destruct (Nat.eqb_spec (tpromise t) pr) as [<- | Hne]; simpl; [|exact Hkeep].
    split.
    + intros pr' i Hf. simpl in Hf.
      destruct (decide (tpromise t = pr')) as [<- | Hd].
      * rewrite lookup_insert_eq in Hf. simpl. congruence.
      * rewrite lookup_insert_ne in Hf by assumption.
        apply Hs in Hf. congruence.
    + left. simpl. auto.
  - (* the load fails *)
    unfold pipelineRejects, findTask.
    destruct Hc as [[Ht Hi] | (t & Ht & Hn & Hi & Hp)]; rewrite Ht; simpl;
      [exact Hkeep|].
    destruct (Nat.eqb_spec (tpromise t) pr) as [<- | Hne]; simpl; [|exact Hkeep].
    destruct (tremaining t) as [|d ds] eqn:Hr.
    + rewrite Hn. split.
      * intros pr' i Hf. simpl in Hf.
        destruct (decide (tpromise t = pr')) as [<- | Hd].
        -- rewrite lookup_insert_eq in Hf. discriminate.
        -- rewrite lookup_insert_ne in Hf by assumption.
           apply Hs in Hf. congruence.
      * left. simpl. auto.
    + split; [exact Hs|]. right. simpl.
      eexists. repeat split; eauto.
Qed.

Lemma quiet_run_calm tr : forall s,
  quiet tr -> calm s -> calm (fst (run s tr)).
Proof.
  induction tr as [|ev tr IH]; intros s Hq Hc; [exact Hc|].
  rewrite run_cons. simpl. apply Forall_cons in Hq as [Hev Hq].
  apply IH; [assumption|]. apply quiet_step_calm; [|assumption].
  constructor; [assumption | constructor].
Qed.

Lemma calm_initial : calm initial.
Proof.
  split.
  - intros pr i Hf. simpl in Hf. rewrite lookup_empty in Hf. discriminate.
  - left. auto.
Qed.

(** Once an instance exists, no event other than a disposal changes the
    state, and every call gets the instance. *)
Lemma ready_step_fixed s ev i :
  quiet [ev] -> calm s -> embedderInstance s = Some i ->
  step s ev = (s, match ev with InitEmbedder _ => Some (RetInstance i) | _ => None end).
Proof.
  intros Hq [_ [[Ht Hi] | (t & Ht & Hn & _)]] He; [|congruence].
  apply Forall_inv in Hq.
  destruct ev as [d | pr p | pr e | b | ]; simpl in Hq; try discriminate; simpl.
  - unfold initEmbedder. rewrite He. reflexivity.
  - unfold pipelineResolves, findTask. rewrite Ht. reflexivity.
  - unfold pipelineRejects, findTask. rewrite Ht. reflexivity.
Qed.

Lemma ready_run_fixed tr : forall s i,
  quiet tr -> calm s -> embedderInstance s = Some i ->
  fst (run s tr) = s /\ Forall (eq (RetInstance i)) (snd (run s tr)).
Proof.
  induction tr as [|ev tr IH]; intros s i Hq Hc He.
  - simpl. split; [reflexivity | constructor].
  - apply Forall_cons in Hq as [Hev Hq].
    rewrite run_cons.
    rewrite (ready_step_fixed s ev i); [|constructor; [assumption|constructor]|assumption..].
    simpl. destruct (IH s i Hq Hc He) as [Hs Hr]. split; [assumption|].
    destruct ev; try assumption. constructor; [reflexivity | assumption].
Qed.

End EmbedderSingleton.

Section EmbedderClaims.

Import Embedder.

(** C7 (as amended). In a run in which [disposeEmbedder] takes no part:
    once an [initEmbedder] call has resolved with an instance, every later
    call returns that same instance and the module state, in particular the
    list of model loads, stays as it is; while an initialisation is in
    flight, a call returns the stored in-flight promise and starts no
    second load; and [isEmbedderReady] is true exactly when an instance
    exists. *)
Theorem initEmbedder_singleton_without_dispose (tr1 tr2 : list Event) :
  quiet tr1 -> quiet tr2 ->
  let s := fst (run initial tr1) in
  (forall i,
      (embedderInstance s = Some i \/
       exists pr, settled s !! pr = Some (Fulfilled i)) ->
      fst (run s tr2) = s /\
      loads (fst (run s tr2)) = loads s /\
      Forall (eq (RetInstance i)) (snd (run s tr2))) /\
  (forall t device,
      In t (tasks s) ->
      initPromise s = Some (tpromise t) /\
      initEmbedder device s = (s, RetPromise (tpromise t))) /\
  (isEmbedderReady s = true <-> exists i, embedderInstance s = Some i).
Proof.
  intros Hq1 Hq2 s.
  assert (Hc : calm s) by (apply quiet_run_calm; [assumption | apply calm_initial]).
  split; [|split].
  - intros i Hi.
    assert (He : embedderInstance s = Some i).
    { destruct Hi as [He | [pr Hpr]]; [assumption|].
      destruct Hc as [Hs _]. eapply Hs; eassumption. }
    destruct (ready_run_fixed tr2 s i Hq2 Hc He) as [Hfix Hrets].
    rewrite Hfix. auto.
  - intros t device Hin.
    destruct Hc as [_ [[Ht _] | (t' & Ht & Hn & Hi & Hp)]].
    + rewrite Ht in Hin. destruct Hin.
    + rewrite Ht in Hin. destruct Hin as [<- | []].
      split; [assumption|].
      unfold initEmbedder. rewrite Hn, Hi, Hp. reflexivity.
  - unfold isEmbedderReady. destruct (embedderInstance s) as [i|].
    + split; [eauto | reflexivity].
    + split; [discriminate | intros [i Hi]; discriminate].
Qed.

Lemma initEmbedder_singleton_without_dispose_witness :
  let tr1 := [InitEmbedder webgpu; PipelineRejects 0 "no adapter";
              InitEmbedder wasm; PipelineResolves 0 5] in
  let tr2 := [InitEmbedder wasm; PipelineRejects 0 "late"; InitEmbedder webgpu] in
  quiet tr1 /\ quiet tr2 /\
  snd (run (fst (run initial tr1)) tr2) = [RetInstance 5; RetInstance 5] /\
  loads (fst (run (fst (run initial tr1)) tr2)) = [webgpu; wasm].
Proof.
  intros tr1 tr2.
  assert (Hq1 : quiet tr1) by (repeat constructor).
  assert (Hq2 : quiet tr2) by (repeat constructor).
  split; [exact Hq1|]. split; [exact Hq2|].
  destruct (initEmbedder_singleton_without_dispose tr1 tr2 Hq1 Hq2) as [Hidem _].
  destruct (Hidem 5 (or_introl eq_refl)) as (_ & _ & _).
  split; reflexivity.
Defined.

(** C7, as stated, fails: after [initEmbedder] has resolved with instance
    7, a completed [disposeEmbedder] makes the next [initEmbedder] start a
    second load and return a new promise instead of that instance. *)
Lemma initEmbedder_reloads_after_dispose :
  ~ (forall (tr1 tr2 : list Event) (i : Pipeline),
        embedderInstance (fst (run initial tr1)) = Some i ->
        loads (fst (run (fst (run initial tr1)) tr2)) = loads (fst (run initial tr1)) /\
        Forall (eq (RetInstance i)) (snd (run (fst (run initial tr1)) tr2))).
Proof.
  intros H.
  destruct (H [InitEmbedder wasm; PipelineResolves 0 7]
              [DisposeEmbedder true; DisposeResumes; InitEmbedder wasm] 7 eq_refl)
    as [Hl _].
  vm_compute in Hl. discriminate Hl.
Qed.

Section Batch.

Context {F : Type}.
Variable model : Pipeline -> list string -> Js.Settle (list F).

Lemma slice_length (data : list F) (i : nat) :
  (i + 1) * dimensions <= length data ->
  length (Js.slice data (i * dimensions) (i * dimensions + dimensions)) = dimensions.
Proof.
  intros H. unfold Js.slice.
  rewrite length_take, length_drop. lia.
Qed.

Lemma embedLoop_rows (data : list F) (todo : nat) : forall i embeddings,
  embedLoop data todo i embeddings =
  embeddings ++
  List.map (fun j => Js.slice data (j * dimensions) (j * dimensions + dimensions))
           (seq i todo).
Proof.
  induction todo as [|todo IH]; intros i embeddings; simpl.
  - rewrite app_nil_r. reflexivity.
  - rewrite IH, <- app_assoc. reflexivity.
Qed.

Lemma splitRows_length (data : list F) (n : nat) :
  length (splitRows data n) = n.
Proof.
  unfold splitRows. rewrite embedLoop_rows. simpl.
  rewrite length_map, length_seq. reflexivity.
Qed.

Lemma splitRows_lookup (data : list F) (n i : nat) :
  i < n ->
  splitRows data n !! i =
  Some (Js.slice data (i * dimensions) ((i + 1) * dimensions)).
Proof.
  intros Hi. unfold splitRows. rewrite embedLoop_rows. simpl.
  rewrite list_lookup_fmap.
  rewrite lookup_seq_lt by assumption. simpl.
  replace ((i + 1) * dimensions) with (i * dimensions + dimensions) by lia.
  reflexivity.
Qed.

(** C8 (as amended). [embedBatch] on the empty list returns the empty list
    whatever the state of the embedder and without running the model. With
    an instance whose model run fulfils with the flat tensor [data],
    [embedBatch] on [n] texts returns [n] vectors, the [i]-th being the
    slice of [data] from [i*384] to [(i+1)*384]; when the tensor holds the
    [n*384] entries of the shape the code expects of it, each vector has
    exactly 384 entries, the size of the [FLOAT[384]] column. *)
Theorem embedBatch_rows_of_384 (texts : list string) (s : State) :
  embedBatch model [] s = (Js.Ok [], []) /\
  forall (p : Pipeline) (data : list F),
    embedderInstance s = Some p ->
    model p texts = Js.Fulfil data ->
    exists vectors,
      fst (embedBatch model texts s) = Js.Ok vectors /\
      length vectors = length texts /\
      (forall i, i < length texts ->
         vectors !! i = Some (Js.slice data (i * 384) ((i + 1) * 384))) /\
      (length texts * 384 <= length data ->
         Forall (fun v => length v = 384) vectors).
Proof.
  split; [reflexivity|].
  intros p data He Hm.
  destruct texts as [|t texts'] eqn:Ht.
  - exists []. simpl. repeat split; try constructor. intros i Hi. lia.
  - rewrite <- Ht in *. exists (splitRows data (length texts)).
    assert (Hres : fst (embedBatch model texts s) =
                   Js.Ok (splitRows data (length texts))).
    { unfold embedBatch, getEmbedder. rewrite He, Hm. rewrite Ht. reflexivity. }
    split; [exact Hres|]. split; [apply splitRows_length|]. split.
    + intros i Hi. exact (splitRows_lookup data (length texts) i Hi).
    + intros Hlen. apply Forall_forall. intros v Hv.
      apply list_elem_of_lookup in Hv as [i Hv].
      assert (Hi : i < length texts).
      { apply lookup_lt_Some in Hv. rewrite splitRows_length in Hv. exact Hv. }
      rewrite splitRows_lookup in Hv by assumption.
      injection Hv as <-.
      replace ((i + 1) * dimensions) with (i * dimensions + dimensions) by lia.
      apply slice_length. change dimensions with 384. nia.
Qed.

End Batch.

Lemma embedBatch_rows_of_384_witness :
  let model := fun (_ : Pipeline) (texts : list string) =>
                 Js.Fulfil (seq 0 (384 * length texts)) in
  let s := fst (run initial [InitEmbedder wasm; PipelineResolves 0 1]) in
  embedderInstance s = Some 1 /\
  embedBatch model [] initial = (Js.Ok [], []) /\
  exists vectors,
    fst (embedBatch model ["a"; "b"] s) = Js.Ok vectors /\
    length vectors = 2 /\
    Forall (fun v => length v = 384) vectors.
Proof.
  intros model s. split; [reflexivity|].
  split; [exact (proj1 (embedBatch_rows_of_384 model [] initial))|].
  destruct (embedBatch_rows_of_384 model ["a"; "b"] s) as (_ & Hrows).
  destruct (Hrows 1 (seq 0 768) eq_refl eq_refl)
    as (vectors & Hres & Hlen & _ & Hall).
  exists vectors. split; [exact Hres|]. split; [exact Hlen|].
  apply Hall. rewrite length_seq. simpl. lia.
Defined.

(** C8, as stated, fails: [embedBatch] cuts whatever the model returned
    and checks no length. With an instance whose model run fulfils with
    500 entries for three texts, the three vectors returned have 384, 116
    and 0 entries. *)
Lemma embedBatch_short_tensor_short_vectors :
  ~ (forall (model : Pipeline -> list string -> Js.Settle (list nat))
            (texts : list string) (s : State) (p : Pipeline) (data : list nat),
        embedderInstance s = Some p ->
        model p texts = Js.Fulfil data ->
        exists vectors,
          fst (embedBatch model texts s) = Js.Ok vectors /\
          length vectors = length texts /\
          Forall (fun v => length v = 384) vectors).
Proof.
  intros H.
  destruct (H (fun _ _ => Js.Fulfil (seq 0 500)) ["a"; "b"; "c"]
              (fst (run initial [InitEmbedder wasm; PipelineResolves 0 1]))
              1 (seq 0 500) eq_refl eq_refl)
    as (vectors & Hres & _ & Hall).
  vm_compute in Hres. injection Hres as <-.
  apply Forall_inv_tail, Forall_inv in Hall.
  vm_compute in Hall. discriminate Hall.
Qed.

End EmbedderClaims.

(** ** The embedding pipeline *)

Section PipelineClaims.

Import EmbeddingPipeline RowAccess.

Context {Num D : Type}.
Variable numToString : Num -> string.
Variable ofZ : Z -> Num.
Variable scaleDownload : Num -> Num.
Variable embeddingPercent : nat -> nat -> Num.
Variable executeQuery : string -> D -> Js.Settle (list (gmap string (Js.Val Num))) * D.
Variable model : Embedder.Pipeline -> list string -> Js.Settle (list Num).
Variable loadModel :
  Embedder.Device -> list (ModelProgress Num) * (Embedder.Pipeline + string).
Variable EMBEDDABLE_LABELS : list string.
Variable generateBatchEmbeddingTexts : list (EmbeddableNode Num) -> list string.

Implicit Types (row : gmap string (Js.Val Num)) (w : World Num D).

Lemma nullish_named_or_positional row name index :
  Js.nullish (Js.get row name) (Js.get row index) = namedOrPositional row name index.
Proof. unfold namedOrPositional. destruct (Js.get row name); reflexivity. Qed.

(** C2. Each field of the record built from a row is the row's named
    property when that is neither [null] nor [undefined], and the row's
    element at the field's fixed index otherwise; [content] is the empty
    string when both are absent. [queryEmbeddableNodes] and
    [semanticSearch] return exactly these records, one per row and in the
    order of the rows the query returned. *)
Theorem rows_read_by_name_then_position w :
  (forall row,
     let n := toEmbeddableNode row in
     en_id n = namedOrPositional row "id" "0" /\
     en_name n = namedOrPositional row "name" "1" /\
     en_label n = namedOrPositional row "label" "2" /\
     en_filePath n = namedOrPositional row "filePath" "3" /\
     en_content n =
       (if present (namedOrPositional row "content" "4")
        then namedOrPositional row "content" "4" else Js.Str "") /\
     en_startLine n = namedOrPositional row "startLine" "5" /\
     en_endLine n = namedOrPositional row "endLine" "6") /\
  (forall row,
     let r := toSearchResult row in
     sr_nodeId r = namedOrPositional row "nodeId" "0" /\
     sr_name r = namedOrPositional row "name" "1" /\
     sr_label r = namedOrPositional row "label" "2" /\
     sr_filePath r = namedOrPositional row "filePath" "3" /\
     sr_distance r = namedOrPositional row "distance" "4" /\
     sr_startLine r = namedOrPositional row "startLine" "5" /\
     sr_endLine r = namedOrPositional row "endLine" "6") /\
  (forall rows d,
     executeQuery (embeddableNodesQuery EMBEDDABLE_LABELS) (database w)
       = (Js.Fulfil rows, d) ->
     fst (queryEmbeddableNodes executeQuery EMBEDDABLE_LABELS w)
       = Js.Ok (List.map toEmbeddableNode rows)) /\
  (forall q k maxDistance p v rows d,
     Embedder.embedderInstance (embedder w) = Some p ->
     model p [q] = Js.Fulfil v ->
     executeQuery (semanticSearchQuery numToString (vectorLiteral numToString v)
                     k maxDistance) (database w) = (Js.Fulfil rows, d) ->
     fst (semanticSearch numToString executeQuery model q k maxDistance w)
       = Js.Ok (List.map toSearchResult rows)).
Proof.
  split; [|split; [|split]].
  - intros row n. subst n. unfold toEmbeddableNode. simpl.
    rewrite !nullish_named_or_positional.
    repeat split.
    destruct (namedOrPositional row "content" "4"); reflexivity.
  - intros row r. subst r. unfold toSearchResult. simpl.
    rewrite !nullish_named_or_positional. repeat split.
  - intros rows d Hq.
    unfold queryEmbeddableNodes, bind, query. rewrite Hq. reflexivity.
  - intros q k maxDistance p v rows d He Hm Hs.
    unfold semanticSearch, bind, isEmbedderReady, Embedder.isEmbedderReady.
    rewrite He. simpl.
    unfold withEmbedder, Embedder.embedText, Embedder.getEmbedder.
    rewrite He, Hm. simpl. unfold query. simpl.
    unfold Embedder.embeddingToArray. rewrite Hs. reflexivity.
Qed.

(** [await initEmbedder(...)] touches neither the database nor the logs of
    queries and model runs. *)
Lemma awaitInitEmbedder_frame device w r w1 :
  awaitInitEmbedder ofZ scaleDownload loadModel device w = Some (r, w1) ->
  database w1 = database w /\ issued w1 = issued w /\ modelRuns w1 = modelRuns w.
Proof.
  unfold awaitInitEmbedder.
  destruct (Embedder.initEmbedder device (embedder w)) as [es [p | pr]].
  - intros [= <- <-]. auto.
  - destruct (settleInit loadModel 3 pr es) as [[[res es'] events]|]; [|discriminate].
    intros [= <- <-]. auto.
Qed.

(** C9. When the model is available and the embeddable-node query returns
    no row, [runEmbeddingPipeline] returns normally; its last report is
    ['ready'], 100 percent, 0 nodes processed of 0; the node query is the
    only text it hands to [executeQuery] (no update, no index creation) and
    the model is not run. *)
Theorem runEmbeddingPipeline_without_nodes device batchSize w p w1 d :
  awaitInitEmbedder ofZ scaleDownload loadModel device
    (snd (onProgress (loadingReport ofZ 0 0) w)) = Some (Js.Ok p, w1) ->
  executeQuery (embeddableNodesQuery EMBEDDABLE_LABELS) (database w) = (Js.Fulfil [], d) ->
  exists w',
    runEmbeddingPipeline numToString ofZ scaleDownload embeddingPercent executeQuery
      model loadModel EMBEDDABLE_LABELS generateBatchEmbeddingTexts device batchSize w
      = Some (Js.Ok tt, w') /\
    reported w' = reported w1 ++
      [loadingReport ofZ 20 100;
       {| phase := Ready; percent := ofZ 100; modelDownloadPercent := None;
          nodesProcessed := Some 0; totalNodes := Some 0;
          currentBatch := None; totalBatches := None; error := None |}] /\
    issued w' = issued w ++ [embeddableNodesQuery EMBEDDABLE_LABELS] /\
    modelRuns w' = modelRuns w /\
    database w' = d.
Proof.
  intros Hinit Hq.
  destruct (awaitInitEmbedder_frame _ _ _ _ Hinit) as (Hd & Hi & Hr).
  simpl in Hd, Hi, Hr.
  eexists. split.
  - unfold runEmbeddingPipeline, runEmbeddingPipelineBody, bindP, liftP.
    simpl. simpl in Hinit. rewrite Hinit. simpl.
    unfold queryEmbeddableNodes, bind, query. simpl.
    rewrite Hd, Hq. simpl. reflexivity.
  - simpl. rewrite Hi, Hr. rewrite <- app_assoc. auto.
Qed.

(** C10. [semanticSearch] and [semanticSearchWithContext] fail with the
    error 'Embedding model not initialized. Run embedding pipeline first.'
    exactly when the embedder is not ready at the call, and then leave the
    world as it is: nothing is handed to [executeQuery]. *)
Theorem semanticSearch_needs_embedder q k maxDistance hops w :
  let ready := Embedder.isEmbedderReady (embedder w) in
  let search := semanticSearch numToString executeQuery model q k maxDistance w in
  let searchCtx := semanticSearchWithContext numToString executeQuery model q k hops w in
  (fst search = Js.Err (Js.Thrown notInitialized) <-> ready = false) /\
  (fst searchCtx = Js.Err (Js.Thrown notInitialized) <-> ready = false) /\
  (ready = false ->
     snd search = w /\ snd searchCtx = w /\
     issued (snd search) = issued w /\ issued (snd searchCtx) = issued w).
Proof.
  intros ready search searchCtx. subst ready search searchCtx.
  unfold semanticSearch, semanticSearchWithContext, bind, isEmbedderReady,
    Embedder.isEmbedderReady.
  destruct (Embedder.embedderInstance (embedder w)) as [p|] eqn:He; simpl.
  - unfold withEmbedder, Embedder.embedText, Embedder.getEmbedder, query.
    rewrite He.
    destruct (model p [q]) as [v | b msg]; simpl.
    + destruct (executeQuery _ (database w)) as [[rows | b msg] d'] eqn:Hq1; simpl;
      destruct (executeQuery (semanticSearchWithContextQuery _ _ _ _) _)
        as [[rows' | b' msg'] d''] eqn:Hq2; simpl;
      repeat split; intros; discriminate.
    + repeat split; intros; discriminate.
  - repeat split; intros; reflexivity.
Qed.

End PipelineClaims.

Section PipelineWitnesses.

Import EmbeddingPipeline RowAccess.

Let readyEmbedder : Embedder.State :=
  fst (Embedder.run Embedder.initial
         [Embedder.InitEmbedder Embedder.wasm; Embedder.PipelineResolves 0 1]).

Lemma rows_read_by_name_then_position_witness :
  let row1 : gmap string (Js.Val Z) :=
    {[ "id" := Js.Str "Function:a.ts:foo"; "1" := Js.Str "foo";
       "content" := Js.Null; "nodeId" := Js.Null; "0" := Js.Str "n0" ]} in
  let exec := fun (_ : string) (d : unit) => (Js.Fulfil [row1], d) in
  let model := fun (_ : Embedder.Pipeline) (_ : list string) => Js.Fulfil [1%Z] in
  let w := {| embedder := readyEmbedder; database := tt; issued := [];
              reported := []; modelRuns := [] |} in
  fst (queryEmbeddableNodes exec ["Function"] w) = Js.Ok [toEmbeddableNode row1] /\
  fst (semanticSearch (fun _ : Z => "0") exec model "q" 1%Z 1%Z w)
    = Js.Ok [toSearchResult row1] /\
  en_id (toEmbeddableNode row1) = Js.Str "Function:a.ts:foo" /\
  en_name (toEmbeddableNode row1) = Js.Str "foo" /\
  en_content (toEmbeddableNode row1) = Js.Str "" /\
  sr_nodeId (toSearchResult row1) = Js.Str "n0".
Proof.
  intros row1 exec model w.
  destruct (rows_read_by_name_then_position (fun _ : Z => "0") exec model
              ["Function"] w) as (Hn & Hs & Hq & Hsearch).
  split; [exact (Hq [row1] tt eq_refl)|].
  split; [exact (Hsearch "q" 1%Z 1%Z 1 [1%Z] [row1] tt eq_refl eq_refl eq_refl)|].
  destruct (Hn row1) as (H1 & H2 & _ & _ & H5 & _).
  destruct (Hs row1) as (H6 & _).
  rewrite H1, H2, H5, H6. repeat split; vm_compute; reflexivity.
Defined.

Lemma runEmbeddingPipeline_without_nodes_witness :
  let exec := fun (_ : string) (d : unit) =>
                (Js.Fulfil ([] : list (gmap string (Js.Val Z))), d) in
  let model := fun (_ : Embedder.Pipeline) (_ : list string) =>
                 Js.Fulfil ([] : list Z) in
  let load := fun (_ : Embedder.Device) =>
                ([{| mp_status := "progress"; mp_progress := Some 50%Z |}],
                 inl 1 : Embedder.Pipeline + string) in
  let w := {| embedder := Embedder.initial; database := tt; issued := [];
              reported := []; modelRuns := [] |} in
  exists w',
    runEmbeddingPipeline (fun _ : Z => "0") (fun z => z) (fun z => (z / 5)%Z)
      (fun _ _ => 0%Z) exec model load ["Function"] (fun _ => []) Embedder.wasm 16 w
      = Some (Js.Ok tt, w') /\
    List.map phase (reported w') = [LoadingModel; LoadingModel; LoadingModel; Ready] /\
    length (issued w') = 1 /\ modelRuns w' = [].
Proof.
  intros exec model load w.
  edestruct (runEmbeddingPipeline_without_nodes (fun _ : Z => "0") (fun z => z)
               (fun z => (z / 5)%Z) (fun _ _ => 0%Z) exec model load ["Function"]
               (fun _ => []) Embedder.wasm 16 w 1)
    as (w' & Hrun & Hrep & Hiss & Hruns & _).
  - vm_compute. reflexivity.
  - reflexivity.
  - exists w'. split; [exact Hrun|].
    rewrite Hrep, Hiss, Hruns. repeat split.
Defined.

End PipelineWitnesses.

(** ** Node updates seen from the storage sink *)

Section SinkFacts.

Import Sink.

Lemma append_assoc3 (a b c : string) : (a +:+ b) +:+ c = a +:+ (b +:+ c).
Proof.
  induction a as [|x a IH]; [reflexivity|].
  change (String x ((a +:+ b) +:+ c) = String x (a +:+ (b +:+ c))).
  f_equal. exact IH.
Qed.

Lemma snoc_append (acc : string) (c : ascii) (s : string) :
  snoc acc c +:+ s = acc +:+ String c s.
Proof. unfold snoc. rewrite append_assoc3. reflexivity. Qed.

Lemma append_empty_r (a : string) : a +:+ "" = a.
Proof.
  induction a as [|x a IH]; [reflexivity|].
  change (String x (a +:+ "") = String x a). f_equal. exact IH.
Qed.

(** A string literal ends at the first quote when its content holds
    neither a quote nor a backslash. *)
Lemma lexFrom_quoted (s : string) : forall acc rest,
  without "'" s = true -> without "\" s = true ->
  lexFrom (Quoted acc) (s +:+ String "'" rest) =
  match lexFrom Between rest with
  | Some ts => Some (TString (acc +:+ s) :: ts)
  | None => None
  end.
Proof.
  induction s as [|c s IH]; intros acc rest Hq Hb.
  - rewrite append_empty_r. reflexivity.
  - simpl in Hq, Hb.
    apply andb_true_iff in Hq as [Hq1 Hq]. apply andb_true_iff in Hb as [Hb1 Hb].
    apply negb_true_iff in Hq1, Hb1.
    change (String c s +:+ String "'" rest) with (String c (s +:+ String "'" rest)).
    cbn [lexFrom scan]. rewrite Hq1, Hb1. cbn [fst snd].
    rewrite IH by assumption. rewrite snoc_append.
    destruct (lexFrom Between rest); reflexivity.
Qed.

(** A list literal ends at the first closing bracket. *)
Lemma lexFrom_bracket (s : string) : forall acc rest,
  without "]" s = true ->
  lexFrom (Bracket acc) (s +:+ String "]" rest) =
  match lexFrom Between rest with
  | Some ts => Some (TList (acc +:+ s) :: ts)
  | None => None
  end.
Proof.
  induction s as [|c s IH]; intros acc rest Hq.
  - rewrite append_empty_r. reflexivity.
  - simpl in Hq. apply andb_true_iff in Hq as [Hq1 Hq].
    apply negb_true_iff in Hq1.
    change (String c s +:+ String "]" rest) with (String c (s +:+ String "]" rest)).
    cbn [lexFrom scan]. rewrite Hq1. cbn [fst snd].
    rewrite IH by assumption. rewrite snoc_append.
    destruct (lexFrom Between rest); reflexivity.
Qed.

Lemma without_append c (a b : string) :
  without c (a +:+ b) = without c a && without c b.
Proof.
  induction a as [|x a IH]; [reflexivity|].
  change (without c (String x (a +:+ b)) = without c (String x a) && without c b).
  simpl. rewrite IH. rewrite andb_assoc. reflexivity.
Qed.

Lemma without_join c (xs : list string) :
  without c "," = true ->
  Forall (fun x => without c x = true) xs ->
  without c (Js.join "," xs) = true.
Proof.
  intros Hsep Hall. induction Hall as [|x xs Hx Hxs IH]; [reflexivity|].
  destruct xs as [|y ys]; [exact Hx|].
  change (Js.join "," (x :: y :: ys)) with (x +:+ "," +:+ Js.join "," (y :: ys)).
  rewrite !without_append, Hx, Hsep, IH. reflexivity.
Qed.

Section Update.

Context {Num : Type}.
Variable numToString : Num -> string.

Local Abbreviation embeddingText := (Sink.embeddingText numToString).
Local Abbreviation plain := (Sink.plain numToString).

Lemma lexFrom_head (rest : string) :
  lexFrom Between (EmbeddingPipeline.nl +:+ "    MATCH (n:CodeNode {id: '" +:+ rest) =
  match lexFrom (Quoted "") rest with
  | Some ts =>
    Some (TWord "MATCH" :: TSym "(" :: TWord "n" :: TSym ":" :: TWord "CodeNode"
          :: TSym "{" :: TWord "id" :: TSym ":" :: ts)
  | None => None
  end.
Proof.
  cbv - [lexFrom]. simpl. destruct (lexFrom (Quoted "") rest); reflexivity.
Qed.

Lemma lexFrom_middle (rest : string) :
  lexFrom Between ("})" +:+ EmbeddingPipeline.nl
                   +:+ "    SET n.embedding = CAST([" +:+ rest) =
  match lexFrom (Bracket "") rest with
  | Some ts =>
    Some (TSym "}" :: TSym ")" :: TWord "SET" :: TWord "n" :: TSym "."
          :: TWord "embedding" :: TSym "=" :: TWord "CAST" :: TSym "(" :: ts)
  | None => None
  end.
Proof.
  cbv - [lexFrom]. simpl. destruct (lexFrom (Bracket "") rest); reflexivity.
Qed.

Lemma lexFrom_tail :
  lexFrom Between (" AS FLOAT[384])" +:+ EmbeddingPipeline.nl +:+ "  ") =
  Some [TWord "AS"; TWord "FLOAT"; TList "384"; TSym ")"].
Proof. reflexivity. Qed.

Lemma updateNodeEmbeddingQuery_shape (nodeId : string) (embedding : list Num) :
  EmbeddingPipeline.updateNodeEmbeddingQuery numToString nodeId embedding =
  EmbeddingPipeline.nl +:+ "    MATCH (n:CodeNode {id: '" +:+
  (nodeId +:+ String "'"
     ("})" +:+ EmbeddingPipeline.nl +:+ "    SET n.embedding = CAST([" +:+
      (embeddingText embedding +:+ String "]"
         (" AS FLOAT[384])" +:+ EmbeddingPipeline.nl +:+ "  ")))).
Proof.
  unfold EmbeddingPipeline.updateNodeEmbeddingQuery, embeddingText.
  rewrite !append_assoc3. reflexivity.
Qed.

(** For an id free of quotes and backslashes, the text of
    [updateNodeEmbedding] reads as one [MATCH] on that id with one [SET],
    of the [embedding] column. *)
Lemma updateNodeEmbeddingQuery_reads (nodeId : string) (embedding : list Num) :
  without "'" nodeId = true -> without "\" nodeId = true ->
  Forall (fun x => without "]" (numToString x) = true) embedding ->
  option_map parse
    (lex (EmbeddingPipeline.updateNodeEmbeddingQuery numToString nodeId embedding)) =
  Some (Some {| st_var := "n"; st_table := "CodeNode"; st_key := nodeId;
                st_sets := [("n", "embedding",
                             VCast (embeddingText embedding) "384")] |}).
Proof.
  intros Hq Hb Hnum.
  rewrite updateNodeEmbeddingQuery_shape. unfold lex.
  rewrite lexFrom_head, (lexFrom_quoted nodeId "" _ Hq Hb).
  rewrite lexFrom_middle, lexFrom_bracket, lexFrom_tail.
  - reflexivity.
  - apply without_join; [reflexivity|].
    apply Forall_map. exact Hnum.
Qed.

Lemma frame_setEmbedding v r : frame (setEmbedding v r) = frame r.
Proof. reflexivity. Qed.

Lemma onlyEmbeddingOf_refl nodeId db : onlyEmbeddingOf nodeId db db.
Proof.
  repeat split. induction (nodes db) as [|r rows IH]; constructor; auto.
Qed.

Lemma run_single_embedding_set nodeId elements db db' :
  run {| st_var := "n"; st_table := "CodeNode"; st_key := nodeId;
         st_sets := [("n", "embedding", VCast elements "384")] |} db = Some db' ->
  onlyEmbeddingOf nodeId db db'.
Proof.
  unfold run. cbn [st_table st_var st_sets st_key].
  change (String.eqb "CodeNode" NODE_TABLE_NAME) with true. cbv iota.
  unfold bindSets. change (String.eqb "n" "n") with true. cbv iota.
  unfold setter. change (String.eqb "embedding" "id") with false. cbv iota.
  change (columnType "embedding") with (Some (FLOAT_ARRAY 384)). cbv iota.
  destruct (bool_decide (natOfDigits "384" = Some 384)
            && Nat.eqb (length (elementsOf elements)) 384); [|discriminate].
  intros [= <-]. unfold onlyEmbeddingOf. cbn [nodes edges].
  split; [reflexivity|]. split.
  - rewrite List.map_map. apply List.map_ext. intros r.
    destruct (String.eqb (id r) nodeId); reflexivity.
  - induction (nodes db) as [|r rows IH]; constructor; [|exact IH].
    intros Hne. apply String.eqb_neq in Hne. rewrite Hne. reflexivity.
Qed.

(** For an id free of quotes and backslashes, whatever the sink answers to
    the text of [updateNodeEmbedding], the database differs from the one
    before at most in the [embedding] column of the rows with that id. *)
Lemma executeQuery_update_frame (nodeId : string) (embedding : list Num) db :
  without "'" nodeId = true -> without "\" nodeId = true ->
  Forall (fun x => without "]" (numToString x) = true) embedding ->
  onlyEmbeddingOf nodeId db
    (snd (@executeQuery Num
            (EmbeddingPipeline.updateNodeEmbeddingQuery numToString nodeId embedding) db)).
Proof.
  intros Hq Hb Hnum.
  pose proof (updateNodeEmbeddingQuery_reads nodeId embedding Hq Hb Hnum) as Hread.
  unfold executeQuery.
  destruct (lex _) as [ts|]; [|discriminate]. simpl in Hread.
  injection Hread as ->.
  destruct (run _ db) as [db'|] eqn:Hrun; simpl.
  - eapply run_single_embedding_set. exact Hrun.
  - apply onlyEmbeddingOf_refl.
Qed.

(** For ids free of quotes and backslashes, [batchUpdateEmbeddings] leaves
    the relation table and every column of the node table other than
    [embedding] as they were, and issues one text per update. *)
Lemma batchUpdateEmbeddings_frame_plain_ids
    (updates : list (string * list Num))
    (w : EmbeddingPipeline.World Num DB) :
  Forall plain updates ->
  let w' := snd (EmbeddingPipeline.batchUpdateEmbeddings numToString
                   (@executeQuery Num) updates w) in
  edges (EmbeddingPipeline.database w') = edges (EmbeddingPipeline.database w) /\
  List.map frame (nodes (EmbeddingPipeline.database w')) =
  List.map frame (nodes (EmbeddingPipeline.database w)) /\
  EmbeddingPipeline.embedder w' = EmbeddingPipeline.embedder w.
Proof.
  intros Hall. revert w. induction Hall as [|[nodeId embedding] updates Hp _ IH];
    intros w; [simpl; auto|].
  destruct Hp as (Hq & Hb & Hnum). simpl in Hq, Hb, Hnum.
  pose proof (executeQuery_update_frame nodeId embedding
                (EmbeddingPipeline.database w) Hq Hb Hnum) as (He & Hn & _).
  cbn [EmbeddingPipeline.batchUpdateEmbeddings fst snd].
  unfold EmbeddingPipeline.bind at 1.
  unfold EmbeddingPipeline.updateNodeEmbedding, EmbeddingPipeline.bind,
    EmbeddingPipeline.query, EmbeddingPipeline.ret.
  destruct (executeQuery _ (EmbeddingPipeline.database w)) as [[rows | b msg] db1].
  - simpl in He, Hn. cbn [Js.await].
    match goal with
    | |- context [EmbeddingPipeline.batchUpdateEmbeddings _ _ _ ?w1] =>
      specialize (IH w1)
    end.
    cbn zeta in IH. cbn [EmbeddingPipeline.database EmbeddingPipeline.embedder] in IH.
    destruct IH as (IH1 & IH2 & IH3).
    cbn zeta. rewrite IH1, IH2, IH3. auto.
  - simpl in He, Hn. cbn. auto.
Qed.

End Update.

(** At a plain id the update does what it is meant to do: the row with
    that id gets the vector, every other column and row stays. *)
Example updateNodeEmbedding_plain_id :
  let row := {| id := "Function:a.ts#foo"; label := "Function"; name := "foo";
                filePath := "a.ts"; startLine := 1; endLine := 3;
                content := "function foo() {}"; embedding := None |} in
  let other := {| id := "File:a.ts#a.ts"; label := "File"; name := "a.ts";
                  filePath := "a.ts"; startLine := 0; endLine := 0;
                  content := ""; embedding := None |} in
  let db := {| nodes := [other; row];
               edges := [{| from := "File:a.ts#a.ts"; to := "Function:a.ts#foo";
                            type := "DEFINES" |}] |} in
  @executeQuery Z
    (EmbeddingPipeline.updateNodeEmbeddingQuery pretty "Function:a.ts#foo"
       (repeat 0%Z 384)) db =
  (Js.Fulfil [],
   {| nodes := [other; setEmbedding (repeat "0" 384) row]; edges := edges db |}).
Proof. vm_compute. reflexivity. Qed.

(** C1, at an id that holds a quote. The id is spliced into the query text
    as it is, so the text below carries a second [SET] clause and its
    [MATCH] names another id: the update succeeds, and the row with id
    ["f"] has its [name] rewritten, against the claim that only the
    [embedding] of the row matching the given id changes. *)
Theorem updateNodeEmbedding_quoted_id_rewrites_name :
  let nodeId := "f'}) SET n.name = 'gone' //" in
  let row := {| id := "f"; label := "Function"; name := "foo";
                filePath := "a.ts"; startLine := 1; endLine := 3;
                content := "function foo() {}"; embedding := None |} in
  let db := {| nodes := [row]; edges := [] |} in
  let w := {| EmbeddingPipeline.embedder := Embedder.initial;
              EmbeddingPipeline.database := db;
              EmbeddingPipeline.issued := [];
              EmbeddingPipeline.reported := ([] : list (EmbeddingPipeline.EmbeddingProgress Z));
              EmbeddingPipeline.modelRuns := [] |} in
  let result := EmbeddingPipeline.updateNodeEmbedding pretty (@executeQuery Z)
                  nodeId (repeat 0%Z 384) w in
  EmbeddingPipeline.updateNodeEmbeddingQuery pretty nodeId [1%Z; (-2)%Z] =
    EmbeddingPipeline.nl
    +:+ "    MATCH (n:CodeNode {id: 'f'}) SET n.name = 'gone' //'})"
    +:+ EmbeddingPipeline.nl
    +:+ "    SET n.embedding = CAST([1,-2] AS FLOAT[384])"
    +:+ EmbeddingPipeline.nl +:+ "  " /\
  fst result = Js.Ok tt /\
  List.map name (nodes (EmbeddingPipeline.database (snd result))) = ["gone"] /\
  List.map id (nodes (EmbeddingPipeline.database (snd result))) = ["f"] /\
  List.map name
    (nodes (EmbeddingPipeline.database
              (snd (EmbeddingPipeline.batchUpdateEmbeddings pretty (@executeQuery Z)
                      [(nodeId, repeat 0%Z 384)] w)))) = ["gone"] /\
  ~ onlyEmbeddingOf nodeId db (EmbeddingPipeline.database (snd result)).
Proof.
  intros nodeId row db w result.
  split; [vm_compute; reflexivity|].
  split; [vm_compute; reflexivity|].
  split; [vm_compute; reflexivity|].
  split; [vm_compute; reflexivity|].
  split; [vm_compute; reflexivity|].
  intros (_ & Hframe & _). vm_compute in Hframe. discriminate Hframe.
Qed.

End SinkFacts.

(** ** The AST cache *)

Section ASTCacheFacts.

Import ASTCache.

Context {Tree : Type}.

Implicit Types (c : Cache Tree) (ops : list (Op Tree)) (p q : string).

Lemma lastAccess_snoc ops (op : Op Tree) p :
  lastAccess (ops ++ [op]) p =
  if String.eqb (opPath op) p then Some (length ops) else lastAccess ops p.
Proof.
  unfold lastAccess. rewrite rev_app_distr. simpl.
  rewrite length_rev. reflexivity.
Qed.

Lemma lastSeen_lt (l : list (Op Tree)) p k :
  lastSeen l p = Some k -> k < length l.
Proof.
  induction l as [|op l IH]; simpl; [discriminate|].
  destruct (String.eqb (opPath op) p).
  - intros [= <-]. lia.
  - intros H. apply IH in H. lia.
Qed.

Lemma lastSeen_inj (l : list (Op Tree)) p q k :
  lastSeen l p = Some k -> lastSeen l q = Some k -> p = q.
Proof.
  induction l as [|op l IH]; simpl; [discriminate|].
  destruct (String.eqb_spec (opPath op) p) as [Hp|Hp];
    destruct (String.eqb_spec (opPath op) q) as [Hq|Hq].
  - congruence.
  - intros [= <-] H. apply lastSeen_lt in H. lia.
  - intros H [= <-]. apply lastSeen_lt in H. lia.
  - exact IH.
Qed.

Lemma lastAccess_lt ops p k : lastAccess ops p = Some k -> k < length ops.
Proof.
  unfold lastAccess. intros H. apply lastSeen_lt in H.
  rewrite length_rev in H. exact H.
Qed.

Lemma lastAccess_inj ops p q k :
  lastAccess ops p = Some k -> lastAccess ops q = Some k -> p = q.
Proof. apply lastSeen_inj. Qed.

Lemma oldest_in (l : list (string * (Tree * nat))) e :
  oldest l = Some e -> e ∈ l.
Proof.
  revert e. induction l as [|x l IH]; simpl; intros e; [discriminate|].
  destruct (oldest l) as [m|].
  - destruct (stamp x <=? stamp m); intros [= <-].
    + apply list_elem_of_here.
    + apply list_elem_of_further. apply IH. reflexivity.
  - intros [= <-]. apply list_elem_of_here.
Qed.

Lemma oldest_least (l : list (string * (Tree * nat))) e e' :
  oldest l = Some e -> e' ∈ l -> stamp e <= stamp e'.
Proof.
  revert e. induction l as [|x l IH]; simpl; intros e; [discriminate|].
  intros Ho Hin.
  destruct (oldest l) as [m|] eqn:Hm.
  - specialize (IH m eq_refl).
    destruct (Nat.leb_spec (stamp x) (stamp m)); injection Ho as <-;
      apply elem_of_cons in Hin as [-> | Hin]; try lia.
    + apply IH in Hin. lia.
    + apply IH in Hin. lia.
  - injection Ho as <-.
    apply elem_of_cons in Hin as [-> | Hin]; [lia|].
    destruct l; [inversion Hin | simpl in Hm; destruct (oldest l); [destruct (_ <=? _)|]; discriminate].
Qed.

Lemma oldest_some (l : list (string * (Tree * nat))) :
  l <> [] -> exists e, oldest l = Some e.
Proof.
  destruct l as [|x l]; [congruence|]. intros _. simpl.
  destruct (oldest l) as [m|]; [destruct (_ <=? _)|]; eauto.
Qed.

Lemma lru_spec c q t k :
  lru c = Some (q, (t, k)) ->
  entries c !! q = Some (t, k) /\
  forall q' t' k', entries c !! q' = Some (t', k') -> k <= k'.
Proof.
  unfold lru. intros Ho. split.
  - apply oldest_in in Ho. apply elem_of_map_to_list in Ho. exact Ho.
  - intros q' t' k' Hq'. apply elem_of_map_to_list in Hq'.
    exact (oldest_least _ _ _ Ho Hq').
Qed.

Lemma lru_some c :
  size (entries c) <> 0 -> exists e, lru c = Some e.
Proof.
  intros Hs. unfold lru. apply oldest_some. intros Hnil.
  apply map_to_list_empty_iff in Hnil. rewrite Hnil, map_size_empty in Hs.
  congruence.
Qed.

Lemma tracked_touch ops c (op : Op Tree) p t (m : gmap string (Tree * nat)) :
  opPath op = p ->
  tracked ops c ->
  (forall q, q <> p -> m !! q = entries c !! q) ->
  m !! p = Some (t, clock c) ->
  forall q t' k, m !! q = Some (t', k) -> lastAccess (ops ++ [op]) q = Some k.
Proof.
  intros Hop [Hclock Hstamps] Hother Hp q t' k Hq.
  rewrite lastAccess_snoc, Hop.
  destruct (String.eqb_spec p q) as [<- | Hne].
  - rewrite Hp in Hq. injection Hq as _ <-. congruence.
  - rewrite Hother in Hq by congruence. eapply Hstamps. exact Hq.
Qed.

Lemma evictLRU_entries c q' :
  entries (evictLRU c) !! q' = None \/ entries (evictLRU c) !! q' = entries c !! q'.
Proof.
  unfold evictLRU. destruct (lru c) as [[q [t k]]|]; simpl; [|auto].
  destruct (decide (q = q')) as [<- | Hne].
  - left. apply lookup_delete_eq.
  - right. apply lookup_delete_ne. exact Hne.
Qed.

Lemma evictLRU_clock c : clock (evictLRU c) = clock c.
Proof. unfold evictLRU. destruct (lru c) as [[q [t k]]|]; reflexivity. Qed.

Lemma evictLRU_capacity c : capacity (evictLRU c) = capacity c.
Proof. unfold evictLRU. destruct (lru c) as [[q [t k]]|]; reflexivity. Qed.

Lemma apply_tracked ops c (op : Op Tree) :
  tracked ops c -> tracked (ops ++ [op]) (apply c op).
Proof.
  intros Ht. pose proof Ht as [Hclock Hstamps]. split.
  - rewrite length_app. simpl.
    destruct op as [p | p t]; simpl.
    + unfold get. destruct (entries c !! p) as [[t k]|]; simpl; lia.
    + unfold set. destruct (entries c !! p) as [[t0 k]|]; simpl; [lia|].
      destruct (capacity c <=? size (entries c)); rewrite ?evictLRU_clock; lia.
  - destruct op as [p | p t]; simpl.
    + unfold get. destruct (entries c !! p) as [[t k]|] eqn:Hp; simpl.
      * eapply (tracked_touch ops c (OpGet p) p t); eauto.
        -- intros q Hq. apply lookup_insert_ne. congruence.
        -- apply lookup_insert_eq.
      * intros q t' k Hq. rewrite lastAccess_snoc. simpl.
        destruct (String.eqb_spec p q) as [<- | Hne]; [congruence|].
        eapply Hstamps. exact Hq.
    + unfold set. destruct (entries c !! p) as [[t0 k0]|] eqn:Hp; simpl.
      * eapply (tracked_touch ops c (OpSet p t) p t); eauto.
        -- intros q Hq. apply lookup_insert_ne. congruence.
        -- apply lookup_insert_eq.
      * intros q t' k Hq. rewrite lastAccess_snoc. simpl.
        destruct (String.eqb_spec p q) as [<- | Hne].
        -- rewrite lookup_insert_eq in Hq. injection Hq as _ <-.
           destruct (capacity c <=? size (entries c)); rewrite ?evictLRU_clock;
             congruence.
        -- rewrite lookup_insert_ne in Hq by assumption.
           destruct (capacity c <=? size (entries c)); [|eapply Hstamps; exact Hq].
           destruct (evictLRU_entries c q) as [Hn | He]; [congruence|].
           rewrite He in Hq. eapply Hstamps. exact Hq.
Qed.

Lemma apply_capacity c (op : Op Tree) : capacity (apply c op) = capacity c.
Proof.
  destruct op as [p | p t]; simpl.
  - unfold get. destruct (entries c !! p) as [[t k]|]; reflexivity.
  - unfold set. destruct (entries c !! p) as [[t0 k]|]; simpl; [reflexivity|].
    destruct (capacity c <=? size (entries c)); rewrite ?evictLRU_capacity; reflexivity.
Qed.

Lemma evictLRU_size c :
  size (entries c) <> 0 -> size (entries (evictLRU c)) = pred (size (entries c)).
Proof.
  intros Hs. destruct (lru_some c Hs) as [[q [t k]] Hl].
  unfold evictLRU. rewrite Hl. simpl.
  apply map_size_delete_Some. apply lru_spec in Hl as [Hq _]. eauto.
Qed.

Lemma apply_bounded c (op : Op Tree) :
  0 < capacity c -> size (entries c) <= capacity c ->
  size (entries (apply c op)) <= capacity c.
Proof.
  intros Hpos Hle. destruct op as [p | p t]; simpl.
  - unfold get. destruct (entries c !! p) as [[t k]|] eqn:Hp; simpl; [|exact Hle].
    rewrite map_size_insert_Some by eauto. exact Hle.
  - unfold set. destruct (entries c !! p) as [[t0 k]|] eqn:Hp; simpl.
    + rewrite map_size_insert_Some by eauto. exact Hle.
    + destruct (Nat.leb_spec (capacity c) (size (entries c))) as [Hfull | Hroom].
      * rewrite map_size_insert.
        destruct (evictLRU_entries c p) as [Hn | He].
        -- rewrite Hn. rewrite evictLRU_size by lia. lia.
        -- rewrite He, Hp. rewrite evictLRU_size by lia. lia.
      * rewrite map_size_insert_None by assumption. lia.
Qed.

Lemma applyAll_snoc C ops (op : Op Tree) :
  applyAll C (ops ++ [op]) = apply (applyAll C ops) op.
Proof. unfold applyAll. rewrite fold_left_app. reflexivity. Qed.

Lemma applyAll_invariant C ops :
  0 < C ->
  tracked ops (applyAll C ops) /\
  capacity (applyAll C ops) = C /\
  size (entries (applyAll C ops)) <= C.
Proof.
  intros Hpos. induction ops as [|op ops IH] using rev_ind.
  - split; [|split].
    + split; [reflexivity|]. intros p t k H. simpl in H.
      rewrite lookup_empty in H. discriminate.
    + reflexivity.
    + simpl. rewrite map_size_empty. lia.
  - destruct IH as (Ht & Hc & Hs). rewrite applyAll_snoc.
    split; [|split].
    + apply apply_tracked. exact Ht.
    + rewrite apply_capacity. exact Hc.
    + rewrite <- Hc at 2. apply apply_bounded; rewrite Hc; assumption.
Qed.

(** C3. Whatever sequence of [get] and [set] operations a cache of
    capacity [C] has gone through, it holds at most [C] entries; and a
    [set] of a new path made when it holds [C] entries first evicts the
    entry whose last access lies furthest back, invoking the release of that
    entry's handle once, and only then stores the new entry. *)
Theorem ast_cache_bounded_and_lru (C : nat) ops :
  0 < C ->
  let c := applyAll C ops in
  size (entries c) <= C /\
  forall p t,
    entries c !! p = None -> size (entries c) = C ->
    exists q tq k,
      entries c !! q = Some (tq, k) /\
      lastAccess ops q = Some k /\
      (forall q' t' k',
          q' <> q -> entries c !! q' = Some (t', k') ->
          lastAccess ops q' = Some k' /\ k < k') /\
      entries (evictLRU c) = delete q (entries c) /\
      events (evictLRU c) = events c ++ [Released tq] /\
      set p t c = store p t (evictLRU c) /\
      entries (set p t c) = <[p := (t, length ops)]> (delete q (entries c)) /\
      events (set p t c) = events c ++ [Released tq; Stored p t] /\
      size (entries (set p t c)) = C.
Proof.
  intros Hpos c.
  destruct (applyAll_invariant C ops Hpos) as ([Hclock Hstamps] & Hcap & Hsize).
  fold c in Hclock, Hstamps, Hcap, Hsize.
  split; [exact Hsize|].
  intros p t Hp Hfull.
  destruct (lru_some c) as [[q [tq k]] Hl]; [lia|].
  destruct (lru_spec c q tq k Hl) as [Hq Hleast].
  exists q, tq, k.
  assert (Hev : evictLRU c =
                {| capacity := capacity c; clock := clock c;
                   entries := delete q (entries c);
                   events := events c ++ [Released tq] |}).
  { unfold evictLRU. rewrite Hl. reflexivity. }
  assert (Hset : set p t c = store p t (evictLRU c)).
  { unfold set. rewrite Hp, Hcap, Hfull, Nat.leb_refl. reflexivity. }
  split; [exact Hq|]. split; [eapply Hstamps; exact Hq|]. split.
  { intros q' t' k' Hne Hq'. split; [eapply Hstamps; exact Hq'|].
    pose proof (Hleast q' t' k' Hq') as Hle.
    destruct (decide (k = k')) as [<- | Hk]; [|lia].
    exfalso. apply Hne. symmetry.
    eapply lastAccess_inj; eapply Hstamps; eassumption. }
  split; [rewrite Hev; reflexivity|].
  split; [rewrite Hev; reflexivity|].
  split; [exact Hset|].
  split; [rewrite Hset, Hev; simpl; rewrite Hclock; reflexivity|].
  split; [rewrite Hset, Hev; simpl; rewrite <- app_assoc; reflexivity|].
  rewrite Hset, Hev. simpl.
  assert (Hpq : p <> q) by congruence.
  rewrite map_size_insert_None by (rewrite lookup_delete_ne; congruence).
  rewrite map_size_delete_Some by eauto. lia.
Qed.

End ASTCacheFacts.

Lemma ast_cache_bounded_and_lru_witness :
  let ops := [ASTCache.OpSet "a.ts" 1; ASTCache.OpSet "b.ts" 2;
              ASTCache.OpGet "a.ts"] in
  0 < 2 /\
  size (ASTCache.entries (ASTCache.applyAll 2 ops)) <= 2 /\
  ASTCache.events (ASTCache.set "c.ts" 3 (ASTCache.applyAll 2 ops)) =
    [ASTCache.Stored "a.ts" 1; ASTCache.Stored "b.ts" 2;
     ASTCache.Released 2; ASTCache.Stored "c.ts" 3].
Proof.
  intros ops.
  destruct (ast_cache_bounded_and_lru 2 ops (Nat.lt_0_succ 1)) as [Hsize Hset].
  split; [exact (Nat.lt_0_succ 1)|]. split; [exact Hsize|].
  destruct (Hset "c.ts" 3) as (q & tq & k & _ & _ & _ & _ & _ & _ & _ & Hev & _).
  - vm_compute. reflexivity.
  - vm_compute. reflexivity.
  - vm_compute. reflexivity.
Defined.


(** ** Symbol table and call resolution *)

Section CallResolution.

Import SymbolTable CallResolver.

Implicit Types (st : SymbolTable.T) (imports : gmap string (gmap string string)).

Lemma lookupLocal_register_same st file symbol node knd :
  lookupLocal (register file symbol node knd st) file symbol = Some node.
Proof.
  unfold lookupLocal, register. simpl.
  rewrite lookup_insert_eq. apply lookup_insert_eq.
Qed.

Lemma lookupLocal_register_other_file st file file' symbol symbol' node knd :
  file <> file' ->
  lookupLocal (register file symbol node knd st) file' symbol' =
  lookupLocal st file' symbol'.
Proof.
  intros Hne. unfold lookupLocal, register. simpl.
  rewrite lookup_insert_ne by assumption. reflexivity.
Qed.

Lemma lookupLocal_register_other_symbol st file symbol symbol' node knd :
  symbol <> symbol' ->
  lookupLocal (register file symbol node knd st) file symbol' =
  lookupLocal st file symbol'.
Proof.
  intros Hne. unfold lookupLocal, register. simpl.
  rewrite lookup_insert_eq, lookup_insert_ne by assumption.
  destruct (fileIndex st !! file); [reflexivity | apply lookup_empty].
Qed.

(** C4. The resolver tries the import map first, then the local scope,
    then the global index, and stops at the first tier that matches. In
    particular, once file [a] has registered [foo] as [na] and file [b]
    has registered its own [foo] as [nb], and [b]'s import map sends
    [foo] to [a], a call to [foo] in [b] is bound to [na] through the
    import map, whatever else the table holds under that name. *)
Theorem resolve_import_map_then_local_then_global st imports calleeName enclosingFile :
  (forall node,
      viaImportMap st imports calleeName enclosingFile = Some node ->
      resolve st imports calleeName enclosingFile = Some (ImportMapTier, node)) /\
  (forall node,
      viaImportMap st imports calleeName enclosingFile = None ->
      viaLocalScope st calleeName enclosingFile = Some node ->
      resolve st imports calleeName enclosingFile = Some (LocalScopeTier, node)) /\
  (viaImportMap st imports calleeName enclosingFile = None ->
   viaLocalScope st calleeName enclosingFile = None ->
   resolve st imports calleeName enclosingFile =
   match lookupGlobal st calleeName with
   | d :: _ => Some (GlobalFallbackTier, nodeId d)
   | [] => None
   end) /\
  (forall a b foo na nb ka kb aliases,
      a <> b -> na <> nb ->
      imports !! b = Some aliases -> aliases !! foo = Some a ->
      let st' := register b foo nb kb (register a foo na ka st) in
      lookupLocal st' b foo = Some nb /\
      resolve st' imports foo b = Some (ImportMapTier, na)).
Proof.
  unfold resolve. split; [|split; [|split]].
  - intros node ->. reflexivity.
  - intros node -> ->. reflexivity.
  - intros -> ->. unfold viaGlobal.
    destruct (lookupGlobal st calleeName); reflexivity.
  - intros a b foo na nb ka kb aliases Hab Hn Hb Hfoo. split.
    + apply lookupLocal_register_same.
    + unfold viaImportMap. rewrite Hb, Hfoo.
      rewrite lookupLocal_register_other_file by congruence.
      rewrite lookupLocal_register_same. reflexivity.
Qed.

Lemma resolve_import_map_then_local_then_global_witness :
  let st := register "b.ts" "foo" "Function:b.ts:foo" "Function"
              (register "a.ts" "foo" "Function:a.ts:foo" "Function"
                 (register "z.ts" "foo" "Function:z.ts:foo" "Function"
                    SymbolTable.empty)) in
  let imports : gmap string (gmap string string) :=
    {[ "b.ts" := {[ "foo" := "a.ts" ]} ]} in
  viaImportMap st imports "foo" "b.ts" = Some "Function:a.ts:foo" /\
  viaLocalScope st "foo" "b.ts" = Some "Function:b.ts:foo" /\
  viaGlobal st "foo" = Some "Function:z.ts:foo" /\
  resolve st imports "foo" "b.ts" = Some (ImportMapTier, "Function:a.ts:foo").
Proof.
  intros st imports.
  assert (H1 : viaImportMap st imports "foo" "b.ts" = Some "Function:a.ts:foo")
    by (vm_compute; reflexivity).
  split; [exact H1|]. split; [vm_compute; reflexivity|].
  split; [vm_compute; reflexivity|].
  destruct (resolve_import_map_then_local_then_global st imports "foo" "b.ts")
    as (Himport & _).
  exact (Himport _ H1).
Defined.

End CallResolution.

(** ** The pipeline: edges only between nodes that exist *)

Section Referential.

Import Ingestion.

Context {Archive Tree : Type}.
Variable extract : Archive -> option Snapshot.
Variable deriveId : Label -> string -> string -> string.
Variable parse : string -> string -> option Tree.
Variable declarationsOf : Tree -> list Declaration.
Variable importsOf : Tree -> list (string * string).
Variable callsOf : Tree -> list string.
Variable extensions : list string.

Implicit Types (g : Graph) (log : list Created) (cache : ASTCache.Cache Tree).

Lemma nodesOf_app log1 log2 : nodesOf (log1 ++ log2) = nodesOf log1 ++ nodesOf log2.
Proof.
  induction log1 as [|[n|e] log1 IH]; simpl; [reflexivity| |assumption].
  rewrite IH. reflexivity.
Qed.

Lemma edgesOf_app log1 log2 : edgesOf (log1 ++ log2) = edgesOf log1 ++ edgesOf log2.
Proof.
  induction log1 as [|[n|e] log1 IH]; simpl; [reflexivity|assumption|].
  rewrite IH. reflexivity.
Qed.

Lemma nodeIds_app log1 log2 : nodeIds (log1 ++ log2) = nodeIds log1 ++ nodeIds log2.
Proof. unfold nodeIds. rewrite nodesOf_app. apply map_app. Qed.

Lemma nodeIds_grow log1 log2 x : x ∈ nodeIds log1 -> x ∈ nodeIds (log1 ++ log2).
Proof. intros H. rewrite nodeIds_app. apply elem_of_app. left. exact H. Qed.

(** Splitting a log that ends in [x] at one of its edges. *)
Lemma split_snoc log (x : Created) before e after :
  log ++ [x] = before ++ EdgeCreated e :: after ->
  (after = [] /\ log = before /\ x = EdgeCreated e) \/
  (exists after', after = after' ++ [x] /\ log = before ++ EdgeCreated e :: after').
Proof.
  intros H. destruct after as [|y after] using rev_ind.
  - left. apply app_inj_tail in H as [-> ->]. auto.
  - right. exists after. clear IHafter.
    change (before ++ EdgeCreated e :: after ++ [y])
      with (before ++ (EdgeCreated e :: after) ++ [y]) in H.
    rewrite app_assoc in H. apply app_inj_tail in H as [-> ->]. auto.
Qed.

Lemma endpoints_nil : endpointsCreatedBefore [].
Proof. intros [|x before] e after H; discriminate H. Qed.

Lemma endpoints_snoc_node log n :
  endpointsCreatedBefore log -> endpointsCreatedBefore (log ++ [NodeCreated n]).
Proof.
  intros Hlog before e after H.
  apply split_snoc in H as [(_ & _ & Hx) | (after' & _ & Hl)]; [discriminate|].
  eapply Hlog. exact Hl.
Qed.

Lemma endpoints_snoc_edge log e :
  endpointsCreatedBefore log ->
  from e ∈ nodeIds log -> to e ∈ nodeIds log ->
  endpointsCreatedBefore (log ++ [EdgeCreated e]).
Proof.
  intros Hlog Hf Ht before e' after H.
  apply split_snoc in H as [(_ & <- & [= <-]) | (after' & _ & Hl)]; [auto|].
  eapply Hlog. exact Hl.
Qed.

Lemma grounded_empty : grounded emptyGraph.
Proof.
  split; [apply endpoints_nil|]. split; [|split].
  - intros prefix node H. simpl in H. rewrite lookup_empty in H. discriminate.
  - intros file symbol node H. unfold SymbolTable.lookupLocal in H. simpl in H.
    rewrite lookup_empty in H. discriminate.
  - intros symbol d H. unfold SymbolTable.lookupGlobal in H. simpl in H.
    rewrite lookup_empty in H. simpl in H. inversion H.
Qed.

Lemma grounded_addNode g n : grounded g -> grounded (addNode n g).
Proof.
  intros (He & Hm & Hl & Hg). split; [|split; [|split]]; simpl.
  - apply endpoints_snoc_node. exact He.
  - intros prefix node H. apply nodeIds_grow. eapply Hm. exact H.
  - intros file symbol node H. apply nodeIds_grow. eapply Hl. exact H.
  - intros symbol d H. apply nodeIds_grow. eapply Hg. exact H.
Qed.

Lemma grounded_addEdge g e :
  grounded g -> from e ∈ nodeIds (created g) -> to e ∈ nodeIds (created g) ->
  grounded (addEdge e g).
Proof.
  intros (He & Hm & Hl & Hg) Hf Ht. split; [|split; [|split]]; simpl.
  - apply endpoints_snoc_edge; assumption.
  - intros prefix node H. apply nodeIds_grow. eapply Hm. exact H.
  - intros file symbol node H. apply nodeIds_grow. eapply Hl. exact H.
  - intros symbol d H. apply nodeIds_grow. eapply Hg. exact H.
Qed.

Lemma nodeIds_addEdge g e : nodeIds (created (addEdge e g)) = nodeIds (created g).
Proof. simpl. rewrite nodeIds_app. simpl. apply app_nil_r. Qed.

Lemma nodeIds_addNode g n :
  nodeIds (created (addNode n g)) = nodeIds (created g) ++ [id n].
Proof. simpl. rewrite nodeIds_app. reflexivity. Qed.

Lemma grounded_remember g prefix node :
  grounded g -> node ∈ nodeIds (created g) -> grounded (remember prefix node g).
Proof.
  intros (He & Hm & Hl & Hg) Hn. split; [|split; [|split]]; simpl; try assumption.
  intros prefix' node' H.
  destruct (decide (prefix = prefix')) as [<- | Hne].
  - rewrite lookup_insert_eq in H. injection H as <-. exact Hn.
  - rewrite lookup_insert_ne in H by assumption. eapply Hm. exact H.
Qed.

Lemma grounded_count g f : grounded g -> grounded (count f g).
Proof. intros H. exact H. Qed.

Lemma grounded_bindAlias g file alias target :
  grounded g -> grounded (bindAlias file alias target g).
Proof. intros H. exact H. Qed.

Lemma lookupLocal_register st file symbol node knd file' symbol' node' :
  SymbolTable.lookupLocal (SymbolTable.register file symbol node knd st) file' symbol'
    = Some node' ->
  node' = node \/ SymbolTable.lookupLocal st file' symbol' = Some node'.
Proof.
  unfold SymbolTable.lookupLocal, SymbolTable.register. simpl.
  destruct (decide (file = file')) as [<- | Hf].
  - rewrite lookup_insert_eq.
    destruct (decide (symbol = symbol')) as [<- | Hs].
    + rewrite lookup_insert_eq. intros [= <-]. auto.
    + rewrite lookup_insert_ne by assumption.
      destruct (SymbolTable.fileIndex st !! file); simpl; [auto|].
      rewrite lookup_empty. discriminate.
  - rewrite lookup_insert_ne by assumption. auto.
Qed.

Lemma lookupGlobal_register st file symbol node knd symbol' d :
  d ∈ SymbolTable.lookupGlobal (SymbolTable.register file symbol node knd st) symbol' ->
  SymbolTable.nodeId d = node \/ d ∈ SymbolTable.lookupGlobal st symbol'.
Proof.
  unfold SymbolTable.lookupGlobal, SymbolTable.register. simpl.
  destruct (decide (symbol = symbol')) as [<- | Hs].
  - rewrite lookup_insert_eq. simpl. intros H.
    apply elem_of_app in H as [H | H]; [auto|].
    apply list_elem_of_singleton in H. subst d. auto.
  - rewrite lookup_insert_ne by assumption. auto.
Qed.

Lemma grounded_declare g path fileNode d :
  grounded g -> fileNode ∈ nodeIds (created g) ->
  grounded (declare deriveId path fileNode g d) /\
  fileNode ∈ nodeIds (created (declare deriveId path fileNode g d)).
Proof.
  intros Hg Hfile. unfold declare.
  set (node := deriveId (d_label d) path (d_name d)).
  set (n := {| id := node; label := d_label d; name := d_name d; filePath := path;
               startLine := d_startLine d; endLine := d_endLine d;
               content := d_content d |}).
  set (e := {| from := fileNode; to := node; type := DEFINES |}).
  assert (Hnode : node ∈ nodeIds (created (addNode n g))).
  { rewrite nodeIds_addNode. apply elem_of_app. right.
    apply list_elem_of_singleton. reflexivity. }
  assert (Hfile' : fileNode ∈ nodeIds (created (addNode n g))).
  { rewrite nodeIds_addNode. apply elem_of_app. left. exact Hfile. }
  assert (H2 : grounded (addEdge e (addNode n g))).
  { apply grounded_addEdge; [apply grounded_addNode; exact Hg | exact Hfile' | exact Hnode]. }
  destruct H2 as (He & Hm & Hl & Hgl).
  split.
  - split; [exact He|]. split; [exact Hm|]. split; cbn [symbols created].
    + intros file symbol node' H.
      apply lookupLocal_register in H as [-> | H].
      * rewrite nodeIds_addEdge. exact Hnode.
      * eapply Hl. exact H.
    + intros symbol d' H.
      apply lookupGlobal_register in H as [-> | H].
      * rewrite nodeIds_addEdge. exact Hnode.
      * eapply Hgl. exact H.
  - cbn [created]. rewrite nodeIds_addEdge. exact Hfile'.
Qed.

Lemma grounded_declarations g path fileNode ds :
  grounded g -> fileNode ∈ nodeIds (created g) ->
  grounded (fold_left (declare deriveId path fileNode) ds g).
Proof.
  revert g. induction ds as [|d ds IH]; intros g Hg Hf; [exact Hg|].
  simpl. destruct (grounded_declare g path fileNode d Hg Hf) as [Hg' Hf'].
  apply IH; assumption.
Qed.

Lemma grounded_walk segs : forall parent prefix g,
  grounded g -> parent ∈ nodeIds (created g) ->
  grounded (walk deriveId parent prefix segs g).
Proof.
  induction segs as [|seg rest IH]; intros parent prefix g Hg Hp; [exact Hg|].
  simpl.
  set (here := match prefix with EmptyString => seg | _ => prefix +:+ "/" +:+ seg end).
  destruct (nodeOf g !! here) as [node|] eqn:Hhere.
  - apply IH; [exact Hg|]. destruct Hg as (_ & Hm & _). eapply Hm. exact Hhere.
  - set (lbl := match rest with [] => File | _ => Folder end).
    set (node := deriveId lbl here seg).
    set (n := {| id := node; label := lbl; name := seg; filePath := here;
                 startLine := 0; endLine := 0; content := "" |}).
    assert (Hnode : node ∈ nodeIds (created (addNode n g))).
    { rewrite nodeIds_addNode. apply elem_of_app. right.
      apply list_elem_of_singleton. reflexivity. }
    assert (Hnode' : node ∈ nodeIds (created
              (addEdge {| from := parent; to := node; type := CONTAINS |} (addNode n g)))).
    { rewrite nodeIds_addEdge. exact Hnode. }
    apply IH.
    + apply grounded_remember; [|exact Hnode'].
      apply grounded_addEdge; [apply grounded_addNode; exact Hg | | exact Hnode].
      cbn [from]. rewrite nodeIds_addNode. apply elem_of_app. left. exact Hp.
    + exact Hnode'.
Qed.

Lemma grounded_withRoot g :
  grounded g ->
  grounded (snd (withRoot deriveId g)) /\
  fst (withRoot deriveId g) ∈ nodeIds (created (snd (withRoot deriveId g))).
Proof.
  intros Hg. unfold withRoot.
  destruct (nodeOf g !! "") as [root|] eqn:Hr; simpl.
  - split; [exact Hg|]. destruct Hg as (_ & Hm & _). eapply Hm. exact Hr.
  - assert (Hroot : deriveId Folder "" "" ∈
                    nodeIds (created g ++
                      [NodeCreated {| id := deriveId Folder "" ""; label := Folder;
                                      name := ""; filePath := ""; startLine := 0;
                                      endLine := 0; content := "" |}])).
    { rewrite nodeIds_app. apply elem_of_app. right.
      apply list_elem_of_singleton. reflexivity. }
    split; [|exact Hroot].
    apply grounded_remember; [apply grounded_addNode; exact Hg | exact Hroot].
Qed.

Lemma grounded_structurePath g path :
  grounded g -> grounded (structurePath deriveId g path).
Proof.
  intros Hg. unfold structurePath.
  destruct (grounded_withRoot g Hg) as [Hg' Hroot].
  destruct (withRoot deriveId g) as [root g1]. simpl in Hg', Hroot.
  apply grounded_walk; assumption.
Qed.

Lemma grounded_structurePhase snap g :
  grounded g -> grounded (structurePhase deriveId snap g).
Proof.
  unfold structurePhase. revert g.
  induction (paths snap) as [|p ps IH]; intros g Hg; [exact Hg|].
  simpl. apply IH. apply grounded_structurePath. exact Hg.
Qed.

Lemma grounded_parseFile snap g cache path :
  grounded g ->
  grounded (fst (parseFile deriveId parse declarationsOf snap (g, cache) path)).
Proof.
  intros Hg. unfold parseFile.
  destruct (parse path (textOf snap path)) as [tree|]; [|exact Hg].
  destruct (nodeOf g !! path) as [fileNode|] eqn:Hn; [|exact Hg].
  simpl. apply grounded_count. apply grounded_declarations; [exact Hg|].
  destruct Hg as (_ & Hm & _). eapply Hm. exact Hn.
Qed.

Lemma grounded_importOne snap g file fileNode imp :
  grounded g -> fileNode ∈ nodeIds (created g) ->
  grounded (importOne extensions snap file fileNode g imp) /\
  fileNode ∈ nodeIds (created (importOne extensions snap file fileNode g imp)).
Proof.
  intros Hg Hf. unfold importOne. destruct imp as [specifier alias].
  destruct (resolveSpecifier extensions snap specifier) as [target|]; [|auto].
  destruct (nodeOf g !! target) as [targetNode|] eqn:Ht; [|auto].
  split.
  - apply grounded_bindAlias. apply grounded_addEdge; [exact Hg | exact Hf |].
    destruct Hg as (_ & Hm & _). eapply Hm. exact Ht.
  - cbn [bindAlias created]. rewrite nodeIds_addEdge. exact Hf.
Qed.

Lemma resolve_grounded g calleeName file tier target :
  grounded g ->
  CallResolver.resolve (symbols g) (importMaps g) calleeName file = Some (tier, target) ->
  target ∈ nodeIds (created g).
Proof.
  intros (_ & _ & Hl & Hgl). unfold CallResolver.resolve.
  destruct (CallResolver.viaImportMap _ _ _ _) as [n1|] eqn:H1.
  { intros [= _ <-]. unfold CallResolver.viaImportMap in H1.
    destruct (importMaps g !! file) as [aliases|]; [|discriminate].
    destruct (aliases !! calleeName) as [targetFile|]; [|discriminate].
    eapply Hl. exact H1. }
  destruct (CallResolver.viaLocalScope _ _ _) as [n2|] eqn:H2.
  { intros [= _ <-]. eapply Hl. exact H2. }
  destruct (CallResolver.viaGlobal _ _) as [n3|] eqn:H3; [|discriminate].
  intros [= _ <-]. unfold CallResolver.viaGlobal in H3.
  destruct (SymbolTable.lookupGlobal (symbols g) calleeName) as [|d ds] eqn:Hd;
    [discriminate|].
  injection H3 as <-. apply (Hgl calleeName). rewrite Hd. apply list_elem_of_here.
Qed.

Lemma grounded_callOne g file fileNode calleeName :
  grounded g -> fileNode ∈ nodeIds (created g) ->
  grounded (callOne file fileNode g calleeName) /\
  fileNode ∈ nodeIds (created (callOne file fileNode g calleeName)).
Proof.
  intros Hg Hf. unfold callOne.
  destruct (CallResolver.resolve _ _ _ _) as [[tier target]|] eqn:Hr; [|auto].
  split.
  - apply grounded_addEdge; [exact Hg | exact Hf |].
    eapply resolve_grounded; eassumption.
  - rewrite nodeIds_addEdge. exact Hf.
Qed.

Lemma grounded_perFile {A} (items : Tree -> list A)
    (work : string -> string -> Graph -> A -> Graph) snap g cache path :
  (forall g file fileNode a,
      grounded g -> fileNode ∈ nodeIds (created g) ->
      grounded (work file fileNode g a) /\
      fileNode ∈ nodeIds (created (work file fileNode g a))) ->
  grounded g ->
  grounded (fst (perFile parse items work snap (g, cache) path)).
Proof.
  intros Hwork Hg. unfold perFile.
  destruct (treeOf parse snap path cache) as [[tree|] cache']; [|exact Hg].
  destruct (nodeOf g !! path) as [fileNode|] eqn:Hn; [|exact Hg].
  simpl.
  assert (Hf : fileNode ∈ nodeIds (created g)).
  { destruct Hg as (_ & Hm & _). eapply Hm. exact Hn. }
  clear Hn. revert g Hg Hf.
  induction (items tree) as [|a l IH]; intros g Hg Hf; [exact Hg|].
  simpl. destruct (Hwork g path fileNode a Hg Hf) as [Hg' Hf'].
  apply IH; assumption.
Qed.

Lemma grounded_fold (step : Graph * ASTCache.Cache Tree -> string ->
                            Graph * ASTCache.Cache Tree) ps :
  (forall g cache path, grounded g -> grounded (fst (step (g, cache) path))) ->
  forall s, grounded (fst s) -> grounded (fst (fold_left step ps s)).
Proof.
  intros Hstep. induction ps as [|p ps IH]; intros s Hs; [exact Hs|].
  simpl. apply IH. destruct s as [g cache]. apply Hstep. exact Hs.
Qed.

Lemma grounded_phases C snap :
  grounded (fst (phases deriveId parse declarationsOf importsOf callsOf
                   extensions C snap)).
Proof.
  unfold phases. cbn [fst].
  unfold callsPhase, importsPhase, parsePhase.
  apply grounded_fold.
  { intros g cache path Hg. apply grounded_perFile; [|exact Hg].
    intros g' file fileNode a. apply grounded_callOne. }
  apply grounded_fold.
  { intros g cache path Hg. apply grounded_perFile; [|exact Hg].
    intros g' file fileNode a. apply grounded_importOne. }
  apply grounded_fold.
  { intros g cache path Hg. apply grounded_parseFile. exact Hg. }
  simpl. apply grounded_structurePhase. apply grounded_empty.
Qed.

(** C6. In the log of creations of a pipeline run, every edge comes after
    the creation of both nodes it connects, so at every point of the run
    the edges created so far connect nodes created before them; and in the
    final output every edge has both endpoints in the node set. *)
Theorem edges_connect_existing_nodes (C : nat) (archive : Archive)
    (g : Graph) (cache : ASTCache.Cache Tree) :
  runPipeline extract deriveId parse declarationsOf importsOf callsOf
    extensions C archive = Some (g, cache) ->
  (forall before e after,
      created g = before ++ EdgeCreated e :: after ->
      from e ∈ nodeIds before /\ to e ∈ nodeIds before) /\
  (forall e, e ∈ edgesOf (created g) ->
      from e ∈ List.map id (nodesOf (created g)) /\
      to e ∈ List.map id (nodesOf (created g))).
Proof.
  unfold runPipeline. destruct (extract archive) as [snap|]; [|discriminate].
  intros H.
  assert (Hg : phases deriveId parse declarationsOf importsOf callsOf extensions
                 C snap = (g, cache)) by congruence.
  pose proof (grounded_phases C snap) as Hgr. rewrite Hg in Hgr.
  destruct Hgr as (He & _). cbn [fst] in He. split; [exact He|].
  intros e Hin.
  assert (Hsplit : exists before after, created g = before ++ EdgeCreated e :: after).
  { clear He. induction (created g) as [|[n|e'] log IH]; simpl in Hin.
    - inversion Hin.
    - destruct (IH Hin) as (before & after & ->).
      exists (NodeCreated n :: before), after. reflexivity.
    - apply elem_of_cons in Hin as [-> | Hin].
      + exists [], log. reflexivity.
      + destruct (IH Hin) as (before & after & ->).
        exists (EdgeCreated e' :: before), after. reflexivity. }
  destruct Hsplit as (before & after & Hlog).
  destruct (He before e after Hlog) as [Hf Ht].
  rewrite Hlog. fold (nodeIds (before ++ EdgeCreated e :: after)).
  split; apply nodeIds_grow; assumption.
Qed.

End Referential.

Section SampleRun.

Import Ingestion.

(** The sample run yields the graph of the specification's end-to-end
    example: the root folder, the three files and [foo]; [b.ts] imports
    [a.ts] and calls [foo], the call to [bar] is dropped and counted. *)
Example sample_run_graph :
  option_map (fun s => (List.map id (nodesOf (created (fst s))),
                        edgesOf (created (fst s)),
                        summary (fst s))) (Sample.run 1) =
  Some (["Folder:#"; "File:a.ts#a.ts"; "File:b.ts#b.ts"; "File:README.md#README.md";
         "Function:a.ts#foo"],
        [{| from := "Folder:#"; to := "File:a.ts#a.ts"; type := CONTAINS |};
         {| from := "Folder:#"; to := "File:b.ts#b.ts"; type := CONTAINS |};
         {| from := "Folder:#"; to := "File:README.md#README.md"; type := CONTAINS |};
         {| from := "File:a.ts#a.ts"; to := "Function:a.ts#foo"; type := DEFINES |};
         {| from := "File:b.ts#b.ts"; to := "File:a.ts#a.ts"; type := IMPORTS |};
         {| from := "File:b.ts#b.ts"; to := "Function:a.ts#foo"; type := CALLS |}],
        {| filesProcessed := 2; filesSkipped := 1;
           importsUnresolved := 0; callsUnresolved := 1 |}).
Proof. vm_compute. reflexivity. Qed.

Lemma edges_connect_existing_nodes_witness :
  exists g cache,
    Sample.run 1 = Some (g, cache) /\
    forall e, e ∈ edgesOf (created g) ->
      from e ∈ List.map id (nodesOf (created g)) /\
      to e ∈ List.map id (nodesOf (created g)).
Proof.
  destruct (Sample.run 1) as [[g cache]|] eqn:Hrun; [|vm_compute in Hrun; discriminate].
  exists g, cache. split; [reflexivity|].
  exact (proj2 (edges_connect_existing_nodes Sample.extract Sample.deriveId
                  Sample.parse Sample.declarationsOf Sample.importsOf
                  Sample.callsOf Sample.extensions 1 Sample.snapshot g cache Hrun)).
Defined.

End SampleRun.

(** ** The embedder beyond the singleton property *)

Section EmbedderLoads.

Import Embedder EmbedderTraces.

Implicit Types (s : State) (tr : list Event) (ev : Event) (ts : list Task).

Lemma pendingDevices_app ts1 ts2 :
  pendingDevices (ts1 ++ ts2) = pendingDevices ts1 + pendingDevices ts2.
Proof.
  unfold pendingDevices. rewrite List.map_app.
  induction (List.map _ ts1) as [|x l IH]; simpl; [reflexivity | lia].
Qed.

Lemma dropTask_pending pr ts : pendingDevices (dropTask pr ts) <= pendingDevices ts.
Proof.
  unfold pendingDevices, dropTask. induction ts as [|t ts IH]; simpl; [lia|].
  destruct (negb (tpromise t =? pr)); simpl; lia.
Qed.

Lemma dropTask_ids pr ts :
  NoDup (List.map tpromise ts) -> NoDup (List.map tpromise (dropTask pr ts)).
Proof.
  unfold dropTask. induction ts as [|t ts IH]; simpl; [auto|].
  intros Hnd. apply NoDup_cons in Hnd as [Hnotin Hnd].
  destruct (negb (tpromise t =? pr)); simpl; [|auto].
  apply NoDup_cons. split; [|auto].
  intros Hin. apply Hnotin.
  apply list_elem_of_fmap in Hin as (t' & -> & Hin).
  apply list_elem_of_fmap. exists t'. split; [reflexivity|].
  apply list_elem_of_In. apply list_elem_of_In in Hin.
  apply List.filter_In in Hin. tauto.
Qed.

Lemma dropTask_below pr ts n :
  Forall (fun t => tpromise t < n) ts -> Forall (fun t => tpromise t < n) (dropTask pr ts).
Proof.
  unfold dropTask. induction 1 as [|t ts Ht Hts IH]; simpl; [constructor|].
  destruct (negb (tpromise t =? pr)); [constructor|]; assumption.
Qed.

Lemma replaceTask_ids t' ts :
  List.map tpromise (replaceTask t' ts) = List.map tpromise ts.
Proof.
  unfold replaceTask. induction ts as [|t ts IH]; simpl; [reflexivity|].
  rewrite IH. destruct (Nat.eqb_spec (tpromise t) (tpromise t')) as [->|]; reflexivity.
Qed.

Lemma replaceTask_absent t' ts :
  tpromise t' ∉ List.map tpromise ts -> replaceTask t' ts = ts.
Proof.
  unfold replaceTask. induction ts as [|t ts IH]; simpl; [reflexivity|].
  intros Hnotin. apply not_elem_of_cons in Hnotin as [Hne Hnotin].
  rewrite IH by assumption.
  destruct (Nat.eqb_spec (tpromise t) (tpromise t')); [congruence | reflexivity].
Qed.

Lemma replaceTask_pending pr d ds ts t :
  NoDup (List.map tpromise ts) ->
  List.find (fun t => tpromise t =? pr) ts = Some t ->
  tremaining t = d :: ds ->
  S (pendingDevices (replaceTask {| tpromise := pr; tdevice := d; tremaining := ds |} ts))
  = pendingDevices ts.
Proof.
  unfold pendingDevices.
  induction ts as [|t0 ts IH]; simpl; [discriminate|].
  intros Hnd Hfind Hrem. apply NoDup_cons in Hnd as [Hnotin Hnd].
  destruct (Nat.eqb_spec (tpromise t0) pr) as [Heq | Hne].
  - injection Hfind as ->. rewrite Hrem. simpl.
    fold (replaceTask {| tpromise := pr; tdevice := d; tremaining := ds |} ts).
    rewrite replaceTask_absent; [lia|]. simpl. rewrite <- Heq. exact Hnotin.
  - simpl. specialize (IH Hnd Hfind Hrem). lia.
Qed.

Lemma accounted_step n s ev :
  accounted n s ->
  accounted (match ev with InitEmbedder _ => S n | _ => n end) (fst (step s ev)).
Proof.
  intros (Hnd & Hlt & Hsum). pose proof (conj Hnd (conj Hlt Hsum)) as Hkeep.
  destruct ev as [d | pr p | pr e | b | ]; simpl.
  - unfold initEmbedder.
    assert (Hweak : accounted (S n) s).
    { split; [exact Hnd|]. split; [exact Hlt|]. lia. }
    destruct (embedderInstance s); [exact Hweak|].
    destruct (isInitializing s), (initPromise s); try exact Hweak.
    all: split; [|split]; simpl.
    all: try (rewrite List.map_app; simpl; apply NoDup_app; split; [exact Hnd|];
              split; [|apply NoDup_singleton];
              intros x Hx Hx'; apply list_elem_of_singleton in Hx'; subst x;
              apply list_elem_of_fmap in Hx as (t & Ht & Hin);
              rewrite Forall_forall in Hlt; specialize (Hlt t Hin); lia).
    all: try (apply Forall_app; split;
              [eapply Forall_impl; [exact Hlt | intros t Ht; simpl in Ht; lia]
              |constructor; [simpl; lia | constructor]]).
    all: rewrite length_app, pendingDevices_app; unfold pendingDevices at 2;
         destruct d; simpl; lia.
  - unfold pipelineResolves. destruct (findTask pr s); [|exact Hkeep].
    split; [|split]; simpl.
    + apply dropTask_ids. exact Hnd.
    + apply dropTask_below. exact Hlt.
    + pose proof (dropTask_pending pr (tasks s)). lia.
  - unfold pipelineRejects. unfold findTask.
    destruct (List.find _ (tasks s)) as [t|] eqn:Hfind; [|exact Hkeep].
    destruct (tremaining t) as [|d ds] eqn:Hrem.
    + destruct (embedderInstance s); (split; [|split]); simpl;
        try (apply dropTask_ids; exact Hnd); try (apply dropTask_below; exact Hlt);
        pose proof (dropTask_pending pr (tasks s)); lia.
    + split; [|split]; simpl.
      * rewrite replaceTask_ids. exact Hnd.
      * apply Forall_forall. intros t' Hin.
        apply list_elem_of_In, List.in_map_iff in Hin as (t0 & <- & Hin0).
        rewrite Forall_forall in Hlt.
        apply list_elem_of_In in Hin0. specialize (Hlt t0 Hin0). simpl.
        destruct (Nat.eqb_spec (tpromise t0) pr) as [Heq|]; simpl; lia.
      * rewrite length_app. simpl.
        pose proof (replaceTask_pending pr d ds (tasks s) t Hnd Hfind Hrem). lia.
  - unfold disposeEmbedder. destruct (embedderInstance s); [|exact Hkeep].
    destruct b; exact Hkeep.
  - unfold disposeResumes. destruct (disposing s); exact Hkeep.
Qed.

Lemma accounted_run tr : forall n s,
  accounted n s -> accounted (n + initCalls tr) (fst (run s tr)).
Proof.
  induction tr as [|ev tr IH]; intros n s Ha.
  - simpl. rewrite Nat.add_0_r. exact Ha.
  - rewrite run_cons. cbn [fst].
    pose proof (accounted_step n s ev Ha) as Hstep.
    apply IH in Hstep. destruct ev; simpl in *;
      rewrite ?Nat.add_succ_r; rewrite ?Nat.add_succ_l in Hstep; exact Hstep.
Qed.

(** X1. Whatever happens to the module, disposals included, the model is
    loaded at most twice per [initEmbedder] call (once per device of
    [devicesToTry]), and the initialisations in flight can only add what is
    left of that budget. *)
Theorem loads_at_most_twice_per_call tr :
  length (loads (fst (run initial tr))) +
  pendingDevices (tasks (fst (run initial tr))) <= 2 * initCalls tr.
Proof.
  assert (H0 : accounted 0 initial).
  { split; [constructor|]. split; [constructor|]. cbv. lia. }
  destruct (accounted_run tr 0 initial H0) as (_ & _ & Hsum).
  exact Hsum.
Qed.

Lemma wasm_step s ev :
  wasmOnly [ev] ->
  Forall (fun t => tremaining t = []) (tasks s) -> Forall (eq wasm) (loads s) ->
  Forall (fun t => tremaining t = []) (tasks (fst (step s ev))) /\
  Forall (eq wasm) (loads (fst (step s ev))).
Proof.
  intros Hw Ht Hl. apply Forall_inv in Hw.
  destruct ev as [d | pr p | pr e | b | ]; simpl.
  - destruct d; [destruct Hw|]. unfold initEmbedder.
    destruct (embedderInstance s); [auto|].
    destruct (isInitializing s), (initPromise s); auto; simpl;
      (split; [apply Forall_app; split; [exact Ht | repeat constructor]
              |apply Forall_app; split; [exact Hl | repeat constructor]]).
  - unfold pipelineResolves. destruct (findTask pr s) as [found|]; [|auto]. simpl.
    split; [|exact Hl]. unfold dropTask.
    apply Forall_forall. intros t Hin. rewrite Forall_forall in Ht. apply Ht.
    apply list_elem_of_In in Hin. apply List.filter_In in Hin as [Hin _].
    apply list_elem_of_In. exact Hin.
  - unfold pipelineRejects, findTask.
    destruct (List.find _ (tasks s)) as [t|] eqn:Hfind; [|auto].
    assert (Hrem : tremaining t = []).
    { apply List.find_some in Hfind as [Hin _].
      rewrite Forall_forall in Ht. apply Ht. apply list_elem_of_In. exact Hin. }
    rewrite Hrem.
    assert (Hdrop : Forall (fun t => tremaining t = []) (dropTask pr (tasks s))).
    { unfold dropTask. apply Forall_forall. intros t0 Hin.
      rewrite Forall_forall in Ht. apply Ht.
      apply list_elem_of_In in Hin. apply List.filter_In in Hin as [Hin _].
      apply list_elem_of_In. exact Hin. }
    destruct (embedderInstance s); simpl; auto.
  - unfold disposeEmbedder. destruct (embedderInstance s); [|auto].
    destruct b; auto.
  - unfold disposeResumes. destruct (disposing s); auto.
Qed.

(** X2. When every call asks for wasm, WebGPU is never tried: all loads are
    wasm loads, one per initialisation started. *)
Theorem wasm_config_never_tries_webgpu tr :
  wasmOnly tr ->
  Forall (eq wasm) (loads (fst (run initial tr))) /\
  length (loads (fst (run initial tr))) <= initCalls tr.
Proof.
  intros Hw.
  assert (Hgen : forall tr s,
             wasmOnly tr ->
             Forall (fun t => tremaining t = []) (tasks s) -> Forall (eq wasm) (loads s) ->
             Forall (fun t => tremaining t = []) (tasks (fst (run s tr))) /\
             Forall (eq wasm) (loads (fst (run s tr))) /\
             length (loads (fst (run s tr))) <= length (loads s) + initCalls tr).
  { clear. induction tr as [|ev tr IH]; intros s Hw Ht Hl.
    - simpl. split; [exact Ht|]. split; [exact Hl | lia].
    - rewrite run_cons. cbn [fst]. apply Forall_cons in Hw as [Hev Hw].
      destruct (wasm_step s ev (Forall_cons_2 _ _ _ Hev (Forall_nil_2 _)) Ht Hl)
        as [Ht' Hl'].
      destruct (IH _ Hw Ht' Hl') as (A & B & C).
      split; [exact A|]. split; [exact B|].
      assert (Hone : length (loads (fst (step s ev))) <=
                     length (loads s) + match ev with InitEmbedder _ => 1 | _ => 0 end).
      { destruct ev as [d | pr p | pr e | b | ]; simpl.
        - unfold initEmbedder. destruct (embedderInstance s); [simpl; lia|].
          destruct (isInitializing s), (initPromise s); simpl;
            rewrite ?length_app; simpl; lia.
        - unfold pipelineResolves. destruct (findTask pr s); simpl; lia.
        - unfold pipelineRejects, findTask.
          destruct (List.find _ (tasks s)) as [t|] eqn:Hfind; [|lia].
          assert (Hrem : tremaining t = []).
          { apply List.find_some in Hfind as [Hin _].
            rewrite Forall_forall in Ht. apply Ht. apply list_elem_of_In. exact Hin. }
          rewrite Hrem. destruct (embedderInstance s); simpl; lia.
        - unfold disposeEmbedder. destruct (embedderInstance s); [|lia].
          destruct b; simpl; lia.
        - unfold disposeResumes. destruct (disposing s); simpl; lia. }
      destruct ev; simpl in *; lia. }
  destruct (Hgen tr initial Hw) as (_ & B & C); [constructor | constructor |].
  split; [exact B | exact C].
Qed.

Lemma wasm_config_never_tries_webgpu_witness :
  let tr := [InitEmbedder wasm; PipelineRejects 0 "out of memory";
             DisposeEmbedder true; InitEmbedder wasm; PipelineResolves 1 4] in
  wasmOnly tr /\
  loads (fst (run initial tr)) = [wasm; wasm].
Proof.
  intros tr.
  assert (Hw : wasmOnly tr) by (repeat constructor).
  split; [exact Hw|].
  destruct (wasm_config_never_tries_webgpu tr Hw) as [_ _].
  reflexivity.
Defined.

End EmbedderLoads.

Section EmbedderFlight.

Import Embedder.

Implicit Types (s : State) (tr : list Event).

(** X3. Without disposals at most one initialisation is in flight,
    [isInitializing] is true exactly while it is, and the module is never
    ready and loading at once. *)
Theorem single_flight_without_dispose tr :
  quiet tr ->
  let s := fst (run initial tr) in
  length (tasks s) <= 1 /\
  (isInitializing s = true <-> tasks s <> []) /\
  (isEmbedderReady s = true -> tasks s = [] /\ isInitializing s = false) /\
  (forall t, In t (tasks s) -> initPromise s = Some (tpromise t)).
Proof.
  intros Hq s.
  assert (Hc : calm s) by (apply quiet_run_calm; [assumption | apply calm_initial]).
  destruct Hc as [_ [[Ht Hi] | (t & Ht & Hn & Hi & Hp)]].
  - rewrite Ht, Hi. simpl. split; [lia|]. split; [split; [discriminate | congruence]|].
    split; [auto|]. intros t [].
  - rewrite Ht, Hi. simpl. split; [lia|]. split; [split; [discriminate | reflexivity]|].
    split.
    + unfold isEmbedderReady. rewrite Hn. discriminate.
    + intros t' [<- | []]. exact Hp.
Qed.

Lemma single_flight_without_dispose_witness :
  let tr := [InitEmbedder webgpu; InitEmbedder wasm; PipelineRejects 0 "no gpu"] in
  quiet tr /\
  List.map tdevice (tasks (fst (run initial tr))) = [wasm] /\
  length (tasks (fst (run initial tr))) <= 1.
Proof.
  intros tr.
  assert (Hq : quiet tr) by (repeat constructor).
  split; [exact Hq|]. split; [reflexivity|].
  exact (proj1 (single_flight_without_dispose tr Hq)).
Defined.







End EmbedderFlight.

Section EmbedderCalls.

Import Embedder.

Context {F : Type}.
Variable model : Pipeline -> list string -> Js.Settle (list F).

(** X7. [embedText] and [embedBatch] (on a list that is not empty) throw the
    error of [getEmbedder] exactly when no instance exists, and then the
    model is not run; with an instance, the only failure is a rejection
    by the model. *)
Theorem embedding_throws_iff_uninitialized (text : string) (texts : list string)
    (s : State) :
  texts <> [] ->
  let notReady := Js.Thrown "Embedder not initialized. Call initEmbedder() first." in
  (isEmbedderReady s = false <->
   fst (embedText model text s) = Js.Err notReady) /\
  (isEmbedderReady s = false <->
   fst (embedBatch model texts s) = Js.Err notReady) /\
  (isEmbedderReady s = false ->
   snd (embedText model text s) = [] /\ snd (embedBatch model texts s) = []) /\
  (forall msg,
      fst (embedText model text s) = Js.Err (Js.Thrown msg) \/
      fst (embedBatch model texts s) = Js.Err (Js.Thrown msg) ->
      isEmbedderReady s = false) /\
  (isEmbedderReady s = true ->
   snd (embedText model text s) = [[text]] /\ snd (embedBatch model texts s) = [texts]).
Proof.
  intros Hne notReady. subst notReady.
  unfold isEmbedderReady, embedText, embedBatch, getEmbedder.
  destruct texts as [|t0 texts']; [congruence|].
  destruct (embedderInstance s) as [p|]; simpl.
  - destruct (model p [text]) as [data | b msg];
      destruct (model p (t0 :: texts')) as [data' | b' msg']; simpl;
      repeat split; try discriminate; try reflexivity;
      intros msg0 [H | H]; discriminate H.
  - repeat split; try reflexivity; discriminate.
Qed.

Lemma concat_rows (data : list F) (n : nat) :
  concat (List.map (fun j => Js.slice data (j * dimensions) (j * dimensions + dimensions))
                   (seq 0 n)) = take (n * dimensions) data.
Proof.
  generalize dimensions. intros d.
  induction n as [|n IH]; [reflexivity|].
  rewrite seq_S, List.map_app, concat_app, IH. simpl.
  rewrite app_nil_r. unfold Js.slice.
  replace (n * d + d - n * d) with d by lia.
  rewrite take_take_drop. f_equal. lia.
Qed.

(** X8. Cutting the tensor into rows loses and invents nothing: the rows of
    [embedBatch], laid end to end, are the first [n * 384] entries of the
    model output, hence the whole output when it has its shape. *)
Theorem embedBatch_rows_cover_tensor (texts : list string) (s : State)
    (p : Pipeline) (data : list F) :
  embedderInstance s = Some p ->
  model p texts = Js.Fulfil data ->
  exists vectors,
    fst (embedBatch model texts s) = Js.Ok vectors /\
    concat vectors = take (length texts * 384) data /\
    (length data = length texts * 384 -> concat vectors = data).
Proof.
  intros He Hm.
  assert (Hrows : concat (splitRows data (length texts)) =
                  take (length texts * 384) data).
  { unfold splitRows. rewrite embedLoop_rows. simpl. apply concat_rows. }
  destruct texts as [|t0 texts'] eqn:Ht.
  - exists []. simpl. split; [reflexivity|]. split; [reflexivity|].
    intros Hlen. destruct data; [reflexivity | discriminate].
  - rewrite <- Ht in *. exists (splitRows data (length texts)).
    split.
    + unfold embedBatch, getEmbedder. rewrite He, Hm, Ht. reflexivity.
    + split; [exact Hrows|]. intros Hlen. rewrite Hrows, <- Hlen.
      apply firstn_all.
Qed.

End EmbedderCalls.

Lemma embedding_throws_iff_uninitialized_witness :
  fst (Embedder.embedBatch (fun _ _ => Js.Fulfil ([] : list nat)) ["a"] Embedder.initial) =
  Js.Err (Js.Thrown "Embedder not initialized. Call initEmbedder() first.").
Proof.
  destruct (embedding_throws_iff_uninitialized
              (fun _ _ => Js.Fulfil ([] : list nat)) "q" ["a"] Embedder.initial)
    as (_ & Hb & _); [discriminate|].
  apply Hb. reflexivity.
Defined.


Lemma embedBatch_rows_cover_tensor_witness :
  let model := fun (_ : Embedder.Pipeline) (texts : list string) =>
                 Js.Fulfil (seq 0 (384 * length texts)) in
  let s := fst (Embedder.run Embedder.initial
                  [Embedder.InitEmbedder Embedder.wasm; Embedder.PipelineResolves 0 1]) in
  exists vectors,
    fst (Embedder.embedBatch model ["a"; "b"; "c"] s) = Js.Ok vectors /\
    concat vectors = seq 0 1152.
Proof.
  intros model s.
  destruct (embedBatch_rows_cover_tensor model ["a"; "b"; "c"] s 1 (seq 0 1152)
              eq_refl eq_refl) as (vectors & Hres & _ & Hall).
  exists vectors. split; [exact Hres|]. apply Hall. reflexivity.
Defined.

(** ** Runs of the embedding pipeline *)

Section PipelineRuns.

Import EmbeddingPipeline EmbeddingRun.

Context {Num D : Type}.
Variable numToString : Num -> string.
Variable ofZ : Z -> Num.
Variable scaleDownload : Num -> Num.
Variable embeddingPercent : nat -> nat -> Num.
Variable executeQuery : string -> D -> Js.Settle (list (gmap string (Js.Val Num))) * D.
Variable model : Embedder.Pipeline -> list string -> Js.Settle (list Num).
Variable loadModel :
  Embedder.Device -> list (ModelProgress Num) * (Embedder.Pipeline + string).
Variable EMBEDDABLE_LABELS : list string.
Variable generateBatchEmbeddingTexts : list (EmbeddableNode Num) -> list string.

Implicit Types (w : World Num D) (updates : list (string * list Num)).

Local Abbreviation updateText :=
  (fun update : string * list Num =>
     updateNodeEmbeddingQuery numToString (fst update) (snd update)).
Local Abbreviation batchUpdate := (batchUpdateEmbeddings numToString executeQuery).

Lemma batchUpdateEmbeddings_cons update updates w :
  batchUpdate (update :: updates) w =
  match executeQuery (updateText update) (database w) with
  | (Js.Fulfil _, d) =>
    batchUpdate updates
      {| embedder := embedder w; database := d;
         issued := issued w ++ [updateText update];
         reported := reported w; modelRuns := modelRuns w |}
  | (Js.Reject b msg, d) =>
    (Js.Err (Js.Rejected b msg),
     {| embedder := embedder w; database := d;
        issued := issued w ++ [updateText update];
        reported := reported w; modelRuns := modelRuns w |})
  end.
Proof.
  cbn [batchUpdateEmbeddings]. unfold bind at 1.
  unfold updateNodeEmbedding, bind, query, ret.
  destruct (executeQuery _ (database w)) as [[rows | b msg] d]; reflexivity.
Qed.

Lemma acceptedInTurn_app texts1 texts2 (d : D) :
  acceptedInTurn executeQuery (texts1 ++ texts2) d =
  acceptedInTurn executeQuery texts1 d &&
  acceptedInTurn executeQuery texts2 (databaseAfter executeQuery texts1 d).
Proof.
  revert d. induction texts1 as [|text texts1 IH]; intros d; [reflexivity|].
  simpl. destruct (executeQuery text d) as [[rows | b msg] d'] eqn:Hq.
  - rewrite IH. reflexivity.
  - reflexivity.
Qed.

(** X9. [batchUpdateEmbeddings] hands the sink one statement per update,
    in the order of the updates, each after the sink has answered the one
    before. It returns exactly when the sink fulfils every statement in
    turn, and then all of them have been issued. Otherwise it throws the
    rejection of the first statement the sink rejects: the statements
    before that one were fulfilled, that one is the last one issued, and
    the updates after it are never handed to the sink. The statements
    fulfilled before the rejection have been carried out: nothing is
    rolled back. *)
Theorem batchUpdateEmbeddings_stops_at_first_rejection updates w :
  let r := batchUpdate updates w in
  let texts := List.map updateText updates in
  (fst r = Js.Ok tt <-> acceptedInTurn executeQuery texts (database w) = true) /\
  exists n,
    n <= length updates /\
    issued (snd r) = issued w ++ take n texts /\
    database (snd r) = databaseAfter executeQuery (take n texts) (database w) /\
    embedder (snd r) = embedder w /\ reported (snd r) = reported w /\
    modelRuns (snd r) = modelRuns w /\
    ((fst r = Js.Ok tt /\ n = length updates) \/
     (exists update b msg,
        fst r = Js.Err (Js.Rejected b msg) /\
        updates !! (n - 1) = Some update /\ 0 < n /\
        acceptedInTurn executeQuery (take (n - 1) texts) (database w) = true /\
        fst (executeQuery (updateText update)
               (databaseAfter executeQuery (take (n - 1) texts) (database w)))
          = Js.Reject b msg)).
Proof.
  cbv zeta. revert w. induction updates as [|update updates IH]; intros w.
  - split; [split; reflexivity|]. exists 0. simpl. rewrite app_nil_r.
    repeat split; try reflexivity. left. split; reflexivity.
  - rewrite batchUpdateEmbeddings_cons. cbn [List.map acceptedInTurn].
    destruct (executeQuery (updateText update) (database w)) as [[rows | b msg] d] eqn:Hq.
    + match goal with
      | |- context [batchUpdate updates ?w1] => destruct (IH w1)
          as (Hiff & n & Hn & Hi & Hd & He & Hr & Hm & Hout)
      end.
      cbn [embedder database issued reported modelRuns] in Hiff, Hi, Hd, He, Hr, Hm, Hout.
      split; [exact Hiff|].
      exists (S n). cbn [take length].
      split; [lia|]. split; [rewrite Hi, <- app_assoc; reflexivity|].
      split; [rewrite Hd; simpl; rewrite Hq; reflexivity|].
      split; [exact He|]. split; [exact Hr|]. split; [exact Hm|].
      destruct Hout as [[Hok ->] | (u & b & msg & Hres & Hu & Hpos & Hacc & Hrej)].
      * left. split; [exact Hok | reflexivity].
      * right. exists u, b, msg. replace (S n - 1) with (S (n - 1)) by lia.
        cbn [take acceptedInTurn]. simpl databaseAfter. rewrite Hq. simpl snd.
        split; [exact Hres|]. split.
        { destruct n; [lia|]. simpl. simpl in Hu. rewrite Nat.sub_0_r in *. exact Hu. }
        split; [lia|]. split; [exact Hacc | exact Hrej].
    + split; [split; discriminate|].
      exists 1. cbn [take List.map length fst snd embedder database issued reported
                     modelRuns].
      split; [lia|]. split; [reflexivity|].
      split; [simpl; rewrite Hq; reflexivity|].
      split; [reflexivity|]. split; [reflexivity|]. split; [reflexivity|].
      right. exists update, b, msg. simpl. rewrite Hq.
      repeat split. lia.
Qed.

(** X10. A search embeds the query text in one model run and, when that
    run fulfils, hands the sink exactly one statement, which carries the
    vector the model returned; what the sink answers is what the caller
    gets: a rejection is passed on, the rows are mapped one to one by
    [semanticSearch] and returned as they are by
    [semanticSearchWithContext]. When the model run rejects, the rejection
    is passed on and the sink is not asked. The database is touched by
    that one statement only. *)
Theorem semanticSearch_one_model_run_one_statement q k maxDistance hops w p :
  Embedder.embedderInstance (embedder w) = Some p ->
  let search := semanticSearch numToString executeQuery model q k maxDistance w in
  let searchCtx := semanticSearchWithContext numToString executeQuery model q k hops w in
  modelRuns (snd search) = modelRuns w ++ [[q]] /\
  modelRuns (snd searchCtx) = modelRuns w ++ [[q]] /\
  (forall b msg, model p [q] = Js.Reject b msg ->
     fst search = Js.Err (Js.Rejected b msg) /\
     fst searchCtx = Js.Err (Js.Rejected b msg) /\
     issued (snd search) = issued w /\ issued (snd searchCtx) = issued w /\
     database (snd search) = database w /\ database (snd searchCtx) = database w) /\
  (forall v, model p [q] = Js.Fulfil v ->
     let text := semanticSearchQuery numToString (vectorLiteral numToString v)
                   k maxDistance in
     let textCtx := semanticSearchWithContextQuery numToString
                      (vectorLiteral numToString v) k hops in
     issued (snd search) = issued w ++ [text] /\
     issued (snd searchCtx) = issued w ++ [textCtx] /\
     database (snd search) = snd (executeQuery text (database w)) /\
     database (snd searchCtx) = snd (executeQuery textCtx (database w)) /\
     fst search =
       match fst (executeQuery text (database w)) with
       | Js.Fulfil rows => Js.Ok (List.map toSearchResult rows)
       | Js.Reject b msg => Js.Err (Js.Rejected b msg)
       end /\
     fst searchCtx = Js.await (fst (executeQuery textCtx (database w)))).
Proof.
  intros He search searchCtx. subst search searchCtx.
  unfold semanticSearch, semanticSearchWithContext, bind, isEmbedderReady,
    Embedder.isEmbedderReady.
  rewrite He. cbn [negb].
  unfold withEmbedder, Embedder.embedText, Embedder.getEmbedder, query.
  rewrite He. unfold Embedder.embeddingToArray.
  destruct (model p [q]) as [v | b msg] eqn:Hm; cbn [Js.await embedder database issued
    reported modelRuns].
  - destruct (executeQuery (semanticSearchQuery _ _ _ _) (database w))
      as [[rows | b msg] d1] eqn:Hq1;
    destruct (executeQuery (semanticSearchWithContextQuery _ _ _ _) (database w))
      as [[rows' | b' msg'] d2] eqn:Hq2;
    cbn [Js.await fst snd ret embedder database issued reported modelRuns];
    (split; [reflexivity|]); (split; [reflexivity|]);
    (split; [intros ? ? [=]|]);
    intros v' [= <-]; cbv zeta; rewrite Hq1, Hq2; repeat split.
  - cbn [fst snd modelRuns issued database].
    split; [reflexivity|]. split; [reflexivity|].
    split; [|intros v [=]].
    intros b' msg' [= <- <-]. repeat split.
Qed.

(** *** Cutting a list into batches *)

Lemma chunk_length {A} (l : list A) (bs j : nat) :
  length (chunk l bs j) = Nat.min ((j + 1) * bs) (length l) - Nat.min (j * bs) (length l).
Proof.
  unfold chunk, Js.slice. rewrite length_take, length_drop. lia.
Qed.

Lemma chunks_concat {A} (l : list A) (bs k : nat) :
  concat (List.map (chunk l bs) (seq 0 k)) = take (Nat.min (k * bs) (length l)) l.
Proof.
  induction k as [|k IH]; [reflexivity|].
  rewrite seq_S, List.map_app, concat_app, IH. simpl. rewrite app_nil_r.
  unfold chunk, Js.slice.
  destruct (Nat.le_gt_cases (k * bs) (length l)) as [Hle | Hgt].
  - rewrite (Nat.min_l (k * bs)) by exact Hle.
    rewrite take_take_drop. f_equal. lia.
  - rewrite (Nat.min_r (k * bs)) by lia.
    replace (Nat.min (k * bs + bs) (length l) - k * bs) with 0 by lia.
    simpl. rewrite app_nil_r. f_equal. lia.
Qed.

Lemma batchCount_bounds (total b : nat) :
  0 < total ->
  0 < batchCount total (S b) /\
  (batchCount total (S b) - 1) * S b < total /\
  total <= batchCount total (S b) * S b.
Proof.
  intros Hpos. unfold batchCount.
  pose proof (Nat.div_mod_eq (total + S b - 1) (S b)) as Hdm.
  pose proof (Nat.mod_upper_bound (total + S b - 1) (S b) ltac:(lia)) as Hm.
  set (q := (total + S b - 1) / S b) in *.
  set (r := (total + S b - 1) mod S b) in *.
  assert (Hq : 0 < q).
  { destruct q; [|lia]. lia. }
  split; [exact Hq|].
  destruct q as [|q']; [lia|].
  replace (S q' - 1) with q' by lia. nia.
Qed.

Lemma concat_zip_with {A B C} (f : A -> B -> C) (g : list A -> list B)
    (ls : list (list A)) :
  Forall (fun l => length (g l) = length l) ls ->
  concat (List.map (fun l => zip_with f l (g l)) ls) =
    zip_with f (concat ls) (concat (List.map g ls)) /\
  length (concat (List.map g ls)) = length (concat ls).
Proof.
  intros Hg. induction Hg as [|l ls Hl _ [IH1 IH2]]; [split; reflexivity|].
  simpl. split.
  - rewrite zip_with_app by (symmetry; exact Hl). rewrite IH1. reflexivity.
  - rewrite !length_app, IH2, Hl. reflexivity.
Qed.

(** *** The initialisation awaited by a run *)

Lemma settleInit_calm fuel : forall pr es r es' events,
  Embedder.calm es ->
  settleInit loadModel fuel pr es = Some (r, es', events) ->
  Embedder.calm es' /\
  (forall i, r = Js.Ok i -> Embedder.embedderInstance es' = Some i) /\
  (forall e, r = Js.Err e -> exists msg, e = Js.Rejected true msg).
Proof.
  induction fuel as [|fuel IH]; intros pr es r es' events Hc; simpl.
  - destruct (Embedder.findTask pr es); [discriminate|].
    destruct (Embedder.settled es !! pr) as [[i | e]|] eqn:Hs; [| |discriminate].
    + intros [= <- <- <-]. split; [exact Hc|]. split.
      * intros i' [= <-]. destruct Hc as [Hf _]. eapply Hf. exact Hs.
      * intros e [=].
    + intros [= <- <- <-]. split; [exact Hc|]. split.
      * intros i' [=].
      * intros e' [= <-]. eauto.
  - destruct (Embedder.findTask pr es) as [t|] eqn:Hfind.
    + destruct (loadModel (Embedder.tdevice t)) as [evs [i | e]].
      * destruct (settleInit loadModel fuel pr (Embedder.pipelineResolves pr i es))
          as [[[r1 es1] evs1]|] eqn:Hrec; [|discriminate].
        intros [= <- <- <-]. eapply IH; [|exact Hrec].
        apply (quiet_step_calm es (Embedder.PipelineResolves pr i));
          [repeat constructor | exact Hc].
      * destruct (settleInit loadModel fuel pr (Embedder.pipelineRejects pr e es))
          as [[[r1 es1] evs1]|] eqn:Hrec; [|discriminate].
        intros [= <- <- <-]. eapply IH; [|exact Hrec].
        apply (quiet_step_calm es (Embedder.PipelineRejects pr e));
          [repeat constructor | exact Hc].
    + destruct (Embedder.settled es !! pr) as [[i | e]|] eqn:Hs; [| |discriminate].
      * intros [= <- <- <-]. split; [exact Hc|]. split.
        -- intros i' [= <-]. destruct Hc as [Hf _]. eapply Hf. exact Hs.
        -- intros e [=].
      * intros [= <- <- <-]. split; [exact Hc|]. split.
        -- intros i' [=].
        -- intros e' [= <-]. eauto.
Qed.

Lemma awaitInitEmbedder_calm device w r w1 :
  Embedder.calm (embedder w) ->
  awaitInitEmbedder ofZ scaleDownload loadModel device w = Some (r, w1) ->
  Embedder.calm (embedder w1) /\
  (forall i, r = Js.Ok i -> Embedder.embedderInstance (embedder w1) = Some i).
Proof.
  intros Hc. unfold awaitInitEmbedder.
  pose proof (quiet_step_calm (embedder w) (Embedder.InitEmbedder device)
                ltac:(repeat constructor) Hc) as Hstep.
  simpl in Hstep.
  destruct (Embedder.initEmbedder device (embedder w)) as [es [i | pr]] eqn:Hinit.
  - intros [= <- <-]. simpl. split; [exact Hstep|].
    intros i' [= <-]. unfold Embedder.initEmbedder in Hinit.
    destruct (Embedder.embedderInstance (embedder w)) as [i0|] eqn:He.
    + injection Hinit as <- <-. exact He.
    + destruct (Embedder.isInitializing (embedder w)), (Embedder.initPromise (embedder w));
        discriminate Hinit.
  - destruct (settleInit loadModel 3 pr es) as [[[res es'] events]|] eqn:Hs;
      [|discriminate].
    intros [= <- <-]. simpl.
    destruct (settleInit_calm _ _ _ _ _ _ Hstep Hs) as (H1 & H2 & _).
    split; assumption.
Qed.

Lemma awaitInitEmbedder_reports device w r w1 :
  awaitInitEmbedder ofZ scaleDownload loadModel device w = Some (r, w1) ->
  exists rs, reported w1 = reported w ++ rs /\
             Forall (fun p => phase p = LoadingModel) rs.
Proof.
  unfold awaitInitEmbedder.
  destruct (Embedder.initEmbedder device (embedder w)) as [es [i | pr]].
  - intros [= <- <-]. exists []. simpl. rewrite app_nil_r. auto.
  - destruct (settleInit loadModel 3 pr es) as [[[res es'] events]|]; [|discriminate].
    intros [= <- <-]. simpl. eexists. split; [reflexivity|].
    destruct (negb _); [|constructor].
    apply Forall_map. apply Forall_forall. intros; reflexivity.
Qed.

(** *** A run in which every collaborator answers *)

Section Answered.

(** The instance the initialisation gives, and the flat tensor the model
    returns for a list of texts. *)
Variable p : Embedder.Pipeline.
Variable tensor : list string -> list Num.

Local Abbreviation vectorsOf :=
  (EmbeddingRun.vectorsOf tensor generateBatchEmbeddingTexts).
Local Abbreviation nodeText := (nodeUpdateText numToString).

(** The model answers the texts of the batch, one text per node. *)
Local Abbreviation answered :=
  (fun batch : list (EmbeddableNode Num) =>
     model p (generateBatchEmbeddingTexts batch)
       = Js.Fulfil (tensor (generateBatchEmbeddingTexts batch)) /\
     length (generateBatchEmbeddingTexts batch) = length batch).

Lemma batchUpdateEmbeddings_accepted updates : forall w,
  acceptedInTurn executeQuery (List.map updateText updates) (database w) = true ->
  batchUpdate updates w =
  (Js.Ok tt,
   {| embedder := embedder w;
      database := databaseAfter executeQuery (List.map updateText updates) (database w);
      issued := issued w ++ List.map updateText updates;
      reported := reported w; modelRuns := modelRuns w |}).
Proof.
  induction updates as [|update updates IH]; intros w Hacc.
  - simpl. unfold ret. rewrite app_nil_r. destruct w; reflexivity.
  - rewrite batchUpdateEmbeddings_cons. cbn [List.map acceptedInTurn] in Hacc.
    destruct (executeQuery (updateText update) (database w)) as [[rows | b msg] d] eqn:Hq;
      [|discriminate Hacc].
    rewrite IH by exact Hacc. simpl. rewrite Hq, <- app_assoc. reflexivity.
Qed.

Lemma makeUpdates_zip batch : forall embeddings,
  length batch <= length embeddings ->
  exists updates,
    makeUpdates numToString batch embeddings = Js.Ok updates /\
    List.map updateText updates = zip_with nodeText batch embeddings.
Proof.
  induction batch as [|node batch IH]; intros embeddings Hlen.
  - exists []. split; reflexivity.
  - destruct embeddings as [|e embeddings]; [simpl in Hlen; lia|].
    destruct (IH embeddings ltac:(simpl in Hlen; lia)) as (us & Hus & Htexts).
    eexists. simpl. rewrite Hus. split; [reflexivity|].
    simpl. rewrite Htexts. reflexivity.
Qed.

Lemma embedBatch_fulfils texts s :
  texts <> [] ->
  Embedder.embedderInstance s = Some p ->
  model p texts = Js.Fulfil (tensor texts) ->
  Embedder.embedBatch model texts s =
  (Js.Ok (Embedder.splitRows (tensor texts) (length texts)), [texts]).
Proof.
  intros Hne He Hm. unfold Embedder.embedBatch, Embedder.getEmbedder.
  destruct texts as [|t texts']; [congruence|].
  rewrite He, Hm. reflexivity.
Qed.

Lemma embedBatches_succeeds nodes bs totalB todo : forall i w,
  Embedder.embedderInstance (embedder w) = Some p ->
  (forall j, i <= j < i + todo ->
     chunk nodes bs j <> [] /\ answered (chunk nodes bs j)) ->
  acceptedInTurn executeQuery
    (concat (List.map (fun j => zip_with nodeText (chunk nodes bs j)
                                  (vectorsOf (chunk nodes bs j))) (seq i todo)))
    (database w) = true ->
  exists w',
    embedBatches numToString embeddingPercent executeQuery model
      generateBatchEmbeddingTexts nodes bs (length nodes) totalB todo i
      (Nat.min (i * bs) (length nodes)) w = (Js.Ok tt, w') /\
    embedder w' = embedder w /\
    issued w' = issued w ++
      concat (List.map (fun j => zip_with nodeText (chunk nodes bs j)
                                   (vectorsOf (chunk nodes bs j))) (seq i todo)) /\
    database w' =
      databaseAfter executeQuery
        (concat (List.map (fun j => zip_with nodeText (chunk nodes bs j)
                                      (vectorsOf (chunk nodes bs j))) (seq i todo)))
        (database w) /\
    modelRuns w' = modelRuns w ++
      List.map (fun j => generateBatchEmbeddingTexts (chunk nodes bs j)) (seq i todo) /\
    reported w' = reported w ++
      List.map (fun j => embeddingReport embeddingPercent
                           (Nat.min ((j + 1) * bs) (length nodes)) (length nodes)
                           (j + 1) totalB) (seq i todo).
Proof.
  induction todo as [|todo IH]; intros i w He Hne Hacc.
  - exists w. simpl. rewrite !app_nil_r. repeat split.
  - cbn [seq List.map concat] in Hacc.
    rewrite acceptedInTurn_app in Hacc. apply andb_true_iff in Hacc as [Hacc1 Hacc2].
    cbn [embedBatches].
    change (Js.slice nodes (i * bs) (Nat.min (i * bs + bs) (length nodes)))
      with (chunk nodes bs i) in *.
    set (batch := chunk nodes bs i) in *.
    destruct (Hne i ltac:(lia)) as (Hb & Hmodel & Hlen).
    fold batch in Hb, Hmodel, Hlen.
    assert (Htexts : generateBatchEmbeddingTexts batch <> []).
    { intros Hnil. apply Hb. apply length_zero_iff_nil.
      rewrite <- Hlen, Hnil. reflexivity. }
    unfold bind at 1. unfold withEmbedder.
    rewrite (embedBatch_fulfils _ _ Htexts He Hmodel).
    unfold bind at 1.
    destruct (makeUpdates_zip batch (vectorsOf batch)) as (updates & Hup & Hzip).
    { unfold EmbeddingRun.vectorsOf. rewrite splitRows_length, Hlen. lia. }
    fold (vectorsOf batch). cbv beta iota. rewrite Hup.
    unfold bind at 1.
    rewrite batchUpdateEmbeddings_accepted
      by (cbn [database]; rewrite Hzip; exact Hacc1).
    unfold bind at 1. unfold onProgress at 1.
    cbn [embedder database issued reported modelRuns].
    replace (Nat.min (i * bs) (length nodes) + length batch)
      with (Nat.min (S i * bs) (length nodes))
      by (subst batch; rewrite chunk_length; lia).
    match goal with
    | |- context [embedBatches _ _ _ _ _ _ _ _ _ _ _ _ ?w1] =>
      destruct (IH (S i) w1) as (w' & Hrun & He' & Hi' & Hd' & Hm' & Hr')
    end.
    { exact He. }
    { intros j Hj. apply Hne. lia. }
    { cbn [database]. rewrite Hzip. exact Hacc2. }
    cbn [embedder database issued reported modelRuns] in He', Hi', Hd', Hm', Hr'.
    exists w'. split; [exact Hrun|]. split; [exact He'|].
    cbn [seq List.map concat]. fold batch.
    rewrite Hi', Hd', Hm', Hr', Hzip, <- !app_assoc.
    unfold databaseAfter. rewrite fold_left_app.
    replace (S i * bs) with ((i + 1) * bs) by lia.
    repeat split.
Qed.

Lemma chunk_nonempty {A} (l : list A) (b j : nat) :
  0 < length l -> j < batchCount (length l) (S b) -> chunk l (S b) j <> [].
Proof.
  intros Hpos Hj Hnil.
  pose proof (batchCount_bounds (length l) b Hpos) as (_ & Hlo & _).
  apply (f_equal length) in Hnil. rewrite chunk_length in Hnil. simpl in Hnil.
  assert (j * S b <= (batchCount (length l) (S b) - 1) * S b) by (apply Nat.mul_le_mono_r; lia).
  lia.
Qed.

Lemma run_answered device b w w1 rows d :
  let nodes := List.map toEmbeddableNode rows in
  let total := length nodes in
  let totalB := batchCount total (S b) in
  let texts :=
    concat (List.map (fun j => zip_with nodeText (chunk nodes (S b) j)
                                 (vectorsOf (chunk nodes (S b) j))) (seq 0 totalB)) in
  Embedder.calm (embedder w) ->
  awaitInitEmbedder ofZ scaleDownload loadModel device
    (snd (onProgress (loadingReport ofZ 0 0) w)) = Some (Js.Ok p, w1) ->
  executeQuery (embeddableNodesQuery EMBEDDABLE_LABELS) (database w)
    = (Js.Fulfil rows, d) ->
  rows <> [] ->
  (forall j, j < totalB -> answered (chunk nodes (S b) j)) ->
  acceptedInTurn executeQuery texts d = true ->
  exists w',
    runEmbeddingPipeline numToString ofZ scaleDownload embeddingPercent executeQuery
      model loadModel EMBEDDABLE_LABELS generateBatchEmbeddingTexts device (S b) w
      = Some (Js.Ok tt, w') /\
    issued w' = issued w ++
      embeddableNodesQuery EMBEDDABLE_LABELS :: texts ++ [createVectorIndexQuery] /\
    database w' =
      snd (executeQuery createVectorIndexQuery (databaseAfter executeQuery texts d)) /\
    modelRuns w' = modelRuns w ++
      List.map (fun j => generateBatchEmbeddingTexts (chunk nodes (S b) j))
               (seq 0 totalB) /\
    reported w' = reported w1 ++
      loadingReport ofZ 20 100 :: embeddingStart ofZ total totalB ::
      List.map (fun j => embeddingReport embeddingPercent
                           (Nat.min ((j + 1) * S b) total) total (j + 1) totalB)
               (seq 0 totalB) ++
      [countsReport ofZ Indexing 90 total total; countsReport ofZ Ready 100 total total].
Proof.
  intros nodes total totalB texts Hc Hinit Hq Hrows Hans Hacc.
  destruct (awaitInitEmbedder_frame _ _ _ _ _ _ _ Hinit) as (Hd & Hi & Hr).
  destruct (awaitInitEmbedder_calm _ _ _ _ (Hc : Embedder.calm (embedder (snd (onProgress (loadingReport ofZ 0 0) w)))) Hinit)
    as (_ & Hinst).
  specialize (Hinst p eq_refl).
  cbn [snd onProgress database issued modelRuns] in Hd, Hi, Hr.
  assert (Hpos : 0 < total).
  { subst total nodes. rewrite length_map. destruct rows; [congruence | simpl; lia]. }
  unfold runEmbeddingPipeline, runEmbeddingPipelineBody.
  unfold bindP at 1. unfold liftP at 1.
  cbn [onProgress]. cbn [onProgress snd] in Hinit.
  unfold bindP at 1. rewrite Hinit.
  unfold bindP at 1. unfold liftP at 1. cbn [onProgress].
  unfold bindP at 1. unfold liftP at 1.
  unfold queryEmbeddableNodes, bind at 1, query, ret.
  cbn [database]. rewrite Hd, Hq. cbn [Js.await].
  fold nodes. fold total.
  assert (Ht : exists total', total = S total') by (exists (total - 1); lia).
  destruct Ht as [total' Ht]. rewrite Ht. cbv iota beta. rewrite <- Ht.
  unfold liftP. fold (batchCount total (S b)). fold totalB.
  unfold bind at 1. cbn [onProgress].
  unfold bind at 1.
  match goal with
  | |- context [embedBatches _ _ _ _ _ _ _ _ _ _ _ _ ?w2] =>
    destruct (embedBatches_succeeds nodes (S b) totalB totalB 0 w2)
      as (w3 & Hrun & He3 & Hi3 & Hd3 & Hm3 & Hr3)
  end.
  { exact Hinst. }
  { intros j Hj. split.
    - apply chunk_nonempty; [exact Hpos | subst totalB total; lia].
    - apply Hans. lia. }
  { exact Hacc. }
  cbn [embedder database issued reported modelRuns] in He3, Hi3, Hd3, Hm3, Hr3.
  fold total in Hrun. change (Nat.min (0 * S b) total) with 0 in Hrun.
  rewrite Hrun.
  unfold bind at 1. cbn [onProgress]. unfold bind at 1.
  unfold createVectorIndex, query. cbn [database issued reported embedder modelRuns].
  destruct (executeQuery createVectorIndexQuery (database w3)) as [r4 d4] eqn:Hq4.
  cbn [onProgress].
  eexists. split; [reflexivity|].
  cbn [embedder database issued reported modelRuns].
  rewrite Hi3, Hm3, Hr3, Hi, Hr. fold texts. fold texts in Hd3.
  rewrite <- Hd3, Hq4. fold total.
  rewrite <- !app_assoc. repeat split.
Qed.

(** The run's batches and update statements, batch by batch and as a
    whole. *)
Lemma run_batches_whole (nodes : list (EmbeddableNode Num)) (b : nat) :
  0 < length nodes ->
  Forall answered (batches nodes (S b)) ->
  concat (batches nodes (S b)) = nodes /\
  (forall j, j < batchCount (length nodes) (S b) -> answered (chunk nodes (S b) j)) /\
  concat (List.map (fun j => zip_with nodeText (chunk nodes (S b) j)
                               (vectorsOf (chunk nodes (S b) j)))
                   (seq 0 (batchCount (length nodes) (S b)))) =
    zip_with nodeText nodes (concat (List.map vectorsOf (batches nodes (S b)))) /\
  length (concat (List.map vectorsOf (batches nodes (S b)))) = length nodes.
Proof.
  intros Hpos Hall.
  pose proof (batchCount_bounds (length nodes) b Hpos) as (_ & _ & Hhi).
  assert (Hcat : concat (batches nodes (S b)) = nodes).
  { unfold batches. rewrite chunks_concat.
    rewrite Nat.min_r by exact Hhi. apply firstn_all. }
  assert (Hvec : Forall (fun l => length (vectorsOf l) = length l) (batches nodes (S b))).
  { eapply Forall_impl; [exact Hall|]. intros l [_ Hl]. simpl.
    unfold EmbeddingRun.vectorsOf. rewrite splitRows_length. exact Hl. }
  destruct (concat_zip_with nodeText vectorsOf _ Hvec) as [Hzip Hlen].
  split; [exact Hcat|]. split.
  { intros j Hj. unfold batches in Hall. rewrite Forall_map, Forall_forall in Hall.
    apply Hall. apply list_elem_of_In, in_seq. lia. }
  split.
  { rewrite Hcat in Hzip. rewrite <- Hzip. unfold batches.
    rewrite List.map_map. reflexivity. }
  rewrite Hlen, Hcat. reflexivity.
Qed.



End Answered.

(** *** Runs that fail *)

(** From one world to the next no failure is reported and the index
    creation is not requested. *)
Local Abbreviation steady :=
  (extends (fun r : EmbeddingProgress Num => phase r <> Failure)
           (fun q : string => q <> createVectorIndexQuery)).

Lemma steady_refl w w' :
  reported w' = reported w -> issued w' = issued w -> steady w w'.
Proof. intros Hr Hi. split; exists []; rewrite app_nil_r; auto. Qed.

Lemma steady_trans w1 w2 w3 : steady w1 w2 -> steady w2 w3 -> steady w1 w3.
Proof.
  intros [(r1 & Hr1 & F1) (q1 & Hq1 & G1)] [(r2 & Hr2 & F2) (q2 & Hq2 & G2)].
  split; [exists (r1 ++ r2) | exists (q1 ++ q2)];
    (split; [|apply Forall_app; auto]).
  - rewrite Hr2, Hr1, app_assoc. reflexivity.
  - rewrite Hq2, Hq1, app_assoc. reflexivity.
Qed.

Lemma bind_steady {A B} (m : @M Num D A) (k : A -> @M Num D B) w :
  steady w (snd (m w)) ->
  (forall a w1, steady w1 (snd (k a w1))) ->
  steady w (snd (bind m k w)).
Proof.
  intros Hm Hk. unfold bind. destruct (m w) as [[a | e] w1]; simpl in *.
  - eapply steady_trans; [exact Hm | apply Hk].
  - exact Hm.
Qed.

Lemma onProgress_steady r w :
  phase r <> Failure -> steady w (snd (onProgress r w)).
Proof.
  intros Hp. split; [exists [r] | exists []]; simpl; rewrite ?app_nil_r; auto.
Qed.

Lemma query_steady text w :
  text <> createVectorIndexQuery -> steady w (snd (query executeQuery text w)).
Proof.
  intros Hne. unfold query. destruct (executeQuery text (database w)) as [r d].
  split; [exists [] | exists [text]]; simpl; rewrite ?app_nil_r; auto.
Qed.

Lemma index_query_not_nodes :
  embeddableNodesQuery EMBEDDABLE_LABELS <> createVectorIndexQuery.
Proof.
  intros H. apply (f_equal (String.get 5)) in H. vm_compute in H. discriminate H.
Qed.

Lemma index_query_not_update nodeId embedding :
  updateNodeEmbeddingQuery numToString nodeId embedding <> createVectorIndexQuery.
Proof.
  intros H. apply (f_equal (String.get 5)) in H. vm_compute in H. discriminate H.
Qed.

Lemma batchUpdateEmbeddings_steady updates : forall w,
  steady w (snd (batchUpdate updates w)).
Proof.
  induction updates as [|update updates IH]; intros w.
  - apply steady_refl; reflexivity.
  - cbn [batchUpdateEmbeddings]. apply bind_steady; [|intros _ w1; apply IH].
    unfold updateNodeEmbedding. apply bind_steady.
    + apply query_steady, index_query_not_update.
    + intros _ w1. apply steady_refl; reflexivity.
Qed.

Lemma embedBatches_steady nodes bs total totalB todo : forall i processed w,
  steady w (snd (embedBatches numToString embeddingPercent executeQuery model
                   generateBatchEmbeddingTexts nodes bs total totalB todo i processed w)).
Proof.
  induction todo as [|todo IH]; intros i processed w.
  - apply steady_refl; reflexivity.
  - cbn [embedBatches]. apply bind_steady.
    { unfold withEmbedder. destruct (Embedder.embedBatch _ _ _) as [r runs].
      apply steady_refl; reflexivity. }
    intros embeddings w1. apply bind_steady.
    { apply steady_refl; reflexivity. }
    intros updates w2. apply bind_steady; [apply batchUpdateEmbeddings_steady|].
    intros _ w3. apply bind_steady.
    { apply onProgress_steady. discriminate. }
    intros _ w4. apply IH.
Qed.

Lemma runEmbeddingPipelineBody_outcome device batchSize w r w1 :
  runEmbeddingPipelineBody numToString ofZ scaleDownload embeddingPercent executeQuery
    model loadModel EMBEDDABLE_LABELS generateBatchEmbeddingTexts device batchSize w
    = Some (r, w1) ->
  exists front qs,
    Forall (fun r => phase r <> Failure) front /\
    issued w1 = issued w ++ qs /\
    match r with
    | Js.Ok _ =>
      exists n, reported w1 = reported w ++ loadingReport ofZ 0 0 :: front
                                ++ [countsReport ofZ Ready 100 n n]
    | Js.Err e =>
      reported w1 = reported w ++ loadingReport ofZ 0 0 :: front /\
      ~ In createVectorIndexQuery qs
    end.
Proof.
  unfold runEmbeddingPipelineBody.
  unfold bindP at 1. unfold liftP at 1. cbn [onProgress].
  unfold bindP at 1.
  destruct (awaitInitEmbedder _ _ _ _ _) as [[[i | e] w2]|] eqn:Hinit; [| |discriminate].
  2:{ intros [= <- <-].
      destruct (awaitInitEmbedder_reports _ _ _ _ Hinit) as (rs & Hrs & Hall).
      destruct (awaitInitEmbedder_frame _ _ _ _ _ _ _ Hinit) as (_ & Hi & _).
      cbn [reported issued] in Hrs, Hi.
      exists rs, []. split.
      { eapply Forall_impl; [exact Hall|]. intros x Hx. simpl in Hx. rewrite Hx. discriminate. }
      rewrite app_nil_r. split; [exact Hi|]. split.
      - rewrite Hrs, <- app_assoc. reflexivity.
      - intros []. }
  destruct (awaitInitEmbedder_reports _ _ _ _ Hinit) as (rs & Hrs & Hall).
  destruct (awaitInitEmbedder_frame _ _ _ _ _ _ _ Hinit) as (_ & Hi & _).
  cbn [reported issued] in Hrs, Hi.
  assert (Hload : Forall (fun r => phase r <> Failure) (rs ++ [loadingReport ofZ 20 100])).
  { apply Forall_app. split.
    - eapply Forall_impl; [exact Hall|]. intros x Hx. simpl in Hx. rewrite Hx. discriminate.
    - repeat constructor. discriminate. }
  unfold bindP at 1. unfold liftP at 1. cbn [onProgress].
  unfold bindP at 1. unfold liftP at 1.
  unfold queryEmbeddableNodes, bind at 1, query, ret.
  cbn [database issued reported embedder modelRuns].
  destruct (executeQuery (embeddableNodesQuery EMBEDDABLE_LABELS) (database w2))
    as [[rows | b msg] d] eqn:Hq; cbn [Js.await].
  2:{ intros [= <- <-]. cbn [issued reported].
      exists (rs ++ [loadingReport ofZ 20 100]), [embeddableNodesQuery EMBEDDABLE_LABELS].
      split; [exact Hload|]. rewrite Hi. split; [reflexivity|]. split.
      - rewrite Hrs, <- !app_assoc. reflexivity.
      - intros [H | []]. apply index_query_not_nodes. exact H. }
  destruct (length (List.map toEmbeddableNode rows)) as [|total'] eqn:Ht.
  { unfold liftP. cbn [onProgress]. intros [= <- <-]. cbn [issued reported].
    exists (rs ++ [loadingReport ofZ 20 100]), [embeddableNodesQuery EMBEDDABLE_LABELS].
    split; [exact Hload|]. rewrite Hi. split; [reflexivity|].
    exists 0. rewrite Hrs, <- !app_assoc. reflexivity. }
  destruct batchSize as [|b]; [discriminate|].
  unfold liftP. unfold bind at 1. cbn [onProgress].
  unfold bind at 1.
  match goal with
  | |- context [embedBatches _ _ _ _ _ ?nodes ?bs ?total ?totalB ?todo ?i ?pn ?w3] =>
    pose proof (embedBatches_steady nodes bs total totalB todo i pn w3) as Hsteady;
    destruct (embedBatches numToString embeddingPercent executeQuery model
                generateBatchEmbeddingTexts nodes bs total totalB todo i pn w3)
      as [[[] | e] w4] eqn:Hloop
  end;
  destruct Hsteady as [(rs' & Hrs' & Hall') (qs' & Hqs' & Hne')];
  cbn [snd issued reported] in Hrs', Hqs'.
  - unfold bind at 1. cbn [onProgress]. unfold bind at 1.
    unfold createVectorIndex, query.
    destruct (executeQuery createVectorIndexQuery _) as [r5 d5].
    cbn [onProgress]. intros [= <- <-]. cbn [issued reported].
    eexists (rs ++ loadingReport ofZ 20 100
                :: embeddingStart ofZ (S total') (batchCount (S total') (S b)) :: rs'
             ++ [countsReport ofZ Indexing 90 (S total') (S total')]), _.
    split.
    { apply Forall_app. split.
      - eapply Forall_impl; [exact Hall|]. intros x Hx. simpl in Hx. rewrite Hx. discriminate.
      - constructor; [discriminate|]. constructor; [discriminate|].
        apply Forall_app. split; [exact Hall'|]. repeat constructor. discriminate. }
    split.
    { rewrite Hqs', Hi, <- !app_assoc. reflexivity. }
    exists (S total'). rewrite Hrs', Hrs, <- !app_assoc. simpl.
    rewrite <- !app_assoc. reflexivity.
  - intros [= <- <-].
    eexists (rs ++ loadingReport ofZ 20 100
                :: embeddingStart ofZ (S total') (batchCount (S total') (S b)) :: rs'),
            (embeddableNodesQuery EMBEDDABLE_LABELS :: qs').
    split.
    { apply Forall_app. split.
      - eapply Forall_impl; [exact Hall|]. intros x Hx. simpl in Hx. rewrite Hx. discriminate.
      - constructor; [discriminate|]. constructor; [discriminate|]. exact Hall'. }
    split.
    { rewrite Hqs', Hi, <- !app_assoc. reflexivity. }
    split.
    { rewrite Hrs', Hrs, <- !app_assoc. simpl. reflexivity. }
    intros [H | H].
    + apply index_query_not_nodes. exact H.
    + rewrite Forall_forall in Hne'. apply list_elem_of_In in H.
      exact (Hne' _ H eq_refl).
Qed.


Lemma last_cons_default {A} (l : list A) (a d : A) :
  List.last (a :: l) d = List.last l a.
Proof.
  revert a. induction l as [|x l IH]; intros a; [reflexivity|].
  change (List.last (x :: l) d = List.last (x :: l) a).
  rewrite (IH x). destruct l as [|y l]; [reflexivity|].
  change (List.last (y :: l) x = List.last (y :: l) a). clear.
  revert y. induction l as [|z l IH]; intros y; [reflexivity|].
  change (List.last (z :: l) x = List.last (z :: l) a). apply IH.
Qed.

Lemma settleInit_step fuel pr es t evs out :
  Embedder.findTask pr es = Some t ->
  loadModel (Embedder.tdevice t) = (evs, out) ->
  settleInit loadModel (S fuel) pr es =
  match settleInit loadModel fuel pr
          (match out with
           | inl i => Embedder.pipelineResolves pr i es
           | inr e => Embedder.pipelineRejects pr e es
           end) with
  | Some (r, es', evs') => Some (r, es', evs ++ evs')
  | None => None
  end.
Proof. intros Hf Hl. simpl. rewrite Hf, Hl. reflexivity. Qed.

Lemma settleInit_failed fuel pr es e :
  Embedder.findTask pr es = None ->
  Embedder.settled es !! pr = Some (Embedder.Failed e) ->
  settleInit loadModel fuel pr es = Some (Js.Err (Js.Rejected true e), es, []).
Proof. intros Hf Hs. destruct fuel; simpl; rewrite Hf, Hs; reflexivity. Qed.

Lemma settleInit_all_fail (failure : Embedder.Device -> string) ds :
  (forall d, snd (loadModel d) = inr (failure d)) ->
  forall d es pr fuel,
    Embedder.tasks es = [{| Embedder.tpromise := pr; Embedder.tdevice := d;
                            Embedder.tremaining := ds |}] ->
    Embedder.embedderInstance es = None ->
    length ds < fuel ->
    exists es' events,
      settleInit loadModel fuel pr es =
        Some (Js.Err (Js.Rejected true (failure (List.last ds d))), es', events) /\
      Embedder.loads es' = Embedder.loads es ++ ds /\
      Embedder.embedderInstance es' = None /\
      Embedder.isInitializing es' = false /\
      Embedder.initPromise es' = None /\
      Embedder.tasks es' = [].
Proof.
  intros Hfail. induction ds as [|d' ds IH]; intros d es pr fuel Ht He Hfuel.
  - destruct fuel as [|fuel]; [simpl in Hfuel; lia|].
    assert (Hfind : Embedder.findTask pr es =
                    Some {| Embedder.tpromise := pr; Embedder.tdevice := d;
                            Embedder.tremaining := [] |}).
    { unfold Embedder.findTask. rewrite Ht. simpl. rewrite Nat.eqb_refl. reflexivity. }
    pose proof (Hfail d) as Hd. destruct (loadModel d) as [evs out] eqn:Hl.
    simpl in Hd. subst out.
    rewrite (settleInit_step fuel pr es _ evs _ Hfind Hl).
    unfold Embedder.pipelineRejects. rewrite Hfind. cbn [Embedder.tremaining].
    rewrite He, Ht. cbn [Embedder.dropTask List.filter Embedder.tpromise].
    rewrite Nat.eqb_refl. cbn [negb].
    rewrite (settleInit_failed fuel pr _ (failure d));
      [|reflexivity | apply lookup_insert_eq].
    eexists. eexists. split; [reflexivity|]. cbn. rewrite app_nil_r. auto.
  - destruct fuel as [|fuel]; [simpl in Hfuel; lia|].
    assert (Hfind : Embedder.findTask pr es =
                    Some {| Embedder.tpromise := pr; Embedder.tdevice := d;
                            Embedder.tremaining := d' :: ds |}).
    { unfold Embedder.findTask. rewrite Ht. simpl. rewrite Nat.eqb_refl. reflexivity. }
    pose proof (Hfail d) as Hd. destruct (loadModel d) as [evs out] eqn:Hl.
    simpl in Hd. subst out.
    rewrite (settleInit_step fuel pr es _ evs _ Hfind Hl).
    unfold Embedder.pipelineRejects. rewrite Hfind. cbn [Embedder.tremaining].
    rewrite Ht. cbn [Embedder.replaceTask List.map Embedder.tpromise].
    rewrite Nat.eqb_refl.
    match goal with
    | |- context [settleInit loadModel fuel pr ?es1] =>
      destruct (IH d' es1 pr fuel) as (es' & events & Hrun & Hl' & He' & Hi' & Hp' & Ht')
    end.
    { reflexivity. }
    { exact He. }
    { simpl in Hfuel. lia. }
    rewrite Hrun. eexists. eexists. split.
    { rewrite (last_cons_default ds d' d). reflexivity. }
    cbn [Embedder.loads] in Hl'. rewrite Hl', <- app_assoc. auto.
Qed.



End PipelineRuns.

Section PipelineRunWitnesses.

Import EmbeddingPipeline EmbeddingRun.

Let rowOf (nodeId name : string) : gmap string (Js.Val Z) :=
  {[ "id" := Js.Str nodeId; "name" := Js.Str name ]}.

Let threeRows : list (gmap string (Js.Val Z)) :=
  [rowOf "Function:a.ts:f" "f"; rowOf "Function:a.ts:g" "g";
   rowOf "Class:b.ts:H" "H"].

(** A sink that answers every text with the rows it holds. *)
Let echo (_ : string) (d : list (gmap string (Js.Val Z))) :
    Js.Settle (list (gmap string (Js.Val Z))) * list (gmap string (Js.Val Z)) :=
  (Js.Fulfil d, d).

(** A sink that refuses every text. *)
Let refuse (_ : string) (d : list (gmap string (Js.Val Z))) :
    Js.Settle (list (gmap string (Js.Val Z))) * list (gmap string (Js.Val Z)) :=
  (Js.Reject true "IO exception", d).

Let zeros (texts : list string) : list Z := repeat 0%Z (length texts * 384).
Let zeroModel (_ : Embedder.Pipeline) (texts : list string) : Js.Settle (list Z) :=
  Js.Fulfil (zeros texts).
Let names (batch : list (EmbeddableNode Z)) : list string :=
  List.map (fun node => Js.toString pretty (en_name node)) batch.
Let loaded (_ : Embedder.Device) : list (ModelProgress Z) * (Embedder.Pipeline + string) :=
  ([{| mp_status := "progress"; mp_progress := Some 50%Z |}], inl 7).
Let unavailable (d : Embedder.Device) : string :=
  match d with
  | Embedder.webgpu => "no adapter"
  | Embedder.wasm => "out of memory"
  end.
Let start : World Z (list (gmap string (Js.Val Z))) :=
  {| embedder := Embedder.initial; database := threeRows; issued := [];
     reported := []; modelRuns := [] |}.

(** A sink over the node table of the storage model: it answers the node
    query with the ids and names of its rows and reads every other text
    as the storage model does, so it refuses what it cannot parse or
    bind, the index creation included. *)
Let rowOfNode (r : Sink.NodeRow) : gmap string (Js.Val Z) :=
  {[ "id" := Js.Str (Sink.id r); "name" := Js.Str (Sink.name r) ]}.

Let store (cypher : string) (db : Sink.DB)
  : Js.Settle (list (gmap string (Js.Val Z))) * Sink.DB :=
  if String.eqb cypher (embeddableNodesQuery ["Function"; "Class"])
  then (Js.Fulfil (List.map rowOfNode (Sink.nodes db)), db)
  else Sink.executeQuery cypher db.

Let nodeOf (nodeId label name : string) : Sink.NodeRow :=
  {| Sink.id := nodeId; Sink.label := label; Sink.name := name;
     Sink.filePath := "a.ts"; Sink.startLine := 1; Sink.endLine := 2;
     Sink.content := ""; Sink.embedding := None |}.

Let table : Sink.DB :=
  {| Sink.nodes := [nodeOf "Function:a.ts:f" "Function" "f";
                    nodeOf "Function:a.ts:g" "Function" "g";
                    nodeOf "Class:a.ts:H" "Class" "H"];
     Sink.edges := [] |}.

Let tableRows : list (gmap string (Js.Val Z)) :=
  List.map rowOfNode (Sink.nodes table).

Let stored : World Z Sink.DB :=
  {| embedder := Embedder.initial; database := table; issued := [];
     reported := []; modelRuns := [] |}.

Let afterLoad : World Z Sink.DB :=
  match awaitInitEmbedder (fun z => z) (fun z => (z / 5)%Z) loaded Embedder.wasm
          (snd (onProgress (loadingReport (fun z => z) 0 0) stored)) with
  | Some (_, w) => w
  | None => stored
  end.

Let afterRefusal : World Z (list (gmap string (Js.Val Z))) :=
  match runEmbeddingPipeline pretty (fun z => z) (fun z => (z / 5)%Z) (fun _ _ => 0%Z)
          refuse zeroModel loaded ["Function"; "Class"] names Embedder.wasm 2 start with
  | Some (_, w) => w
  | None => start
  end.

(** A world in which another caller's initialisation, on WebGPU, is under
    way. *)
Let joining : World Z (list (gmap string (Js.Val Z))) :=
  {| embedder := fst (Embedder.run Embedder.initial
                        [Embedder.InitEmbedder Embedder.webgpu]);
     database := threeRows; issued := []; reported := []; modelRuns := [] |}.

Let afterJoin : World Z (list (gmap string (Js.Val Z))) :=
  match awaitInitEmbedder (fun z => z) (fun z => (z / 5)%Z) loaded Embedder.wasm
          joining with
  | Some (_, w) => w
  | None => joining
  end.

Lemma semanticSearch_one_model_run_one_statement_witness :
  let ready := fst (Embedder.run Embedder.initial
                      [Embedder.InitEmbedder Embedder.wasm;
                       Embedder.PipelineResolves 0 7]) in
  let w := {| embedder := ready; database := threeRows; issued := [];
              reported := []; modelRuns := [] |} in
  let model := fun (_ : Embedder.Pipeline) (_ : list string) =>
                 Js.Fulfil [1%Z; (-2)%Z] in
  let search := semanticSearch pretty echo model "parse" 10%Z 1%Z w in
  modelRuns (snd search) = [["parse"]] /\
  issued (snd search) = [semanticSearchQuery pretty "[1,-2]" 10%Z 1%Z] /\
  fst search = Js.Ok (List.map toSearchResult threeRows).
Proof.
  intros ready w model search.
  destruct (semanticSearch_one_model_run_one_statement pretty echo model "parse"
              10%Z 1%Z 2%Z w 7 eq_refl) as (Hruns & _ & _ & Hfulfil).
  destruct (Hfulfil [1%Z; (-2)%Z] eq_refl) as (Hissued & _ & _ & _ & Hres & _).
  split; [exact Hruns|]. split; [exact Hissued | exact Hres].
Defined.






End PipelineRunWitnesses.

(** ** The comment stripping of the grammar patch *)

Section PatchSwiftFacts.

Import PatchSwift.

Local Abbreviation lf := (ascii_of_nat 10).

Lemma includes_append c (a b : string) :
  includes c (a +:+ b) = includes c a || includes c b.
Proof.
  induction a as [|x a IH]; [reflexivity|].
  change (includes c (String x (a +:+ b)) = includes c (String x a) || includes c b).
  simpl. rewrite IH, orb_assoc. reflexivity.
Qed.

Lemma beforeHash_plain (s : string) : includes "#" s = false -> beforeHash s = s.
Proof.
  induction s as [|c s IH]; [reflexivity|]. simpl. intros H.
  apply orb_false_iff in H as [Hc Hs]. rewrite Hc, IH by exact Hs. reflexivity.
Qed.

Lemma beforeHash_cut (s junk : string) :
  includes "#" s = false -> beforeHash (s +:+ String "#" junk) = s.
Proof.
  induction s as [|c s IH]; [reflexivity|]. simpl. intros H.
  apply orb_false_iff in H as [Hc Hs].
  change (String c s +:+ String "#" junk) with (String c (s +:+ String "#" junk)).
  simpl. rewrite Hc, IH by exact Hs. reflexivity.
Qed.

Lemma stripFrom_no_hash (s : string) : forall inMatch,
  includes "#" (stripFrom inMatch s) = false.
Proof.
  induction s as [|c s IH]; intros inMatch; [reflexivity|].
  simpl. destruct inMatch.
  - destruct (Ascii.eqb_spec c lf) as [-> | Hne]; [|apply IH].
    simpl. apply IH.
  - destruct (Ascii.eqb c "#") eqn:Hc; [apply IH|].
    simpl. rewrite Hc. apply IH.
Qed.

Lemma stripFrom_plain (s : string) :
  includes "#" s = false -> stripFrom false s = s.
Proof.
  induction s as [|c s IH]; [reflexivity|]. simpl. intros H.
  apply orb_false_iff in H as [Hc Hs]. rewrite Hc, IH by exact Hs. reflexivity.
Qed.

Lemma stripFrom_lines (s : string) : forall acc,
  includes "#" acc = false ->
  linesFrom acc (stripFrom false s) = List.map beforeHash (linesFrom acc s) /\
  (forall junk,
     linesFrom acc (stripFrom true s)
       = List.map beforeHash (linesFrom (acc +:+ String "#" junk) s)).
Proof.
  induction s as [|c s IH]; intros acc Hacc.
  - simpl. split.
    + rewrite beforeHash_plain by exact Hacc. reflexivity.
    + intros junk. rewrite beforeHash_cut by exact Hacc. reflexivity.
  - split.
    + cbn [stripFrom linesFrom].
      destruct (Ascii.eqb_spec c "#") as [-> | Hhash].
      * change (Ascii.eqb "#" lf) with false. cbv iota.
        apply (proj2 (IH acc Hacc)).
      * cbn [linesFrom]. destruct (Ascii.eqb c lf) eqn:Hlf.
        -- cbn [List.map]. rewrite beforeHash_plain by exact Hacc.
           f_equal. apply (proj1 (IH "" eq_refl)).
        -- apply (proj1 (IH (acc +:+ String c "") ltac:(
             rewrite includes_append, Hacc; simpl;
             destruct (Ascii.eqb_spec c "#"); [contradiction | reflexivity]))).
    + intros junk. cbn [stripFrom linesFrom].
      destruct (Ascii.eqb c lf) eqn:Hlf.
      * cbn [linesFrom]. rewrite Hlf. cbn [List.map].
        rewrite beforeHash_cut by exact Hacc.
        f_equal. apply (proj1 (IH "" eq_refl)).
      * rewrite append_assoc3.
        change (String "#" junk +:+ String c "") with (String "#" (junk +:+ String c "")).
        apply (proj2 (IH acc Hacc)).
Qed.

(** X17. The comment stripping of the patch script,
    [content.replace(/#[^\n]*/g, '')], works line by line and knows
    nothing of string literals: every line is cut at its first [#],
    whether or not that [#] stands inside a quoted JSON string, and the
    line feeds all stay, so the number of lines is kept. The result holds
    no [#]; a text without [#] is returned as it is, and stripping twice
    is stripping once. *)
Theorem stripComments_cuts_each_line_at_first_hash (content : string) :
  lines (stripComments content) = List.map beforeHash (lines content) /\
  length (lines (stripComments content)) = length (lines content) /\
  includes "#" (stripComments content) = false /\
  (includes "#" content = false -> stripComments content = content) /\
  stripComments (stripComments content) = stripComments content.
Proof.
  unfold stripComments, lines.
  pose proof (proj1 (stripFrom_lines content "" eq_refl)) as Hlines.
  split; [exact Hlines|].
  split; [rewrite Hlines; apply length_map|].
  split; [apply stripFrom_no_hash|].
  split; [apply stripFrom_plain|].
  apply stripFrom_plain, stripFrom_no_hash.
Qed.

End PatchSwiftFacts.
